(** * Day 10 button machines: the GF(2) toggle solver and the parity
    reduction solver, embedded from [day10.ts]

    Numbers of the source are JavaScript Numbers.  Every value the solvers
    handle is an integer, so a Number is modelled as a [Z]: exactly where
    the values stay below 2^53, and for the reduction solver a second
    time with the rounding of the source (module [Binary64]).
    The bitwise operators of the source ([<<], [>>], [&], [|]) work on
    32-bit signed integers and are modelled with their wrap-around written
    out (module [JS]).  Arrays are lists, updated by index where the source
    assigns by index; [Map]s are [gmap]s; a thrown [Error] is the [Throw]
    constructor of [outcome].  The recursion of the reduction solver takes
    its depth as fuel: it answers [None] only when the fuel is used up, and
    [depthBound] is always enough. *)

From Stdlib Require Import ZArith List Bool Lia String Ascii.
From stdpp Require Import base list list_numbers gmap strings pretty.

Local Open Scope Z_scope.

(** ** JavaScript 32-bit operators *)

Module JS.

(** [ToInt32]: reduction modulo 2^32 into the signed range. *)
Definition toInt32 (z : Z) : Z := (z + 2 ^ 31) mod 2 ^ 32 - 2 ^ 31.

(** [a << b]: the shift count is taken modulo 32, the result wraps. *)
Definition shl (a b : Z) : Z := toInt32 (Z.shiftl (toInt32 a) (b mod 32)).

(** [a >> b]: sign-propagating shift, count modulo 32. *)
Definition shr (a b : Z) : Z := Z.shiftr (toInt32 a) (b mod 32).

(** [a & b] and [a | b]. *)
Definition band (a b : Z) : Z := Z.land (toInt32 a) (toInt32 b).
Definition bor (a b : Z) : Z := Z.lor (toInt32 a) (toInt32 b).

(** A Number that is either an integer or [Infinity]. *)
Inductive num : Type :=
| Int (z : Z)
| Infinity.

Definition add (a b : num) : num :=
  match a, b with
  | Int x, Int y => Int (x + y)
  | _, _ => Infinity
  end.

(** [a < b] on such Numbers. *)
Definition ltb (a b : num) : bool :=
  match a, b with
  | Int x, Int y => x <? y
  | Int _, Infinity => true
  | Infinity, _ => false
  end.

(** [arr.join(',')] on an array of integers. *)
Definition join (l : list Z) : string := String.concat "," (pretty <$> l).

End JS.

(** ** The machine model *)

Record Machine : Type := mkMachine {
  target : list bool;
  buttons : list (list Z);
  joltage : list Z
}.

(** [button.includes(i)] *)
Definition includes (button : list Z) (i : Z) : bool :=
  existsb (Z.eqb i) button.

(** The result of a computation that may [throw new Error(msg)]. *)
Inductive outcome (A : Type) : Type :=
| Return (a : A)
| Throw (msg : string).
Arguments Return {A} a.
Arguments Throw {A} msg.

(** ** Parsing the input

    A string of the source is modelled as a [string] of 8-bit characters;
    white space outside ASCII is not modelled. *)

(** The white space and line terminators that [trim] strips. *)
Definition isWhiteSpace (c : ascii) : bool :=
  match nat_of_ascii c with
  | 9%nat | 10%nat | 11%nat | 12%nat | 13%nat | 32%nat => true
  | _ => false
  end.

Fixpoint trimStart (s : string) : string :=
  match s with
  | String c rest => if isWhiteSpace c then trimStart rest else s
  | EmptyString => EmptyString
  end.

Fixpoint trimEnd (s : string) : string :=
  match s with
  | EmptyString => EmptyString
  | String c rest =>
      match trimEnd rest with
      | EmptyString => if isWhiteSpace c then EmptyString
                       else String c EmptyString
      | kept => String c kept
      end
  end.

(** [s.trim()] *)
Definition trim (s : string) : string := trimEnd (trimStart s).

(** [s.split(sep)] for a one-character separator. *)
Fixpoint splitOn (sep : ascii) (s : string) : list string :=
  match s with
  | EmptyString => [EmptyString]
  | String c rest =>
      if (c =? sep)%char then EmptyString :: splitOn sep rest
      else
        match splitOn sep rest with
        | piece :: pieces => String c piece :: pieces
        | [] => [String c EmptyString]
        end
  end.

(** The longest prefix of characters of a class, and what follows it. *)
Fixpoint spanClass (cls : ascii -> bool) (s : string) : string * string :=
  match s with
  | String c rest =>
      if cls c then
        let (group, after) := spanClass cls rest in (String c group, after)
      else (EmptyString, s)
  | EmptyString => (EmptyString, EmptyString)
  end.

(** A match of the regular expression [opn ([cls]+) close] at the very
    start of [s]: the captured group and the text after the match.  The
    closing character is outside the class, so the group is the longest
    run of class characters. *)
Definition matchHere (opn : ascii) (cls : ascii -> bool) (close : ascii)
    (s : string) : option (string * string) :=
  match s with
  | String c rest =>
      if (c =? opn)%char then
        match spanClass cls rest with
        | (String g group, String c' after) =>
            if (c' =? close)%char then Some (String g group, after) else None
        | _ => None
        end
      else None
  | EmptyString => None
  end.

(** [s.match(re)]: the leftmost match. *)
Fixpoint firstMatch (opn : ascii) (cls : ascii -> bool) (close : ascii)
    (s : string) : option (string * string) :=
  match matchHere opn cls close s with
  | Some m => Some m
  | None =>
      match s with
      | String _ rest => firstMatch opn cls close rest
      | EmptyString => None
      end
  end.

(** [s.matchAll(re)] with the [g] flag: the matches from left to right,
    each search starting where the previous match ended.  [n] bounds the
    number of matches; the length of [s] is enough ([allMatches_enough]). *)
Fixpoint allMatches (n : nat) (opn : ascii) (cls : ascii -> bool)
    (close : ascii) (s : string) : list string :=
  match n with
  | O => []
  | S n' =>
      match firstMatch opn cls close s with
      | Some (group, after) => group :: allMatches n' opn cls close after
      | None => []
      end
  end.

(** The character classes [[.#]] and [[0-9,]]. *)
Definition isPatternChar (c : ascii) : bool :=
  (c =? ".")%char || (c =? "#")%char.

Definition isDigit (c : ascii) : bool :=
  (48 <=? nat_of_ascii c)%nat && (nat_of_ascii c <=? 57)%nat.

Definition isIndexChar (c : ascii) : bool := isDigit c || (c =? ",")%char.

(** [Number(s)] for a string of decimal digits; [Number("")] is 0.  The
    digits are read into the exact integer, which is the Number of the
    source up to 2^53; beyond it the source rounds to binary64. *)
Fixpoint numberFrom (s : string) (acc : Z) : Z :=
  match s with
  | EmptyString => acc
  | String c rest => numberFrom rest (acc * 10 + (Z.of_nat (nat_of_ascii c) - 48))
  end.

Definition Number (s : string) : Z := numberFrom s 0.

(** [str.split(',').map(Number)] *)
Definition numberList (s : string) : list Z := Number <$> splitOn "," s.

(** The callback of the last [map] of [parseInput], on one line. *)
Definition parseLine (line : string) : outcome Machine :=
  match firstMatch "[" isPatternChar "]" line with
  | None => Throw ("Invalid pattern: " +:+ line)
  | Some (pattern, _) =>
      let target :=
        (fun ch => (ch =? "#")%char) <$> list_ascii_of_string pattern in
      let buttons :=
        numberList
          <$> allMatches (String.length line) "(" isIndexChar ")" line in
      let joltage :=
        match firstMatch "{" isIndexChar "}" line with
        | Some (numbers, _) => numberList numbers
        | None => []
        end in
      Return (mkMachine target buttons joltage)
  end.

(** [lines.map(parseLine)]: the first line that throws ends the parse. *)
Fixpoint parseLines (lines : list string) : outcome (list Machine) :=
  match lines with
  | [] => Return []
  | line :: rest =>
      match parseLine line with
      | Throw msg => Throw msg
      | Return machine =>
          match parseLines rest with
          | Throw msg => Throw msg
          | Return machines => Return (machine :: machines)
          end
      end
  end.

(** The lines of the input, trimmed, without the empty ones. *)
Definition inputLines (input : string) : list string :=
  filter (fun line => line <> EmptyString) (trim <$> splitOn "010" input).

Definition parseInput (input : string) : outcome (list Machine) :=
  parseLines (inputLines input).

(** The input of the source's [test]. *)
Definition exampleInput : string :=
  "[.##.] (3) (1,3) (2) (2,3) (0,2) (0,1) {3,5,4,7}
[...#.] (0,2,3,4) (2,3) (0,4) (0,1,2) (1,2,3,4) {7,5,12,7,2}
[.###.#] (0,1,2,3,4) (0,3,4) (0,1,2,4,5) (1,2) {10,11,11,5,10,5}".

(** Every character of a string is in a class. *)
Fixpoint allChars (cls : ascii -> bool) (s : string) : Prop :=
  match s with
  | EmptyString => True
  | String c rest => cls c = true /\ allChars cls rest
  end.

(** The line holds a bracketed light pattern: [[], one or more of [.] and
    [#], then []]. *)
Definition hasLightPattern (line : string) : Prop :=
  exists before pattern after,
    line = before +:+ String "[" (pattern +:+ String "]" after) /\
    pattern <> EmptyString /\ allChars isPatternChar pattern.

(** ** Part 1: the GF(2) toggle solver *)

(** An array element read as a condition: a missing element is [undefined],
    which is falsy. *)
Definition truthy (l : list bool) (i : nat) : bool := default false (l !! i).

(** The augmented matrix [[A | b]]: row [i] is
    [buttons[j].includes(i)] for every button [j], then [target[i]]. *)
Definition buildMatrix (machine : Machine) : list (list bool) :=
  imap (fun i t =>
          map (fun button => includes button (Z.of_nat i)) (buttons machine)
          ++ [t])
       (target machine).

(** [for (row = rank; row < numLights; row++) if (matrix[row][col]) ...break]
    over the rows from index [row] on. *)
Fixpoint findPivotRow (rows : list (list bool)) (row col : nat) : option nat :=
  match rows with
  | [] => None
  | r :: rest =>
      if truthy r col then Some row else findPivotRow rest (S row) col
  end.

(** [[matrix[rank], matrix[pivotRow]] = [matrix[pivotRow], matrix[rank]]] *)
Definition swapRows (matrix : list (list bool)) (rank pivotRow : nat)
    : list (list bool) :=
  match matrix !! pivotRow, matrix !! rank with
  | Some rp, Some rr => <[pivotRow := rr]> (<[rank := rp]> matrix)
  | _, _ => matrix
  end.

(** [matrix[row][c] = matrix[row][c] !== matrix[rank][c]] for every [c];
    both rows have [numButtons + 1] entries. *)
Definition xorRow (r pivot : list bool) : list bool := zip_with xorb r pivot.

(** The loop that clears column [col] in every row but the pivot row. *)
Definition eliminate (matrix : list (list bool)) (rank col : nat)
    : list (list bool) :=
  match matrix !! rank with
  | Some pivot =>
      imap (fun row r =>
              if negb (row =? rank)%nat && truthy r col
              then xorRow r pivot else r)
           matrix
  | None => matrix
  end.

Record Elimination : Type := mkElimination {
  matrix : list (list bool);
  rank : nat;
  pivotCol : list nat
}.

(** The elimination loop over the columns still to visit,
    [for (col; col < numButtons && rank < numLights; col++)]. *)
Fixpoint gaussLoop (numLights : nat) (cols : list nat) (st : Elimination)
    : Elimination :=
  match cols with
  | [] => st
  | col :: rest =>
      if (rank st <? numLights)%nat then
        match findPivotRow (drop (rank st) (matrix st)) (rank st) col with
        | None => gaussLoop numLights rest st
        | Some pivotRow =>
            let swapped := swapRows (matrix st) (rank st) pivotRow in
            gaussLoop numLights rest
              (mkElimination (eliminate swapped (rank st) col)
                 (S (rank st)) (pivotCol st ++ [col]))
        end
      else st
  end.

Definition gaussianElimination (machine : Machine) : Elimination :=
  let numLights := length (target machine) in
  let numButtons := length (buttons machine) in
  gaussLoop numLights (seq 0 numButtons)
    (mkElimination (buildMatrix machine) 0 []).

(** [for (row = rank; row < numLights; row++) if (matrix[row][numButtons])]:
    some row below the pivots asks for a 1. *)
Definition inconsistent (numButtons : nat) (st : Elimination) : bool :=
  existsb (fun r => truthy r numButtons) (drop (rank st) (matrix st)).

(** The columns that are no pivot. *)
Definition freeVarsOf (numButtons : nat) (pivotCol : list nat) : list nat :=
  filter (fun col => col ∉ pivotCol) (seq 0 numButtons).

(** [solution[freeVars[i]] = (mask & (1 << i)) !== 0] for [i] from the given
    index on. *)
Fixpoint assignFree (freeVars : list nat) (i : nat) (mask : Z)
    (solution : list bool) : list bool :=
  match freeVars with
  | [] => solution
  | fv :: rest =>
      assignFree rest (S i) mask
        (<[fv := negb (JS.band mask (JS.shl 1 (Z.of_nat i)) =? 0)]> solution)
  end.

(** [for (c = col + 1; c < numButtons; c++)
       if (matrix[r][c] && solution[c]) value = !value] *)
Definition pivotValue (row solution : list bool) (col numButtons : nat)
    : bool :=
  foldl (fun value c =>
           if truthy row c && truthy solution c then negb value else value)
        (truthy row numButtons)
        (seq (S col) (numButtons - S col)).

(** [for (r = rank - 1; r >= 0; r--)]: [r] counts the rows still to do.
    Row [r - 1] and its pivot column exist whenever [r <= rank]. *)
Fixpoint backSubstitute (matrix : list (list bool)) (pivotCol : list nat)
    (numButtons : nat) (r : nat) (solution : list bool) : list bool :=
  match r with
  | O => solution
  | S r' =>
      match pivotCol !! r', matrix !! r' with
      | Some col, Some row =>
          backSubstitute matrix pivotCol numButtons r'
            (<[col := pivotValue row solution col numButtons]> solution)
      | _, _ => solution
      end
  end.

(** The assignment built for one [mask] of the free variables. *)
Definition solutionFor (numButtons : nat) (st : Elimination)
    (freeVars : list nat) (mask : Z) : list bool :=
  backSubstitute (matrix st) (pivotCol st) numButtons (rank st)
    (assignFree freeVars 0 mask (replicate numButtons false)).

(** [solution.filter(x => x).length] *)
Definition weight (solution : list bool) : Z :=
  Z.of_nat (length (filter (fun x => x = true) solution)).

(** One turn of the loop over the masks. *)
Definition tryMask (numButtons : nat) (st : Elimination)
    (freeVars : list nat) (minPresses : JS.num) (mask : Z) : JS.num :=
  let presses := JS.Int (weight (solutionFor numButtons st freeVars mask)) in
  if JS.ltb presses minPresses then presses else minPresses.

Definition solveMachineLights (machine : Machine) : JS.num :=
  let numButtons := length (buttons machine) in
  let st := gaussianElimination machine in
  if inconsistent numButtons st then JS.Int (-1)
  else
    let freeVars := freeVarsOf numButtons (pivotCol st) in
    foldl (tryMask numButtons st freeVars) JS.Infinity
      (seqZ 0 (JS.shl 1 (Z.of_nat (length freeVars)))).

(** [solvePart1] *)
Fixpoint solvePart1From (machines : list Machine) (total : JS.num)
    : outcome JS.num :=
  match machines with
  | [] => Return total
  | machine :: rest =>
      match solveMachineLights machine with
      | JS.Int (-1) => Throw "No solution found for a machine (lights)"
      | presses => solvePart1From rest (JS.add total presses)
      end
  end.

Definition solvePart1 (machines : list Machine) : outcome JS.num :=
  solvePart1From machines (JS.Int 0).

(** ** Part 2: the parity reduction solver *)

Record Result : Type := mkResult {
  cost : option Z;
  solution : option (list Z)
}.

Definition nullResult : Result := mkResult None None.

(** [((mask >> b) & 1) === 1] *)
Definition bitSet (mask : Z) (b : nat) : bool :=
  JS.band (JS.shr mask (Z.of_nat b)) 1 =? 1.

(** The inner loop shared by [computeParity] and [applyPattern]:
    [for (b = 0; b < buttons.length; b++) if (bit b && includes j) count++],
    started at button index [b] with the buttons from there on. *)
Fixpoint countFrom (bs : list (list Z)) (b : nat) (mask : Z) (j : Z)
    (count : Z) : Z :=
  match bs with
  | [] => count
  | button :: rest =>
      countFrom rest (S b) mask j
        (if bitSet mask b && includes button j then count + 1 else count)
  end.

Definition countTouching (machine : Machine) (mask : Z) (j : nat) : Z :=
  countFrom (buttons machine) 0 mask (Z.of_nat j) 0.

(** [computeParity]: the loop over the counters [j = from, from+1, ...],
    [n] of them. *)
Fixpoint computeParityFrom (machine : Machine) (buttonMask : Z)
    (from n : nat) (parity : Z) : Z :=
  match n with
  | O => parity
  | S n' =>
      let sum := countTouching machine buttonMask from in
      computeParityFrom machine buttonMask (S from) n'
        (if JS.band sum 1 =? 1
         then JS.bor parity (JS.shl 1 (Z.of_nat from)) else parity)
  end.

Definition computeParity (buttonMask : Z) (machine : Machine)
    (numCounters : nat) : Z :=
  computeParityFrom machine buttonMask 0 numCounters 0.

(** One turn of the loop of [precomputeParityPatterns]. *)
Definition addPattern (machine : Machine) (numCounters : nat)
    (patternsByParity : gmap Z (list Z)) (mask : Z) : gmap Z (list Z) :=
  let parity := computeParity mask machine numCounters in
  <[parity := default [] (patternsByParity !! parity) ++ [mask]]>
    patternsByParity.

(** [for (mask = 0; mask < 1 << numButtons; mask++)] *)
Definition precomputeParityPatterns (machine : Machine) : gmap Z (list Z) :=
  let numButtons := length (buttons machine) in
  let numCounters := length (joltage machine) in
  foldl (addPattern machine numCounters) ∅
    (seqZ 0 (JS.shl 1 (Z.of_nat numButtons))).

(** [applyPattern]: the loop over the counters from index [j] on. *)
Fixpoint applyPatternFrom (machine : Machine) (pattern : Z)
    (tgt : list Z) (j : nat) : option (list Z) :=
  match tgt with
  | [] => Some []
  | t :: rest =>
      let count := countTouching machine pattern j in
      let newVal := t - count in
      if (newVal <? 0) || (JS.band newVal 1 =? 1) then None
      else
        match applyPatternFrom machine pattern rest (S j) with
        | None => None
        | Some newTarget => Some (newVal / 2 :: newTarget)
        end
  end.

Definition applyPattern (pattern : Z) (tgt : list Z) (machine : Machine)
    : option (list Z) :=
  applyPatternFrom machine pattern tgt 0.

Definition combineSolution (pattern : Z) (subSolution : list Z) : list Z :=
  imap (fun b value => if bitSet pattern b then value * 2 + 1 else value * 2)
    subSolution.

(** [countBits]: [while (n > 0) { count += n & 1; n >>= 1; }].  After the
    first turn [n] is a 32-bit integer that halves at every turn, so the
    loop has ended within 33 turns ([countBitsLoop_exit]). *)
Fixpoint countBitsLoop (turns : nat) (n count : Z) : Z :=
  match turns with
  | O => count
  | S turns' =>
      if n >? 0 then countBitsLoop turns' (JS.shr n 1) (count + JS.band n 1)
      else count
  end.

Definition countBits (n : Z) : Z := countBitsLoop 33 n 0.

(** The parity mask of a target vector:
    [if ((tgt[i] & 1) === 1) parity |= 1 << i]. *)
Fixpoint targetParityFrom (tgt : list Z) (i : nat) (parity : Z) : Z :=
  match tgt with
  | [] => parity
  | t :: rest =>
      targetParityFrom rest (S i)
        (if JS.band t 1 =? 1
         then JS.bor parity (JS.shl 1 (Z.of_nat i)) else parity)
  end.

Definition targetParity (tgt : list Z) : Z := targetParityFrom tgt 0 0.

(** What one pattern contributes to [bestResult], given the result of the
    recursive call on its new target. *)
Definition better (pattern : Z) (subResult bestResult : Result) : Result :=
  match cost subResult, solution subResult with
  | Some subCost, Some subSolution =>
      let patternCost := countBits pattern in
      let totalCost := patternCost + 2 * subCost in
      if match cost bestResult with
         | None => true
         | Some bestCost => totalCost <? bestCost
         end
      then mkResult (Some totalCost)
             (Some (combineSolution pattern subSolution))
      else bestResult
  | _, _ => bestResult
  end.

Section Reduction.

(** The closure of [solveMachineJoltage]: [solveRecursive] sees the
    machine and the table of patterns computed once before it. *)
Variable machine : Machine.
Variable parityPatterns : gmap Z (list Z).

(** The loop [for (const pattern of patterns)] of [solveRecursive]; [rec]
    is the recursive call, which threads the memo table and is [None]
    when the recursion is deeper than the fuel allows. *)
Fixpoint tryPatterns
    (rec : gmap string Result -> list Z ->
           option (Result * gmap string Result))
    (patterns : list Z) (tgt : list Z) (bestResult : Result)
    (memo : gmap string Result) : option (Result * gmap string Result) :=
  match patterns with
  | [] => Some (bestResult, memo)
  | pattern :: rest =>
      match applyPattern pattern tgt machine with
      | None => tryPatterns rec rest tgt bestResult memo
      | Some newTarget =>
          match rec memo newTarget with
          | None => None
          | Some (subResult, memo') =>
              tryPatterns rec rest tgt
                (better pattern subResult bestResult) memo'
          end
      end
  end.

(** [solveRecursive] with its memo table passed through.  [fuel] bounds
    the depth of the recursion: the call itself takes one unit, and the
    answer is [None] only when the fuel is used up. *)
Fixpoint solveRecursive (fuel : nat) (memo : gmap string Result)
    (tgt : list Z) : option (Result * gmap string Result) :=
  match fuel with
  | O => None
  | S fuel' =>
      if forallb (fun v => v =? 0) tgt
      then Some (mkResult (Some 0) (Some (replicate (length (buttons machine)) 0)), memo)
      else
        let key := JS.join tgt in
        match memo !! key with
        | Some cached => Some (cached, memo)
        | None =>
            let parity := targetParity tgt in
            match parityPatterns !! parity with
            | None | Some [] =>
                Some (nullResult, <[key := nullResult]> memo)
            | Some patterns =>
                match tryPatterns (solveRecursive fuel') patterns tgt
                        nullResult memo with
                | None => None
                | Some (bestResult, memo') =>
                    Some (bestResult, <[key := bestResult]> memo')
                end
            end
        end
  end.

(** The same recursion without any memo table. *)
Fixpoint tryPatternsPlain (rec : list Z -> option Result)
    (patterns : list Z) (tgt : list Z) (bestResult : Result)
    : option Result :=
  match patterns with
  | [] => Some bestResult
  | pattern :: rest =>
      match applyPattern pattern tgt machine with
      | None => tryPatternsPlain rec rest tgt bestResult
      | Some newTarget =>
          match rec newTarget with
          | None => None
          | Some subResult =>
              tryPatternsPlain rec rest tgt
                (better pattern subResult bestResult)
          end
      end
  end.

Fixpoint solveRecursivePlain (fuel : nat) (tgt : list Z) : option Result :=
  match fuel with
  | O => None
  | S fuel' =>
      if forallb (fun v => v =? 0) tgt
      then Some (mkResult (Some 0) (Some (replicate (length (buttons machine)) 0)))
      else
        match parityPatterns !! targetParity tgt with
        | None | Some [] => Some nullResult
        | Some patterns =>
            tryPatternsPlain (solveRecursivePlain fuel') patterns tgt
              nullResult
        end
  end.

End Reduction.

(** [solveMachineJoltage]: [None] when the fuel is used up, otherwise the
    press vector or [null]. *)
Definition solveMachineJoltage (machine : Machine) (fuel : nat)
    : option (option (list Z)) :=
  let tgt := joltage machine in
  let numCounters := length tgt in
  let numButtons := length (buttons machine) in
  if (numCounters =? 0)%nat then Some (Some (replicate numButtons 0))
  else
    let parityPatterns := precomputeParityPatterns machine in
    match solveRecursive machine parityPatterns fuel ∅ tgt with
    | None => None
    | Some (result, _) => Some (solution result)
    end.

(** [solution.reduce((a, b) => a + b, 0)] *)
Definition sumPresses (solution : list Z) : Z := foldl Z.add 0 solution.

(** [solvePart2]; the outer [option] is [None] when the fuel given to each
    machine's recursion is used up. *)
Fixpoint solvePart2From (fuel : nat) (machines : list Machine) (total : Z)
    : option (outcome Z) :=
  match machines with
  | [] => Some (Return total)
  | machine :: rest =>
      match solveMachineJoltage machine fuel with
      | None => None
      | Some None => Some (Throw "No solution found for a machine (joltage)")
      | Some (Some solution) =>
          solvePart2From fuel rest (total + sumPresses solution)
      end
  end.

Definition solvePart2 (fuel : nat) (machines : list Machine)
    : option (outcome Z) :=
  solvePart2From fuel machines 0.

(** ** The machines of the source's test *)

Definition fixture1 : Machine :=
  mkMachine [false; true; true; false]
    [[3]; [1; 3]; [2]; [2; 3]; [0; 2]; [0; 1]] [3; 5; 4; 7].
Definition fixture2 : Machine :=
  mkMachine [false; false; false; true; false]
    [[0; 2; 3; 4]; [2; 3]; [0; 4]; [0; 1; 2]; [1; 2; 3; 4]] [7; 5; 12; 7; 2].
Definition fixture3 : Machine :=
  mkMachine [false; true; true; true; false; true]
    [[0; 1; 2; 3; 4]; [0; 3; 4]; [0; 1; 2; 4; 5]; [1; 2]]
    [10; 11; 11; 5; 10; 5].

(** ** What the toggle problem asks for *)

(** The state of light [i] after pressing the buttons marked in [pressed]
    once each: the XOR, over the pressed buttons, of whether the button
    toggles [i]. *)
Fixpoint toggled (bs : list (list Z)) (pressed : list bool) (i : Z) : bool :=
  match bs, pressed with
  | button :: bs', x :: pressed' =>
      xorb (x && includes button i) (toggled bs' pressed' i)
  | _, _ => false
  end.

(** [pressed] marks a subset of the buttons whose toggle-sets XOR to the
    target light pattern. *)
Definition lightsMatch (machine : Machine) (pressed : list bool) : Prop :=
  length pressed = length (buttons machine) /\
  forall (i : nat) (t : bool),
    target machine !! i = Some t ->
    toggled (buttons machine) pressed (Z.of_nat i) = t.

(** The XOR of [f c] for the [n] indices [c] from [from] on. *)
Fixpoint xorRange (f : nat -> bool) (from n : nat) : bool :=
  match n with
  | O => false
  | S n' => xorb (f from) (xorRange f (S from) n')
  end.

(** A row of the augmented matrix holds for an assignment [x] of the
    [numButtons] variables. *)
Definition rowHolds (numButtons : nat) (row x : list bool) : Prop :=
  xorRange (fun c => truthy row c && truthy x c) 0 numButtons
  = truthy row numButtons.

Definition systemHolds (numButtons : nat) (matrix : list (list bool))
    (x : list bool) : Prop :=
  Forall (fun row => rowHolds numButtons row x) matrix.

(** The state of the elimination is in echelon form for a system [m0]:
    every pivot row has its first 1 in its pivot column, the pivot columns
    increase, the rows below the pivots have no 1 among the coefficients,
    and the assignments that satisfy the matrix are those of [m0]. *)
Record Echelon (numButtons : nat) (m0 : list (list bool))
    (upto : nat) (st : Elimination) : Prop := mkEchelon {
  ech_rows : Forall (fun row => length row = S numButtons) (matrix st);
  ech_length : length (matrix st) = length m0;
  ech_rank : rank st = length (pivotCol st) /\
             (rank st <= length (matrix st))%nat;
  ech_pivot : forall (k pc : nat),
      pivotCol st !! k = Some pc ->
      (pc < upto)%nat /\
      exists row, matrix st !! k = Some row /\ truthy row pc = true /\
                  forall c, (c < pc)%nat -> truthy row c = false;
  ech_increasing : forall (k k' pc pc' : nat),
      (k < k')%nat -> pivotCol st !! k = Some pc ->
      pivotCol st !! k' = Some pc' -> (pc < pc')%nat;
  ech_below : forall (k : nat) row,
      (rank st <= k)%nat -> matrix st !! k = Some row ->
      forall c, (c < upto)%nat -> truthy row c = false;
  ech_same : forall x, length x = numButtons ->
      (systemHolds numButtons (matrix st) x <-> systemHolds numButtons m0 x)
}.

(** The mask of the free variables that selects the values [bits]. *)
Fixpoint maskOfBits (bits : list bool) : Z :=
  match bits with
  | [] => 0
  | b :: rest => Z.b2z b + 2 * maskOfBits rest
  end.

(** 32 buttons on one light, which must end on. *)
Definition machine32 : Machine := mkMachine [true] (replicate 32 [0]) [].

(** ** What the reduction problem asks for *)

(** The value counter [j] reaches when button [b] is pressed [presses[b]]
    times: the sum of [presses[b]] over the buttons that touch [j]. *)
Fixpoint counterSum (bs : list (list Z)) (presses : list Z) (j : Z) : Z :=
  match bs, presses with
  | button :: bs', p :: presses' =>
      (if includes button j then p else 0) + counterSum bs' presses' j
  | _, _ => 0
  end.

(** [presses] is a vector of non-negative press counts, one per button,
    that brings every counter exactly to its target. *)
Definition reaches (machine : Machine) (presses : list Z) (tgt : list Z)
    : Prop :=
  length presses = length (buttons machine) /\
  Forall (fun p => 0 <= p) presses /\
  forall (j : nat) (t : Z),
    tgt !! j = Some t -> counterSum (buttons machine) presses (Z.of_nat j) = t.

(** The largest entry of a vector (0 for an empty one or one without a
    positive entry). *)
Definition maxEntry (tgt : list Z) : Z := foldr Z.max 0 tgt.

(** Fuel that is enough for [solveRecursive] on [tgt]: two more than the
    binary logarithm of the largest target. *)
Definition depthBound (tgt : list Z) : nat :=
  S (S (Z.to_nat (Z.log2 (maxEntry tgt)))).

(** How many of the buttons [from, from + n) a pattern selects. *)
Fixpoint selected (pattern : Z) (from n : nat) : Z :=
  match n with
  | O => 0
  | S n' => (if bitSet pattern from then 1 else 0) + selected pattern (S from) n'
  end.

(** The table of [precomputeParityPatterns] is sound for its machine when
    the bit count of each of its patterns is the number of buttons it
    selects. *)
Definition exactPatterns (machine : Machine) : Prop :=
  forall p, p ∈ seqZ 0 (JS.shl 1 (Z.of_nat (length (buttons machine)))) ->
            countBits p = selected p 0 (length (buttons machine)).

(** The invariant of a [Result]. *)
Definition resultInvariant (r : Result) : Prop :=
  match cost r, solution r with
  | None, None => True
  | Some c, Some s => c = sumPresses s /\ Forall (fun p => 0 <= p) s
  | _, _ => False
  end.

(** A non-null result holds a press vector that reaches the target, and
    the two fields of a result are null together. *)
Definition soundResult (machine : Machine) (tgt : list Z) (r : Result)
    : Prop :=
  match cost r, solution r with
  | None, None => True
  | Some c, Some s => reaches machine s tgt
  | _, _ => False
  end.

(** A string without a comma. *)
Fixpoint commaFree (s : string) : Prop :=
  match s with
  | EmptyString => True
  | String c rest => c <> ","%char /\ commaFree rest
  end.

(** The outcome of the recursion without memo table, whatever fuel it is
    given beyond some depth. *)
Definition plainResult (machine : Machine) (table : gmap Z (list Z))
    (tgt : list Z) (r : Result) : Prop :=
  exists depth, forall fuel, (depth <= fuel)%nat ->
    solveRecursivePlain machine table fuel tgt = Some r.

(** Every entry of a memo table is the result of the plain recursion on
    the target vector its key was made from. *)
Definition memoSound (machine : Machine) (table : gmap Z (list Z))
    (memo : gmap string Result) : Prop :=
  forall key r, memo !! key = Some r ->
    exists tgt, key = JS.join tgt /\ plainResult machine table tgt r.

(** The pattern of the buttons pressed an odd number of times by a press
    vector: bit [b] is the lowest bit of [presses[b]]. *)
Fixpoint parityMask (presses : list Z) : Z :=
  match presses with
  | [] => 0
  | p :: rest => p mod 2 + 2 * parityMask rest
  end.

(** ** Machines used as examples *)

(** 31 buttons that all touch counter 0, which must reach 1. *)
Definition machine31 : Machine :=
  mkMachine [true] (replicate 31 [0]) [1].

(** 33 buttons: the first and the last touch counter 0, the others touch
    counter 1. *)
Definition machine33 : Machine :=
  mkMachine [false; false] ([0] :: replicate 31 [1] ++ [[0]]) [2; 0].

(** Counter 0 must reach 4 and no button touches it. *)
Definition untouchedMachine : Machine :=
  mkMachine [false; true] [[1]] [4; 2].

(** ** What the aggregators add up *)

(** The sum of a list of costs. *)
Definition sumCosts (costs : list Z) : Z := foldl Z.add 0 costs.

(** [n] is the minimal cost of the toggle problem of a machine: the
    smallest number of buttons whose toggle-sets XOR to the target. *)
Definition minimalLights (machine : Machine) (n : Z) : Prop :=
  exists x, lightsMatch machine x /\ weight x = n /\
            forall y, lightsMatch machine y -> n <= weight y.

(** [n] is the minimal cost of the reduction problem of a machine: the
    smallest total of presses that reaches the joltage. *)
Definition minimalJoltage (machine : Machine) (n : Z) : Prop :=
  exists p, reaches machine p (joltage machine) /\ sumPresses p = n /\
            forall q, reaches machine q (joltage machine) ->
                      n <= sumPresses q.

(** The limits within which the solvers are exact, and fuel for the
    recursion of the reduction solver. *)
Definition withinLimits (fuel : nat) (machine : Machine) : Prop :=
  (length (buttons machine) <= 30)%nat /\
  (depthBound (joltage machine) <= fuel)%nat.

(** Two one-light machines: the first cannot be solved by either solver,
    the second needs no press. *)
Definition stuckMachine : Machine := mkMachine [true] [] [1].
Definition idleMachine : Machine := mkMachine [false] [] [0].

(** The machines of the source's [test]. *)
Definition fixture : list Machine := [fixture1; fixture2; fixture3].

(** ** Shapes used by the further properties *)

(** Every pivot column of the eliminated matrix holds a single 1, the one
    of its pivot row. *)
Definition pivotColumnsClear (st : Elimination) : Prop :=
  forall (k pc k' : nat) row,
    pivotCol st !! k = Some pc -> k' <> k ->
    matrix st !! k' = Some row -> truthy row pc = false.

(** What [parseLine] guarantees of a machine it returns: at least one
    light, buttons that are non-empty lists of non-negative indices, and
    non-negative joltages. *)
Definition wellParsed (machine : Machine) : Prop :=
  target machine <> [] /\
  Forall (fun button => button <> [] /\ Forall (fun i => 0 <= i) button)
    (buttons machine) /\
  Forall (fun v => 0 <= v) (joltage machine).

(** ** The reduction solver in the arithmetic of the source

    The source adds, subtracts and doubles Numbers, which are binary64
    floating-point values: on integers the result is the exact result
    rounded to 53 significant bits, a tie going to the even significand.
    Module [Binary64] embeds the functions of the reduction solver with
    this arithmetic.  The definitions above compute over the integers,
    which is the same as long as no value goes beyond 2^53
    and differs beyond it (see [bigMachine]).  The counts of buttons and of
    bits ([count++], [sum++], [count += n & 1]) stay below the length of
    an array and are exact.  Overflow to [Infinity], from 2^1024 on, is
    not modelled. *)

Module Binary64.

(** The binary64 value nearest to the integer [z]. *)
Definition round (z : Z) : Z :=
  let a := Z.abs z in
  if a <=? 2 ^ 53 then z
  else
    let e := Z.log2 a - 52 in
    let q := Z.shiftr a e in
    let r := Z.land a (Z.ones e) in
    let half := Z.shiftl 1 (e - 1) in
    let q' := if (half <? r) || ((r =? half) && Z.odd q) then q + 1 else q in
    Z.sgn z * Z.shiftl q' e.

(** [a + b], [a - b] and [a * b] on Numbers that hold integers. *)
Definition add (a b : Z) : Z := round (a + b).
Definition sub (a b : Z) : Z := round (a - b).
Definition mul (a b : Z) : Z := round (a * b).

(** [applyPattern]: the loop over the counters from index [j] on.  The
    halving [newVal / 2] is exact: [newVal] is even when it is reached. *)
Fixpoint applyPatternFrom (machine : Machine) (pattern : Z)
    (tgt : list Z) (j : nat) : option (list Z) :=
  match tgt with
  | [] => Some []
  | t :: rest =>
      let count := countTouching machine pattern j in
      let newVal := sub t count in
      if (newVal <? 0) || (JS.band newVal 1 =? 1) then None
      else
        match applyPatternFrom machine pattern rest (S j) with
        | None => None
        | Some newTarget => Some (newVal / 2 :: newTarget)
        end
  end.

Definition applyPattern (pattern : Z) (tgt : list Z) (machine : Machine)
    : option (list Z) :=
  applyPatternFrom machine pattern tgt 0.

Definition combineSolution (pattern : Z) (subSolution : list Z) : list Z :=
  imap (fun b value =>
          if bitSet pattern b then add (mul value 2) 1 else mul value 2)
    subSolution.

(** What one pattern contributes to [bestResult], given the result of the
    recursive call on its new target. *)
Definition better (pattern : Z) (subResult bestResult : Result) : Result :=
  match cost subResult, solution subResult with
  | Some subCost, Some subSolution =>
      let patternCost := countBits pattern in
      let totalCost := add patternCost (mul 2 subCost) in
      if match cost bestResult with
         | None => true
         | Some bestCost => totalCost <? bestCost
         end
      then mkResult (Some totalCost)
             (Some (combineSolution pattern subSolution))
      else bestResult
  | _, _ => bestResult
  end.

Section Closure.

Variable machine : Machine.
Variable parityPatterns : gmap Z (list Z).

(** The loop [for (const pattern of patterns)] of [solveRecursive]. *)
Fixpoint tryPatterns
    (rec : gmap string Result -> list Z ->
           option (Result * gmap string Result))
    (patterns : list Z) (tgt : list Z) (bestResult : Result)
    (memo : gmap string Result) : option (Result * gmap string Result) :=
  match patterns with
  | [] => Some (bestResult, memo)
  | pattern :: rest =>
      match applyPattern pattern tgt machine with
      | None => tryPatterns rec rest tgt bestResult memo
      | Some newTarget =>
          match rec memo newTarget with
          | None => None
          | Some (subResult, memo') =>
              tryPatterns rec rest tgt
                (better pattern subResult bestResult) memo'
          end
      end
  end.

(** [solveRecursive] with its memo table passed through; [fuel] bounds the
    depth of the recursion. *)
Fixpoint solveRecursive (fuel : nat) (memo : gmap string Result)
    (tgt : list Z) : option (Result * gmap string Result) :=
  match fuel with
  | O => None
  | S fuel' =>
      if forallb (fun v => v =? 0) tgt
      then Some (mkResult (Some 0) (Some (replicate (length (buttons machine)) 0)), memo)
      else
        let key := JS.join tgt in
        match memo !! key with
        | Some cached => Some (cached, memo)
        | None =>
            let parity := targetParity tgt in
            match parityPatterns !! parity with
            | None | Some [] =>
                Some (nullResult, <[key := nullResult]> memo)
            | Some patterns =>
                match tryPatterns (solveRecursive fuel') patterns tgt
                        nullResult memo with
                | None => None
                | Some (bestResult, memo') =>
                    Some (bestResult, <[key := bestResult]> memo')
                end
            end
        end
  end.

End Closure.

(** [solveMachineJoltage]: [None] when the fuel is used up, otherwise the
    press vector or [null]. *)
Definition solveMachineJoltage (machine : Machine) (fuel : nat)
    : option (option (list Z)) :=
  let tgt := joltage machine in
  let numCounters := length tgt in
  let numButtons := length (buttons machine) in
  if (numCounters =? 0)%nat then Some (Some (replicate numButtons 0))
  else
    let parityPatterns := precomputeParityPatterns machine in
    match solveRecursive machine parityPatterns fuel ∅ tgt with
    | None => None
    | Some (result, _) => Some (solution result)
    end.

(** [solution.reduce((a, b) => a + b, 0)] *)
Definition sumPresses (solution : list Z) : Z := foldl add 0 solution.

(** [solvePart2], with [total += ...] a binary64 addition. *)
Fixpoint solvePart2From (fuel : nat) (machines : list Machine) (total : Z)
    : option (outcome Z) :=
  match machines with
  | [] => Some (Return total)
  | machine :: rest =>
      match solveMachineJoltage machine fuel with
      | None => None
      | Some None => Some (Throw "No solution found for a machine (joltage)")
      | Some (Some solution) =>
          solvePart2From fuel rest (add total (sumPresses solution))
      end
  end.

Definition solvePart2 (fuel : nat) (machines : list Machine)
    : option (outcome Z) :=
  solvePart2From fuel machines 0.

End Binary64.

(** The largest joltage for which the reduction solver is proved to
    compute without rounding: costs of up to 33 presses per level then
    stay below 2^53. *)
Definition safeJoltage (tgt : list Z) : Prop := maxEntry tgt <= 2 ^ 46.

(** The bound on the entries of the results for a target vector: no press
    count exceeds twice the largest target less one. *)
Definition pressBound (tgt : list Z) : Z := Z.max 0 (2 * maxEntry tgt - 1).

(** A result for a target vector is null, or holds presses within
    [pressBound] that reach the target. *)
Definition reachedResult (machine : Machine) (tgt : list Z) (r : Result)
    : Prop :=
  match solution r with
  | None => True
  | Some s => reaches machine s tgt /\
              Forall (fun v => v <= pressBound tgt) s
  end.

(** Every entry of a memo table is such a result for the target vector
    its key was made from. *)
Definition memoReached (machine : Machine) (memo : gmap string Result)
    : Prop :=
  forall key r, memo !! key = Some r ->
    exists tgt, key = JS.join tgt /\ reachedResult machine tgt r.

(** Two buttons and two counters, the first of which must reach
    2^53 + 2. *)
Definition bigMachine : Machine :=
  mkMachine [false; false] [[0; 1]; [0]] [2 ^ 53 + 2; 1].

(** * Proofs *)

(** ** Facts about the 32-bit operators *)

Lemma toInt32_id z : - 2 ^ 31 <= z < 2 ^ 31 -> JS.toInt32 z = z.
Proof.
  intros Hz. unfold JS.toInt32.
  rewrite Z.mod_small by lia. lia.
Qed.

Lemma toInt32_range z : - 2 ^ 31 <= JS.toInt32 z < 2 ^ 31.
Proof.
  unfold JS.toInt32.
  pose proof (Z.mod_pos_bound (z + 2 ^ 31) (2 ^ 32) ltac:(lia)). lia.
Qed.

Lemma toInt32_parity z : JS.toInt32 z mod 2 = z mod 2.
Proof.
  unfold JS.toInt32.
  rewrite (Z.mod_eq (z + 2 ^ 31) (2 ^ 32)) by lia.
  replace (z + 2 ^ 31 - 2 ^ 32 * ((z + 2 ^ 31) / 2 ^ 32) - 2 ^ 31)
    with (z + (- 2 ^ 31 * ((z + 2 ^ 31) / 2 ^ 32)) * 2) by lia.
  apply Z.mod_add. lia.
Qed.

Lemma band_1 v : JS.band v 1 = v mod 2.
Proof.
  unfold JS.band. rewrite (toInt32_id 1) by lia.
  change 1 with (Z.ones 1) at 1. rewrite Z.land_ones by lia.
  change (2 ^ 1) with 2. apply toInt32_parity.
Qed.

Lemma band_1_odd v : (JS.band v 1 =? 1) = Z.odd v.
Proof.
  rewrite band_1, Zmod_odd. destruct (Z.odd v); reflexivity.
Qed.

Lemma shr_small n b :
  0 <= n < 2 ^ 31 -> 0 <= b < 32 -> JS.shr n b = Z.shiftr n b.
Proof.
  intros Hn Hb. unfold JS.shr.
  rewrite toInt32_id by lia. rewrite Z.mod_small by lia. reflexivity.
Qed.

Lemma bitSet_testbit mask b :
  0 <= mask < 2 ^ 31 -> (b < 32)%nat -> bitSet mask b = Z.testbit mask (Z.of_nat b).
Proof.
  intros Hm Hb. unfold bitSet.
  rewrite band_1_odd, shr_small by lia.
  rewrite <- Z.bit0_odd. rewrite Z.shiftr_spec by lia. f_equal; lia.
Qed.

Lemma shl_1_small (b : nat) : (b <= 30)%nat -> JS.shl 1 (Z.of_nat b) = 2 ^ Z.of_nat b.
Proof.
  intros Hb. unfold JS.shl. rewrite (toInt32_id 1) by lia.
  rewrite Z.mod_small by lia. rewrite Z.shiftl_1_l.
  apply toInt32_id.
  assert (2 ^ Z.of_nat b <= 2 ^ 30) by (apply Z.pow_le_mono_r; lia).
  pose proof (Z.pow_pos_nonneg 2 (Z.of_nat b)). lia.
Qed.

Lemma shl_1_31 : JS.shl 1 (Z.of_nat 31) = - 2 ^ 31.
Proof. vm_compute. reflexivity. Qed.

Lemma shl_1_32 : JS.shl 1 (Z.of_nat 32) = 1.
Proof. vm_compute. reflexivity. Qed.

(** ** Rows over GF(2) *)

Lemma truthy_lookup (l : list bool) i b : l !! i = Some b -> truthy l i = b.
Proof. unfold truthy. intros ->. reflexivity. Qed.

Lemma truthy_ge (l : list bool) i : (length l <= i)%nat -> truthy l i = false.
Proof. unfold truthy. intros H. rewrite lookup_ge_None_2 by exact H. reflexivity. Qed.

Lemma truthy_insert (l : list bool) i j v :
  (i < length l)%nat ->
  truthy (<[i := v]> l) j = if decide (i = j) then v else truthy l j.
Proof.
  intros Hi. unfold truthy. destruct (decide (i = j)) as [<-|Hne].
  - rewrite list_lookup_insert_eq by exact Hi. reflexivity.
  - rewrite list_lookup_insert_ne by exact Hne. reflexivity.
Qed.

Lemma truthy_eq (x y : list bool) :
  length x = length y -> (forall c, truthy x c = truthy y c) -> x = y.
Proof.
  intros Hlen H. apply list_eq. intros c.
  destruct (x !! c) as [a|] eqn:Hx, (y !! c) as [b|] eqn:Hy.
  - specialize (H c). unfold truthy in H. rewrite Hx, Hy in H. simpl in H.
    congruence.
  - apply lookup_lt_Some in Hx. apply lookup_ge_None in Hy. lia.
  - apply lookup_ge_None in Hx. apply lookup_lt_Some in Hy. lia.
  - reflexivity.
Qed.

Lemma xorRange_ext f g : forall n from,
  (forall c, (from <= c < from + n)%nat -> f c = g c) ->
  xorRange f from n = xorRange g from n.
Proof.
  induction n as [|n IH]; intros from H; simpl; [reflexivity|].
  rewrite (H from) by lia. f_equal. apply IH. intros c Hc. apply H. lia.
Qed.

Lemma xorRange_false f : forall n from,
  (forall c, (from <= c < from + n)%nat -> f c = false) ->
  xorRange f from n = false.
Proof.
  induction n as [|n IH]; intros from H; simpl; [reflexivity|].
  rewrite (H from) by lia. rewrite IH; [reflexivity|].
  intros c Hc. apply H. lia.
Qed.

Lemma xorRange_app f : forall n m from,
  xorRange f from (n + m) = xorb (xorRange f from n) (xorRange f (from + n) m).
Proof.
  induction n as [|n IH]; intros m from; simpl.
  - rewrite Nat.add_0_r. reflexivity.
  - rewrite IH. replace (S from + n)%nat with (from + S n)%nat by lia.
    symmetry. apply xorb_assoc_reverse.
Qed.

Lemma xorRange_xor f g : forall n from,
  xorRange (fun c => xorb (f c) (g c)) from n
  = xorb (xorRange f from n) (xorRange g from n).
Proof.
  induction n as [|n IH]; intros from; simpl; [reflexivity|].
  rewrite IH. destruct (f from), (g from), (xorRange f (S from) n),
    (xorRange g (S from) n); reflexivity.
Qed.

Lemma xorRange_shift f : forall n from,
  xorRange f (S from) n = xorRange (fun c => f (S c)) from n.
Proof.
  induction n as [|n IH]; intros from; simpl; [reflexivity|].
  rewrite IH. reflexivity.
Qed.

(** Splitting the sum of a row at a column. *)
Lemma xorRange_split f (n col : nat) :
  (col < n)%nat ->
  xorRange f 0 n
  = xorb (xorRange f 0 col) (xorb (f col) (xorRange f (S col) (n - S col))).
Proof.
  intros Hcol. replace n with (col + S (n - S col))%nat at 1 by lia.
  rewrite xorRange_app. simpl. reflexivity.
Qed.

Lemma truthy_xorRow (r p : list bool) c :
  (c < length r)%nat -> (c < length p)%nat ->
  truthy (xorRow r p) c = xorb (truthy r c) (truthy p c).
Proof.
  intros Hr Hp. unfold truthy, xorRow.
  destruct (lookup_lt_is_Some_2 r c Hr) as [a Ha].
  destruct (lookup_lt_is_Some_2 p c Hp) as [b Hb].
  rewrite lookup_zip_with, Ha, Hb. reflexivity.
Qed.

Lemma length_xorRow (r p : list bool) n :
  length r = n -> length p = n -> length (xorRow r p) = n.
Proof. intros Hr Hp. unfold xorRow. rewrite length_zip_with. lia. Qed.

Lemma rowHolds_xorRow B r p x :
  length r = S B -> length p = S B -> rowHolds B p x ->
  (rowHolds B (xorRow r p) x <-> rowHolds B r x).
Proof.
  unfold rowHolds. intros Hr Hp Hpx.
  rewrite truthy_xorRow by lia.
  rewrite (xorRange_ext _ (fun c => xorb (truthy r c && truthy x c)
                                         (truthy p c && truthy x c))).
  2:{ intros c Hc. rewrite truthy_xorRow by lia.
      destruct (truthy r c), (truthy p c), (truthy x c); reflexivity. }
  rewrite xorRange_xor, Hpx.
  destruct (xorRange (fun c => truthy r c && truthy x c) 0 B),
    (truthy r B), (truthy p B); simpl; split; congruence.
Qed.

(** The rows built from the machine say what the buttons toggle. *)
Lemma toggled_xorRange i : forall bs x,
  length x = length bs ->
  toggled bs x i
  = xorRange (fun c => truthy (map (fun button => includes button i) bs) c
                       && truthy x c) 0 (length bs).
Proof.
  induction bs as [|button bs IH]; intros x Hlen.
  - destruct x; reflexivity.
  - destruct x as [|v x]; [discriminate|]. injection Hlen as Hlen.
    simpl. rewrite xorRange_shift, (IH x Hlen).
    unfold truthy at 1 2. simpl. rewrite andb_comm. reflexivity.
Qed.

(** ** The augmented matrix *)

Lemma systemHolds_lookup B (M : list (list bool)) x :
  systemHolds B M x <->
  forall (k : nat) r, M !! k = Some r -> rowHolds B r x.
Proof. unfold systemHolds. apply Forall_lookup. Qed.

Lemma buildMatrix_lookup machine (i : nat) :
  buildMatrix machine !! i
  = (fun t => map (fun button => includes button (Z.of_nat i))
                (buttons machine) ++ [t]) <$> target machine !! i.
Proof. unfold buildMatrix. apply list_lookup_imap. Qed.

Lemma truthy_app_l (l1 l2 : list bool) c :
  (c < length l1)%nat -> truthy (l1 ++ l2) c = truthy l1 c.
Proof. intros H. unfold truthy. rewrite lookup_app_l by exact H. reflexivity. Qed.

Lemma truthy_app_last (l : list bool) t : truthy (l ++ [t]) (length l) = t.
Proof.
  unfold truthy. rewrite lookup_app_r by lia.
  rewrite Nat.sub_diag. reflexivity.
Qed.

Lemma buildMatrix_rows machine :
  Forall (fun row => length row = S (length (buttons machine)))
    (buildMatrix machine).
Proof.
  apply Forall_lookup. intros i row Hrow.
  rewrite buildMatrix_lookup in Hrow.
  destruct (target machine !! i) as [t|]; [|discriminate].
  injection Hrow as <-. rewrite length_app, length_map. simpl. lia.
Qed.

Lemma buildMatrix_length machine :
  length (buildMatrix machine) = length (target machine).
Proof. unfold buildMatrix. apply length_imap. Qed.

(** The assignments that satisfy the matrix are the button subsets that
    produce the target. *)
Lemma buildMatrix_holds machine x :
  length x = length (buttons machine) ->
  (systemHolds (length (buttons machine)) (buildMatrix machine) x <->
   lightsMatch machine x).
Proof.
  intros Hlen. rewrite systemHolds_lookup. unfold lightsMatch.
  assert (Hrow : forall (i : nat) t,
    rowHolds (length (buttons machine))
      (map (fun button => includes button (Z.of_nat i)) (buttons machine)
       ++ [t]) x
    <-> toggled (buttons machine) x (Z.of_nat i) = t).
  { intros i t. unfold rowHolds.
    rewrite (toggled_xorRange _ _ _ Hlen).
    rewrite <- (length_map (fun button => includes button (Z.of_nat i))
                  (buttons machine)) at 2.
    rewrite truthy_app_last.
    rewrite (xorRange_ext _
      (fun c => truthy (map (fun button => includes button (Z.of_nat i))
                          (buttons machine)) c && truthy x c)).
    - reflexivity.
    - intros c Hc. rewrite truthy_app_l; [reflexivity|].
      rewrite length_map. lia. }
  split.
  - intros H. split; [exact Hlen|]. intros i t Ht. apply Hrow.
    apply (H i). rewrite buildMatrix_lookup, Ht. reflexivity.
  - intros [_ H] k r Hr. rewrite buildMatrix_lookup in Hr.
    destruct (target machine !! k) as [t|] eqn:Ht; [|discriminate].
    injection Hr as <-. apply Hrow, H, Ht.
Qed.

(** ** The steps of the elimination *)

Lemma findPivotRow_Some col : forall rows start p,
  findPivotRow rows start col = Some p ->
  (start <= p)%nat /\
  exists r, rows !! (p - start)%nat = Some r /\ truthy r col = true.
Proof.
  induction rows as [|r rows IH]; intros start p H; [discriminate|].
  simpl in H. destruct (truthy r col) eqn:Hr.
  - injection H as <-. split; [lia|]. exists r.
    rewrite Nat.sub_diag. auto.
  - destruct (IH _ _ H) as [Hle (r' & Hr' & Ht)]. split; [lia|].
    exists r'. replace (p - start)%nat with (S (p - S start)) by lia. auto.
Qed.

Lemma findPivotRow_None col : forall rows start,
  findPivotRow rows start col = None ->
  forall (k : nat) r, rows !! k = Some r -> truthy r col = false.
Proof.
  induction rows as [|r rows IH]; intros start H k r' Hk; [discriminate|].
  simpl in H. destruct (truthy r col) eqn:Hr; [discriminate|].
  destruct k as [|k]; simpl in Hk.
  - injection Hk as <-. exact Hr.
  - eapply IH; eauto.
Qed.

Lemma swapRows_lookup (M : list (list bool)) i j ri rj (k : nat) :
  M !! i = Some ri -> M !! j = Some rj ->
  swapRows M i j !! k
  = if decide (k = j) then Some ri
    else if decide (k = i) then Some rj else M !! k.
Proof.
  intros Hi Hj. unfold swapRows. rewrite Hi, Hj.
  apply lookup_lt_Some in Hi as Hli. apply lookup_lt_Some in Hj as Hlj.
  destruct (decide (k = j)) as [->|Hkj].
  - rewrite list_lookup_insert_eq; [reflexivity|].
    rewrite length_insert. exact Hlj.
  - rewrite list_lookup_insert_ne by congruence.
    destruct (decide (k = i)) as [->|Hki].
    + rewrite list_lookup_insert_eq by exact Hli. reflexivity.
    + rewrite list_lookup_insert_ne by congruence. reflexivity.
Qed.

Lemma swapRows_length (M : list (list bool)) i j :
  length (swapRows M i j) = length M.
Proof.
  unfold swapRows. destruct (M !! j), (M !! i); try reflexivity.
  rewrite !length_insert. reflexivity.
Qed.

Lemma eliminate_lookup (M : list (list bool)) rk col pivot (k : nat) :
  M !! rk = Some pivot ->
  eliminate M rk col !! k
  = (fun r => if negb (k =? rk)%nat && truthy r col
              then xorRow r pivot else r) <$> M !! k.
Proof.
  intros Hp. unfold eliminate. rewrite Hp. apply list_lookup_imap.
Qed.

Lemma eliminate_length (M : list (list bool)) rk col :
  length (eliminate M rk col) = length M.
Proof.
  unfold eliminate. destruct (M !! rk); [apply length_imap|reflexivity].
Qed.

(** ** The elimination keeps the echelon form *)

Section EliminationStep.

Variable B : nat.
Variable m0 : list (list bool).

Lemma echelon_start :
  Forall (fun row => length row = S B) m0 ->
  Echelon B m0 0 (mkElimination m0 0 []).
Proof.
  intros Hrows. constructor; simpl.
  - exact Hrows.
  - reflexivity.
  - split; [reflexivity|lia].
  - intros k pc H. discriminate.
  - intros k k' pc pc' _ H. discriminate.
  - intros k row _ _ c Hc. lia.
  - intros x _. reflexivity.
Qed.

(** No row below the pivots has a 1 in the column: the column is done. *)
Lemma echelon_skip col st :
  Echelon B m0 col st ->
  findPivotRow (drop (rank st) (matrix st)) (rank st) col = None ->
  Echelon B m0 (S col) st.
Proof.
  intros E Hnone. constructor; try apply E.
  - intros k pc Hk. destruct (ech_pivot _ _ _ _ E k pc Hk) as [Hlt Hrow].
    split; [lia|exact Hrow].
  - intros k row Hk Hrow c Hc.
    destruct (decide (c = col)) as [->|Hne].
    + apply (findPivotRow_None _ _ _ Hnone (k - rank st)%nat).
      rewrite lookup_drop. rewrite <- Hrow. f_equal. lia.
    + apply (ech_below _ _ _ _ E k row Hk Hrow). lia.
Qed.

(** The loop stopped because every row has a pivot. *)
Lemma echelon_full col st :
  Echelon B m0 col st -> (col <= B)%nat ->
  (rank st <? length m0)%nat = false ->
  Echelon B m0 B st.
Proof.
  intros E Hcol Hfull. apply Nat.ltb_ge in Hfull.
  pose proof (ech_length _ _ _ _ E) as Hlen.
  constructor; try apply E.
  - intros k pc Hk. destruct (ech_pivot _ _ _ _ E k pc Hk) as [Hlt Hrow].
    split; [lia|exact Hrow].
  - intros k row Hk Hrow c Hc. apply lookup_lt_Some in Hrow. lia.
Qed.

(** A pivot row was found: swap it up and clear the column. *)
Lemma echelon_pivot col st pr :
  Echelon B m0 col st -> (col < B)%nat ->
  findPivotRow (drop (rank st) (matrix st)) (rank st) col = Some pr ->
  Echelon B m0 (S col)
    (mkElimination
       (eliminate (swapRows (matrix st) (rank st) pr) (rank st) col)
       (S (rank st)) (pivotCol st ++ [col])).
Proof.
  intros E Hcol Hfind.
  destruct st as [M rk pcs]. simpl in *.
  destruct (findPivotRow_Some _ _ _ _ Hfind) as [Hle (P & HP & HPcol)].
  rewrite lookup_drop in HP.
  replace (rk + (pr - rk))%nat with pr in HP by lia.
  apply lookup_lt_Some in HP as Hprlt.
  destruct (lookup_lt_is_Some_2 M rk) as [R HR]; [lia|].
  pose proof (ech_rows _ _ _ _ E) as Hrows. simpl in Hrows.
  rewrite Forall_lookup in Hrows.
  destruct (ech_rank _ _ _ _ E) as [Hrk Hrkle]. simpl in Hrk, Hrkle.
  assert (HPzero : forall c, (c < col)%nat -> truthy P c = false).
  { intros c Hc. apply (ech_below _ _ _ _ E pr P); simpl; auto. }
  set (M1 := swapRows M rk pr).
  assert (HM1 : forall k : nat, M1 !! k
            = if decide (k = pr) then Some R
              else if decide (k = rk) then Some P else M !! k).
  { intros k. apply swapRows_lookup; assumption. }
  assert (HM1rk : M1 !! rk = Some P).
  { rewrite HM1. destruct (decide (rk = pr)) as [Heq|Hne].
    - subst pr. congruence.
    - destruct (decide (rk = rk)); [reflexivity|congruence]. }
  assert (HM1low : forall k : nat, (k < rk)%nat -> M1 !! k = M !! k).
  { intros k Hk. rewrite HM1.
    destruct (decide (k = pr)); [lia|].
    destruct (decide (k = rk)); [lia|reflexivity]. }
  assert (HM1from : forall (k : nat) r, M1 !! k = Some r ->
            exists k' : nat, M !! k' = Some r /\
                             ((rk <= k)%nat -> (rk <= k')%nat)).
  { intros k r Hr. rewrite HM1 in Hr.
    destruct (decide (k = pr)) as [->|Hk1].
    - injection Hr as <-. exists rk. auto.
    - destruct (decide (k = rk)) as [->|Hk2].
      + injection Hr as <-. exists pr. auto.
      + exists k. auto. }
  assert (HM1to : forall (k : nat) r, M !! k = Some r ->
            exists k' : nat, M1 !! k' = Some r).
  { intros k r Hr. destruct (decide (k = rk)) as [->|Hk1].
    - exists pr. rewrite HM1. destruct (decide (pr = pr)); congruence.
    - destruct (decide (k = pr)) as [->|Hk2].
      + exists rk. rewrite HM1rk. congruence.
      + exists k. rewrite HM1.
        destruct (decide (k = pr)); [congruence|].
        destruct (decide (k = rk)); [congruence|exact Hr]. }
  assert (HM1rows : forall (k : nat) r, M1 !! k = Some r -> length r = S B).
  { intros k r Hr. destruct (HM1from k r Hr) as (k' & Hk' & _).
    eapply Hrows, Hk'. }
  assert (HPlen : length P = S B) by (eapply Hrows, HP).
  set (M2 := eliminate M1 rk col).
  assert (HM2 : forall k : nat, M2 !! k
            = (fun r => if negb (k =? rk)%nat && truthy r col
                        then xorRow r P else r) <$> M1 !! k).
  { intros k. apply eliminate_lookup, HM1rk. }
  assert (HM2rk : M2 !! rk = Some P).
  { rewrite HM2, HM1rk. simpl. rewrite Nat.eqb_refl. reflexivity. }
  assert (HM2cases : forall (k : nat) r2, M2 !! k = Some r2 ->
            exists r1, M1 !! k = Some r1 /\
              (r2 = r1 \/
               (k <> rk /\ truthy r1 col = true /\ r2 = xorRow r1 P))).
  { intros k r2 Hr2. rewrite HM2 in Hr2.
    destruct (M1 !! k) as [r1|]; [|discriminate].
    simpl in Hr2. injection Hr2 as <-. exists r1. split; [reflexivity|].
    destruct (Nat.eqb_spec k rk) as [->|Hne]; simpl; [auto|].
    destruct (truthy r1 col) eqn:Hc; auto. }
  assert (Hkeep : forall (k : nat) r1 r2 c,
            M1 !! k = Some r1 ->
            (r2 = r1 \/
             (k <> rk /\ truthy r1 col = true /\ r2 = xorRow r1 P)) ->
            (c < col)%nat -> truthy r2 c = truthy r1 c).
  { intros k r1 r2 c Hr1 [->|(_ & _ & ->)] Hc; [reflexivity|].
    pose proof (HM1rows k r1 Hr1).
    rewrite truthy_xorRow by lia. rewrite (HPzero c Hc).
    apply xorb_false_r. }
  constructor; simpl.
  - (* rows *)
    apply Forall_lookup. intros k r2 Hr2.
    destruct (HM2cases k r2 Hr2) as (r1 & Hr1 & [->|(_ & _ & ->)]).
    + eapply HM1rows, Hr1.
    + apply length_xorRow; [eapply HM1rows, Hr1|exact HPlen].
  - (* length *)
    unfold M2, M1. rewrite eliminate_length, swapRows_length.
    apply (ech_length _ _ _ _ E).
  - (* rank *)
    rewrite length_app. simpl. split; [lia|].
    unfold M2, M1. rewrite eliminate_length, swapRows_length. lia.
  - (* pivots *)
    intros k pc Hk.
    destruct (decide (k < length pcs)%nat) as [Hlt|Hge].
    + rewrite lookup_app_l in Hk by exact Hlt.
      destruct (ech_pivot _ _ _ _ E k pc Hk) as [Hpc (row & Hrow & Ht & Hz)].
      simpl in Hrow. split; [lia|].
      assert (Hr1 : M1 !! k = Some row) by (rewrite HM1low by lia; exact Hrow).
      destruct (M2 !! k) as [r2|] eqn:Hr2.
      2:{ rewrite HM2, Hr1 in Hr2. discriminate. }
      destruct (HM2cases k r2 Hr2) as (r1 & Hr1' & Hcase).
      rewrite Hr1 in Hr1'. injection Hr1' as <-.
      exists r2. split; [reflexivity|]. split.
      * rewrite (Hkeep k row r2 pc Hr1 Hcase Hpc). exact Ht.
      * intros c Hc. rewrite (Hkeep k row r2 c Hr1 Hcase) by lia.
        apply Hz, Hc.
    + rewrite lookup_app_r in Hk by lia.
      destruct (k - length pcs)%nat as [|d] eqn:Hd; [|discriminate].
      simpl in Hk. injection Hk as <-.
      assert (k = rk) as -> by lia.
      split; [lia|]. exists P. auto.
  - (* increasing *)
    intros k k' pc pc' Hkk Hk Hk'.
    assert (Hklt : (k < length pcs)%nat).
    { apply lookup_lt_Some in Hk'. rewrite length_app in Hk'. simpl in Hk'.
      lia. }
    rewrite lookup_app_l in Hk by exact Hklt.
    destruct (decide (k' < length pcs)%nat) as [Hlt|Hge].
    + rewrite lookup_app_l in Hk' by exact Hlt.
      exact (ech_increasing _ _ _ _ E k k' pc pc' Hkk Hk Hk').
    + rewrite lookup_app_r in Hk' by lia.
      destruct (k' - length pcs)%nat as [|d]; [|discriminate].
      simpl in Hk'. injection Hk' as <-.
      apply (ech_pivot _ _ _ _ E k pc Hk).
  - (* below *)
    intros k r2 Hk Hr2 c Hc.
    destruct (HM2cases k r2 Hr2) as (r1 & Hr1 & Hcase).
    destruct (HM1from k r1 Hr1) as (k' & Hk' & Hge).
    assert (Hz1 : forall c', (c' < col)%nat -> truthy r1 c' = false).
    { intros c' Hc'. apply (ech_below _ _ _ _ E k' r1); simpl; auto.
      apply Hge. lia. }
    destruct (decide (c = col)) as [->|Hne].
    + destruct Hcase as [->|(_ & Ht & ->)].
      * rewrite HM2, Hr1 in Hr2. simpl in Hr2.
        destruct (Nat.eqb_spec k rk) as [?|_]; [lia|]. simpl in Hr2.
        destruct (truthy r1 col) eqn:Ht; [|reflexivity].
        injection Hr2 as Hr2.
        pose proof (HM1rows k r1 Hr1).
        assert (Hx : truthy (xorRow r1 P) col = false).
        { rewrite truthy_xorRow by lia. rewrite Ht, HPcol. reflexivity. }
        rewrite Hr2 in Hx. congruence.
      * pose proof (HM1rows k r1 Hr1).
        rewrite truthy_xorRow by lia. rewrite Ht, HPcol. reflexivity.
    + rewrite (Hkeep k r1 r2 c Hr1 Hcase) by lia. apply Hz1. lia.
  - (* same solutions *)
    intros x Hx. rewrite <- (ech_same _ _ _ _ E x Hx). simpl.
    rewrite !systemHolds_lookup. split.
    + intros H2 k r Hr. destruct (HM1to k r Hr) as (k1 & Hk1).
      assert (HPx : rowHolds B P x) by (apply (H2 rk), HM2rk).
      destruct (M2 !! k1) as [r2|] eqn:Hr2.
      2:{ rewrite HM2, Hk1 in Hr2. discriminate. }
      destruct (HM2cases k1 r2 Hr2) as (r1 & Hr1 & Hcase).
      rewrite Hk1 in Hr1. injection Hr1 as <-.
      specialize (H2 k1 r2 Hr2).
      destruct Hcase as [->|(_ & _ & ->)]; [exact H2|].
      apply (rowHolds_xorRow B r P x); auto. eapply HM1rows, Hk1.
    + intros H k r2 Hr2.
      destruct (HM2cases k r2 Hr2) as (r1 & Hr1 & Hcase).
      destruct (HM1from k r1 Hr1) as (k' & Hk' & _).
      destruct Hcase as [->|(_ & _ & ->)]; [eapply H, Hk'|].
      apply (rowHolds_xorRow B r1 P x); [eapply HM1rows, Hr1|exact HPlen| |].
      * eapply H, HP.
      * eapply H, Hk'.
Qed.

Lemma gaussLoop_echelon : forall n col st,
  (col + n = B)%nat -> Echelon B m0 col st ->
  Echelon B m0 B (gaussLoop (length m0) (seq col n) st).
Proof.
  induction n as [|n IH]; intros col st Hn E; simpl.
  - assert (Hc : col = B) by lia. rewrite Hc in E. exact E.
  - destruct (rank st <? length m0)%nat eqn:Hrank.
    + destruct (findPivotRow _ _ col) as [pr|] eqn:Hfind.
      * apply IH; [lia|]. apply echelon_pivot; [exact E|lia|exact Hfind].
      * apply IH; [lia|]. apply echelon_skip; assumption.
    + eapply echelon_full; [exact E|lia|exact Hrank].
Qed.

End EliminationStep.

Lemma gaussianElimination_echelon machine :
  Echelon (length (buttons machine)) (buildMatrix machine)
    (length (buttons machine)) (gaussianElimination machine).
Proof.
  unfold gaussianElimination. rewrite <- buildMatrix_length.
  apply gaussLoop_echelon; [reflexivity|].
  apply echelon_start, buildMatrix_rows.
Qed.

(** ** Back-substitution *)

Lemma foldl_flip (f : nat -> bool) : forall n from v,
  foldl (fun value c => if f c then negb value else value) v (seq from n)
  = xorb v (xorRange f from n).
Proof.
  induction n as [|n IH]; intros from v; simpl.
  - rewrite xorb_false_r. reflexivity.
  - rewrite IH. destruct (f from), v, (xorRange f (S from) n); reflexivity.
Qed.

Lemma pivotValue_xorRange row x col B :
  pivotValue row x col B
  = xorb (truthy row B)
      (xorRange (fun c => truthy row c && truthy x c) (S col) (B - S col)).
Proof. unfold pivotValue. apply foldl_flip. Qed.

Lemma pivotValue_ext row x y col B :
  (forall c, (col < c < B)%nat -> truthy x c = truthy y c) ->
  pivotValue row x col B = pivotValue row y col B.
Proof.
  intros H. rewrite !pivotValue_xorRange. f_equal.
  apply xorRange_ext. intros c Hc. rewrite H by lia. reflexivity.
Qed.

(** A pivot row holds exactly when its pivot variable has the value that
    back-substitution computes. *)
Lemma rowHolds_pivot B row x pc :
  (pc < B)%nat -> truthy row pc = true ->
  (forall c, (c < pc)%nat -> truthy row c = false) ->
  (rowHolds B row x <-> truthy x pc = pivotValue row x pc B).
Proof.
  intros Hpc Ht Hz. unfold rowHolds.
  rewrite (xorRange_split _ B pc Hpc), pivotValue_xorRange.
  rewrite xorRange_false by (intros c Hc; rewrite Hz by lia; reflexivity).
  rewrite Ht. simpl.
  destruct (truthy x pc), (truthy row B), (xorRange _ (S pc) (B - S pc));
    simpl; split; congruence.
Qed.

Section BackSubstitution.

Variable B : nat.
Variable m0 : list (list bool).
Variable st : Elimination.
Hypothesis E : Echelon B m0 B st.

Abbreviation back := (backSubstitute (matrix st) (pivotCol st) B).

Lemma back_length : forall r x, length (back r x) = length x.
Proof.
  induction r as [|r IH]; intros x; simpl; [reflexivity|].
  destruct (pivotCol st !! r), (matrix st !! r); try reflexivity.
  rewrite IH. apply length_insert.
Qed.

Lemma back_other : forall r x c,
  length x = B ->
  (forall k : nat, (k < r)%nat -> pivotCol st !! k <> Some c) ->
  truthy (back r x) c = truthy x c.
Proof.
  induction r as [|r IH]; intros x c Hx Hc; simpl; [reflexivity|].
  destruct (pivotCol st !! r) as [pc|] eqn:Hpc; [|reflexivity].
  destruct (matrix st !! r) as [row|]; [|reflexivity].
  destruct (ech_pivot _ _ _ _ E r pc Hpc) as [Hlt _].
  rewrite IH.
  - rewrite truthy_insert by lia.
    destruct (decide (pc = c)) as [->|_]; [|reflexivity].
    exfalso. apply (Hc r); [lia|exact Hpc].
  - rewrite length_insert. exact Hx.
  - intros k Hk. apply Hc. lia.
Qed.

Lemma pivot_row (r : nat) :
  (r < rank st)%nat ->
  exists pc row,
    pivotCol st !! r = Some pc /\ matrix st !! r = Some row /\
    (pc < B)%nat /\ truthy row pc = true /\
    (forall c, (c < pc)%nat -> truthy row c = false) /\
    (forall (k : nat) c, (k < r)%nat -> pivotCol st !! k = Some c ->
                         (c < pc)%nat).
Proof.
  intros Hr. destruct (ech_rank _ _ _ _ E) as [Hrk _].
  destruct (lookup_lt_is_Some_2 (pivotCol st) r) as [pc Hpc]; [lia|].
  destruct (ech_pivot _ _ _ _ E r pc Hpc) as [Hlt (row & Hrow & Ht & Hz)].
  exists pc, row. repeat split; auto.
  intros k c Hk Hc. exact (ech_increasing _ _ _ _ E k r c pc Hk Hc Hpc).
Qed.

(** The assignment that back-substitution builds satisfies every pivot
    row it has gone through. *)
Lemma back_holds : forall r x,
  (r <= rank st)%nat -> length x = B ->
  forall (k : nat) row, (k < r)%nat -> matrix st !! k = Some row ->
    rowHolds B row (back r x).
Proof.
  induction r as [|r IH]; intros x Hr Hx k row Hk Hrow; [lia|].
  destruct (pivot_row r) as (pc & prow & Hpc & Hprow & Hlt & Ht & Hz & Hinc);
    [lia|].
  simpl. rewrite Hpc, Hprow.
  set (x1 := <[pc := pivotValue prow x pc B]> x).
  assert (Hx1 : length x1 = B) by (unfold x1; rewrite length_insert; exact Hx).
  destruct (decide (k = r)) as [->|Hne].
  - rewrite Hprow in Hrow. injection Hrow as <-.
    apply (rowHolds_pivot B prow _ pc Hlt Ht Hz).
    rewrite back_other; [|exact Hx1|].
    2:{ intros k' Hk' Heq. pose proof (Hinc k' pc Hk' Heq). lia. }
    unfold x1 at 1. rewrite truthy_insert by lia.
    destruct (decide (pc = pc)); [|congruence].
    apply pivotValue_ext. intros c Hc. symmetry.
    rewrite back_other; [|exact Hx1|].
    2:{ intros k' Hk' Heq. pose proof (Hinc k' c Hk' Heq). lia. }
    unfold x1. rewrite truthy_insert by lia.
    destruct (decide (pc = c)); [lia|reflexivity].
  - apply (IH x1 ltac:(lia) Hx1 k row ltac:(lia) Hrow).
Qed.

(** Back-substitution rebuilds any solution from its free variables. *)
Lemma back_complete : forall r x y,
  (r <= rank st)%nat -> length x = B -> length y = B ->
  (forall (k : nat) row, (k < r)%nat -> matrix st !! k = Some row ->
     rowHolds B row y) ->
  (forall c, (forall k : nat, (k < r)%nat -> pivotCol st !! k <> Some c) ->
     truthy x c = truthy y c) ->
  back r x = y.
Proof.
  induction r as [|r IH]; intros x y Hr Hx Hy Hrows Hagree.
  - simpl. apply truthy_eq; [lia|]. intros c. apply Hagree. intros k Hk. lia.
  - destruct (pivot_row r) as (pc & prow & Hpc & Hprow & Hlt & Ht & Hz & Hinc);
      [lia|].
    simpl. rewrite Hpc, Hprow. apply IH.
    + lia.
    + rewrite length_insert. exact Hx.
    + exact Hy.
    + intros k row Hk. apply Hrows. lia.
    + intros c Hc. rewrite truthy_insert by lia.
      destruct (decide (pc = c)) as [<-|Hne].
      * assert (Hy' : rowHolds B prow y) by (apply (Hrows r); [lia|exact Hprow]).
        apply (rowHolds_pivot B prow y pc Hlt Ht Hz) in Hy'.
        rewrite Hy'. apply pivotValue_ext. intros c Hc'.
        apply Hagree. intros k Hk Heq.
        destruct (decide (k = r)) as [->|Hkr].
        -- rewrite Hpc in Heq. injection Heq as <-. lia.
        -- pose proof (Hinc k c ltac:(lia) Heq). lia.
      * apply Hagree. intros k Hk Heq.
        destruct (decide (k = r)) as [->|Hkr].
        -- rewrite Hpc in Heq. congruence.
        -- apply (Hc k); [lia|exact Heq].
Qed.

End BackSubstitution.

(** ** The free variables and their masks *)

Lemma assignFree_length mask : forall fvs i x,
  length (assignFree fvs i mask x) = length x.
Proof.
  induction fvs as [|f fvs IH]; intros i x; simpl; [reflexivity|].
  rewrite IH. apply length_insert.
Qed.

Lemma assignFree_other mask c : forall fvs i x,
  c ∉ fvs -> truthy (assignFree fvs i mask x) c = truthy x c.
Proof.
  induction fvs as [|f fvs IH]; intros i x Hc; simpl; [reflexivity|].
  apply not_elem_of_cons in Hc as [Hne Hc]. rewrite IH by exact Hc.
  unfold truthy. rewrite list_lookup_insert_ne by congruence. reflexivity.
Qed.

Lemma assignFree_at mask : forall fvs i x (j : nat) c,
  NoDup fvs -> fvs !! j = Some c -> (c < length x)%nat ->
  truthy (assignFree fvs i mask x) c
  = negb (JS.band mask (JS.shl 1 (Z.of_nat (i + j))) =? 0).
Proof.
  induction fvs as [|f fvs IH]; intros i x j c Hnd Hj Hc; [discriminate|].
  apply NoDup_cons in Hnd as [Hf Hnd]. simpl.
  destruct j as [|j]; simpl in Hj.
  - injection Hj as ->. rewrite assignFree_other by exact Hf.
    rewrite truthy_insert by exact Hc.
    destruct (decide (c = c)); [|congruence].
    rewrite Nat.add_0_r. reflexivity.
  - rewrite (IH (S i) _ j c Hnd Hj) by (rewrite length_insert; exact Hc).
    replace (S i + j)%nat with (i + S j)%nat by lia. reflexivity.
Qed.

Lemma maskOfBits_range bits : 0 <= maskOfBits bits < 2 ^ Z.of_nat (length bits).
Proof.
  induction bits as [|b bits IH]; [simpl; lia|].
  cbn [maskOfBits length]. rewrite Nat2Z.inj_succ, Z.pow_succ_r by lia.
  destruct b; simpl Z.b2z; lia.
Qed.

Lemma maskOfBits_testbit : forall bits (j : nat) b,
  bits !! j = Some b -> Z.testbit (maskOfBits bits) (Z.of_nat j) = b.
Proof.
  induction bits as [|b0 bits IH]; intros j b Hj; [discriminate|].
  cbn [maskOfBits]. rewrite Z.add_comm.
  destruct j as [|j]; simpl in Hj.
  - injection Hj as ->. apply Z.testbit_0_r.
  - rewrite Nat2Z.inj_succ, Z.testbit_succ_r by lia. apply IH, Hj.
Qed.

Lemma land_pow2_zero m (j : Z) :
  0 <= j -> (Z.land m (2 ^ j) =? 0) = negb (Z.testbit m j).
Proof.
  intros Hj. destruct (Z.testbit m j) eqn:Hb; simpl.
  - apply Z.eqb_neq. intros H0.
    assert (Hbit : Z.testbit (Z.land m (2 ^ j)) j = true).
    { rewrite Z.land_spec, Hb, Z.pow2_bits_true by lia. reflexivity. }
    rewrite H0, Z.bits_0 in Hbit. discriminate.
  - apply Z.eqb_eq. apply Z.bits_inj'. intros n Hn.
    rewrite Z.land_spec, Z.bits_0, Z.pow2_bits_eqb by lia.
    destruct (Z.eqb_spec j n) as [->|_]; [rewrite Hb|];
      rewrite ?andb_false_r; reflexivity.
Qed.

Lemma mask_bit bits (j : nat) b :
  (length bits <= 30)%nat -> bits !! j = Some b ->
  negb (JS.band (maskOfBits bits) (JS.shl 1 (Z.of_nat j)) =? 0) = b.
Proof.
  intros Hlen Hj. apply lookup_lt_Some in Hj as Hlt.
  pose proof (maskOfBits_range bits) as Hr.
  assert (2 ^ Z.of_nat (length bits) <= 2 ^ 30) by (apply Z.pow_le_mono_r; lia).
  assert (0 < 2 ^ Z.of_nat j <= 2 ^ 30).
  { split; [apply Z.pow_pos_nonneg; lia|apply Z.pow_le_mono_r; lia]. }
  rewrite shl_1_small by lia. unfold JS.band.
  rewrite !toInt32_id by lia.
  rewrite land_pow2_zero by lia. rewrite negb_involutive.
  apply maskOfBits_testbit, Hj.
Qed.

Lemma freeVars_spec B pcs c :
  c ∈ freeVarsOf B pcs <-> (c < B)%nat /\ c ∉ pcs.
Proof.
  unfold freeVarsOf. rewrite list_elem_of_filter, elem_of_seq.
  split; [intros [H1 H2]|intros [H1 H2]]; split; auto; lia.
Qed.

Lemma freeVars_NoDup B pcs : NoDup (freeVarsOf B pcs).
Proof. unfold freeVarsOf. apply NoDup_filter, NoDup_seq. Qed.

Lemma freeVars_length B pcs : (length (freeVarsOf B pcs) <= B)%nat.
Proof.
  unfold freeVarsOf. etransitivity; [apply length_filter|].
  rewrite length_seq. reflexivity.
Qed.

(** ** The loop over the masks keeps the smallest weight *)

Lemma weight_nonneg x : 0 <= weight x.
Proof. unfold weight. lia. Qed.

Lemma tryMask_fold B st fvs : forall masks acc,
  (foldl (tryMask B st fvs) acc masks = acc \/
   exists m, m ∈ masks /\
     foldl (tryMask B st fvs) acc masks
     = JS.Int (weight (solutionFor B st fvs m))) /\
  (forall n, acc = JS.Int n ->
     exists n', foldl (tryMask B st fvs) acc masks = JS.Int n' /\ n' <= n) /\
  (forall m, m ∈ masks ->
     exists n', foldl (tryMask B st fvs) acc masks = JS.Int n' /\
                n' <= weight (solutionFor B st fvs m)).
Proof.
  induction masks as [|m masks IH]; intros acc; simpl.
  - split; [auto|]. split; [eauto with lia|]. intros m Hm. inversion Hm.
  - destruct (IH (tryMask B st fvs acc m)) as (Hsel & Hacc & Hall).
    set (w := weight (solutionFor B st fvs m)) in *.
    assert (Hstep : (tryMask B st fvs acc m = acc /\
                     exists n, acc = JS.Int n /\ n <= w) \/
                    (tryMask B st fvs acc m = JS.Int w /\
                     forall n, acc = JS.Int n -> w <= n)).
    { unfold tryMask. fold w. destruct acc as [n|]; simpl.
      - destruct (Z.ltb_spec w n); [right|left]; split; eauto with lia.
        intros n' [= <-]. lia.
      - right. split; [reflexivity|]. intros n [=]. }
    split; [|split].
    + destruct Hsel as [Hsel|(m' & Hm' & Hsel)].
      * destruct Hstep as [[Hs _]|[Hs _]]; rewrite Hsel, Hs; [auto|].
        right. exists m. split; [left|reflexivity].
      * right. exists m'. split; [right; exact Hm'|exact Hsel].
    + intros n Hn. destruct Hstep as [[Hs _]|[Hs Hle]].
      * rewrite Hs in *. apply Hacc, Hn.
      * destruct (Hacc w Hs) as (n' & Hn' & Hle'). exists n'.
        split; [exact Hn'|]. specialize (Hle n Hn). lia.
    + intros m' Hm'. apply elem_of_cons in Hm' as [->|Hm'].
      * destruct Hstep as [[Hs (n & Hn & Hle)]|[Hs _]].
        -- rewrite Hs in *. destruct (Hacc n Hn) as (n' & Hn' & Hle').
           exists n'. split; [exact Hn'|]. fold w. lia.
        -- destruct (Hacc w Hs) as (n' & Hn' & Hle'). eauto.
      * apply Hall, Hm'.
Qed.

(** ** The toggle solver: what [solveMachineLights] returns *)

Section ToggleSolver.

Variable machine : Machine.

Abbreviation B := (length (buttons machine)).
Abbreviation st := (gaussianElimination machine).
Abbreviation fvs := (freeVarsOf B (pivotCol st)).

Lemma zero_row_holds (row x : list bool) :
  (forall c, (c < B)%nat -> truthy row c = false) ->
  truthy row B = false -> rowHolds B row x.
Proof.
  intros Hz Haug. unfold rowHolds. rewrite Haug.
  apply xorRange_false. intros c Hc. rewrite Hz by lia. reflexivity.
Qed.

Lemma inconsistent_unsolvable x :
  inconsistent B st = true -> ~ lightsMatch machine x.
Proof.
  intros Hinc Hx. pose proof (gaussianElimination_echelon machine) as E.
  unfold inconsistent in Hinc. apply existsb_exists in Hinc as (row & Hin & Haug).
  apply list_elem_of_In, list_elem_of_lookup in Hin as [i Hi].
  rewrite lookup_drop in Hi.
  assert (Hsys : systemHolds B (matrix st) x).
  { apply (ech_same _ _ _ _ E); [apply Hx|].
    apply buildMatrix_holds; [apply Hx|exact Hx]. }
  rewrite systemHolds_lookup in Hsys. specialize (Hsys _ _ Hi).
  unfold rowHolds in Hsys. rewrite Haug in Hsys.
  rewrite xorRange_false in Hsys; [discriminate|].
  intros c Hc.
  rewrite (ech_below _ _ _ _ E (rank st + i)%nat row) by (auto; lia).
  reflexivity.
Qed.

Lemma consistent_below x (k : nat) row :
  inconsistent B st = false ->
  (rank st <= k)%nat -> matrix st !! k = Some row -> rowHolds B row x.
Proof.
  intros Hinc Hk Hrow. pose proof (gaussianElimination_echelon machine) as E.
  apply zero_row_holds.
  - intros c Hc. apply (ech_below _ _ _ _ E k row Hk Hrow c Hc).
  - unfold inconsistent in Hinc.
    destruct (truthy row B) eqn:Haug; [|reflexivity].
    assert (Hex : existsb (fun r => truthy r B) (drop (rank st) (matrix st))
                  = true).
    { apply existsb_exists. exists row. split; [|exact Haug].
      apply list_elem_of_In, list_elem_of_lookup. exists (k - rank st)%nat.
      rewrite lookup_drop. rewrite <- Hrow. f_equal. lia. }
    congruence.
Qed.

Lemma solutionFor_length mask : length (solutionFor B st fvs mask) = B.
Proof.
  unfold solutionFor.
  rewrite back_length, assignFree_length. apply length_replicate.
Qed.

(** Every assignment the enumeration builds is a solution. *)
Lemma solutionFor_matches mask :
  inconsistent B st = false ->
  lightsMatch machine (solutionFor B st fvs mask).
Proof.
  intros Hinc. pose proof (gaussianElimination_echelon machine) as E.
  apply buildMatrix_holds; [apply solutionFor_length|].
  apply (ech_same _ _ _ _ E); [apply solutionFor_length|].
  apply systemHolds_lookup. intros k row Hrow.
  destruct (decide (k < rank st)%nat) as [Hlt|Hge].
  - unfold solutionFor.
    apply (back_holds B _ st E (rank st) _ (Nat.le_refl _)) with (k := k);
      [|exact Hlt|exact Hrow].
    rewrite assignFree_length. apply length_replicate.
  - eapply consistent_below; [exact Hinc| |exact Hrow]. lia.
Qed.

(** Every solution is built for the mask of its free variables. *)
Lemma solutionFor_complete y :
  (B <= 30)%nat -> lightsMatch machine y ->
  solutionFor B st fvs (maskOfBits (truthy y <$> fvs)) = y.
Proof.
  intros HB Hy. pose proof (gaussianElimination_echelon machine) as E.
  destruct Hy as [Hlen Hy'].
  assert (Hy : lightsMatch machine y) by (split; assumption).
  unfold solutionFor.
  apply (back_complete B _ st E); [lia| | exact Hlen | |].
  - rewrite assignFree_length. apply length_replicate.
  - intros k row _ Hrow.
    assert (Hsys : systemHolds B (matrix st) y).
    { apply (ech_same _ _ _ _ E); [exact Hlen|].
      apply buildMatrix_holds; assumption. }
    rewrite systemHolds_lookup in Hsys. eapply Hsys, Hrow.
  - intros c Hc.
    assert (Hnp : c ∉ pivotCol st).
    { intros Hin. apply list_elem_of_lookup in Hin as [k Hk].
      apply (Hc k); [|exact Hk].
      apply lookup_lt_Some in Hk.
      destruct (ech_rank _ _ _ _ E) as [Hrk _]. lia. }
    destruct (decide (c < B)%nat) as [Hlt|Hge].
    + assert (Hin : c ∈ fvs) by (apply freeVars_spec; auto).
      apply list_elem_of_lookup in Hin as [j Hj].
      rewrite (assignFree_at _ _ 0 _ j c (freeVars_NoDup _ _) Hj)
        by (rewrite length_replicate; exact Hlt).
      change (0 + j)%nat with j. apply mask_bit.
      * rewrite length_fmap. pose proof (freeVars_length B (pivotCol st)). lia.
      * rewrite list_lookup_fmap, Hj. reflexivity.
    + rewrite assignFree_other.
      * rewrite !truthy_ge; [reflexivity|lia|rewrite length_replicate; lia].
      * intros Hin. apply freeVars_spec in Hin. lia.
Qed.

Lemma solveMachineLights_cases :
  (B <= 30)%nat ->
  (solveMachineLights machine = JS.Int (-1) /\
   forall x, ~ lightsMatch machine x) \/
  (exists x, lightsMatch machine x /\
             solveMachineLights machine = JS.Int (weight x) /\
             forall y, lightsMatch machine y -> weight x <= weight y).
Proof.
  intros HB. unfold solveMachineLights.
  destruct (inconsistent B st) eqn:Hinc.
  - left. split; [reflexivity|]. intros x. apply inconsistent_unsolvable, Hinc.
  - right.
    pose proof (freeVars_length B (pivotCol st)) as HF.
    rewrite shl_1_small by lia.
    destruct (tryMask_fold B st fvs
                (seqZ 0 (2 ^ Z.of_nat (length fvs))) JS.Infinity)
      as (Hsel & _ & Hall).
    assert (Hpow : 0 < 2 ^ Z.of_nat (length fvs))
      by (apply Z.pow_pos_nonneg; lia).
    destruct (Hall 0) as (n0 & Hn0 & _); [apply elem_of_seqZ; lia|].
    destruct Hsel as [Hsel|(m & Hm & Hsel)]; [congruence|].
    exists (solutionFor B st fvs m).
    split; [apply solutionFor_matches, Hinc|]. split; [exact Hsel|].
    intros y Hy.
    destruct (Hall (maskOfBits (truthy y <$> fvs))) as (n' & Hn' & Hle).
    { apply elem_of_seqZ.
      pose proof (maskOfBits_range (truthy y <$> fvs)) as Hr.
      rewrite length_fmap in Hr. lia. }
    rewrite (solutionFor_complete y HB Hy) in Hle.
    rewrite Hsel in Hn'. injection Hn' as <-. exact Hle.
Qed.

End ToggleSolver.

Lemma solveMachineLights_spec machine :
  (length (buttons machine) <= 30)%nat ->
  (solveMachineLights machine = JS.Int (-1) /\
   forall x, ~ lightsMatch machine x) \/
  (exists x, lightsMatch machine x /\
             solveMachineLights machine = JS.Int (weight x) /\
             solveMachineLights machine <> JS.Int (-1) /\
             forall y, lightsMatch machine y -> weight x <= weight y).
Proof.
  intros HB.
  destruct (solveMachineLights_cases machine HB)
    as [H|(x & Hx & Heq & Hmin)]; [left; exact H|].
  right. exists x. split; [exact Hx|]. split; [exact Heq|].
  split; [|exact Hmin].
  rewrite Heq. pose proof (weight_nonneg x). intros [= H0]. lia.
Qed.

(** C1, amended: for every machine with at most 30 buttons,
    [solveMachineLights] returns the minimum number of buttons whose
    toggle-sets XOR exactly to the target light pattern (it is the weight
    of a subset that does, and no subset that does is smaller), and it
    returns the unsolvable signal [-1] if and only if no subset of the
    buttons XORs to the target. *)
Theorem solveMachineLights_minimal machine :
  (length (buttons machine) <= 30)%nat ->
  (solveMachineLights machine = JS.Int (-1) /\
   forall x, ~ lightsMatch machine x) \/
  (exists x, lightsMatch machine x /\
             solveMachineLights machine = JS.Int (weight x) /\
             solveMachineLights machine <> JS.Int (-1) /\
             forall y, lightsMatch machine y -> weight x <= weight y).
Proof. apply solveMachineLights_spec. Qed.

Lemma solveMachineLights_minimal_witness :
  (length (buttons fixture2) <= 30)%nat /\
  ((solveMachineLights fixture2 = JS.Int (-1) /\
    forall x, ~ lightsMatch fixture2 x) \/
   (exists x, lightsMatch fixture2 x /\
              solveMachineLights fixture2 = JS.Int (weight x) /\
              solveMachineLights fixture2 <> JS.Int (-1) /\
              forall y, lightsMatch fixture2 y -> weight x <= weight y)).
Proof.
  assert (H : (length (buttons fixture2) <= 30)%nat) by (vm_compute; lia).
  split; [exact H|]. apply (solveMachineLights_minimal fixture2 H).
Defined.

(** C1 as stated fails on a machine with 32 buttons on one light: 31
    variables are free, [1 << 31] is negative, no mask is tried and the
    solver returns [Infinity], although pressing the first button alone
    produces the target. *)
Lemma solveMachineLights_32_buttons :
  solveMachineLights machine32 = JS.Infinity /\
  lightsMatch machine32 (true :: replicate 31 false).
Proof.
  split; [vm_compute; reflexivity|]. split; [reflexivity|].
  intros [|i] t Ht; simpl in Ht; [|discriminate].
  injection Ht as <-. vm_compute. reflexivity.
Qed.

(** ** The counting loop and the press sums *)

Lemma countFrom_acc bs : forall b mask j count,
  countFrom bs b mask j count = count + countFrom bs b mask j 0.
Proof.
  induction bs as [|button bs IH]; intros b mask j count; simpl; [lia|].
  rewrite IH. rewrite (IH (S b) mask j (if _ : bool then _ else _)).
  destruct (bitSet mask b && includes button j); lia.
Qed.

Lemma countFrom_nonneg bs : forall b mask j, 0 <= countFrom bs b mask j 0.
Proof.
  induction bs as [|button bs IH]; intros b mask j; simpl; [lia|].
  rewrite countFrom_acc. specialize (IH (S b) mask j).
  destruct (bitSet mask b && includes button j); lia.
Qed.

Lemma countTouching_nonneg machine mask j : 0 <= countTouching machine mask j.
Proof. apply countFrom_nonneg. Qed.

Lemma sumPresses_acc l : forall a, foldl Z.add a l = a + foldl Z.add 0 l.
Proof.
  induction l as [|x l IH]; intros a; simpl; [lia|].
  rewrite (IH (a + x)), (IH (0 + x)). lia.
Qed.

Lemma sumPresses_cons x l : sumPresses (x :: l) = x + sumPresses l.
Proof. unfold sumPresses. simpl. apply sumPresses_acc. Qed.

Lemma sumPresses_replicate n : sumPresses (replicate n 0) = 0.
Proof.
  induction n as [|n IH]; [reflexivity|].
  simpl replicate. rewrite sumPresses_cons, IH. reflexivity.
Qed.

Lemma counterSum_replicate bs j : counterSum bs (replicate (length bs) 0) j = 0.
Proof.
  induction bs as [|button bs IH]; simpl; [reflexivity|].
  rewrite IH. destruct (includes button j); reflexivity.
Qed.

(** [combineSolution] doubles what the sub-solution reaches and adds what
    the pattern contributes. *)
Lemma counterSum_combine pattern j bs : forall (s : list Z) (b : nat),
  length s = length bs ->
  counterSum bs
    (imap (fun k v => if bitSet pattern (b + k) then v * 2 + 1 else v * 2) s) j
  = 2 * counterSum bs s j + countFrom bs b pattern j 0.
Proof.
  induction bs as [|button bs IH]; intros s b Hlen.
  - destruct s; [reflexivity|discriminate].
  - destruct s as [|v s]; [discriminate|]. injection Hlen as Hlen.
    simpl. rewrite (countFrom_acc bs).
    rewrite (imap_ext _ (fun k v => if bitSet pattern (S b + k)
                                    then v * 2 + 1 else v * 2)).
    2:{ intros k x _. simpl. replace (b + S k)%nat with (S (b + k)) by lia.
        reflexivity. }
    rewrite IH by exact Hlen. rewrite Nat.add_0_r.
    destruct (bitSet pattern b), (includes button j); simpl; lia.
Qed.

Lemma counterSum_combineSolution machine pattern s j :
  length s = length (buttons machine) ->
  counterSum (buttons machine) (combineSolution pattern s) (Z.of_nat j)
  = 2 * counterSum (buttons machine) s (Z.of_nat j)
    + countTouching machine pattern j.
Proof.
  intros Hlen. unfold combineSolution, countTouching.
  apply (counterSum_combine pattern (Z.of_nat j) (buttons machine) s 0 Hlen).
Qed.

Lemma sumPresses_combine pattern : forall (s : list Z) (b : nat),
  sumPresses
    (imap (fun k v => if bitSet pattern (b + k) then v * 2 + 1 else v * 2) s)
  = 2 * sumPresses s + selected pattern b (length s).
Proof.
  induction s as [|v s IH]; intros b; [reflexivity|].
  simpl imap. rewrite !sumPresses_cons.
  rewrite (imap_ext _ (fun k v => if bitSet pattern (S b + k)
                                  then v * 2 + 1 else v * 2)).
  2:{ intros k x _. simpl. replace (b + S k)%nat with (S (b + k)) by lia.
      reflexivity. }
  rewrite IH. simpl. rewrite Nat.add_0_r.
  destruct (bitSet pattern b); lia.
Qed.

Lemma combineSolution_nonneg pattern s :
  Forall (fun p => 0 <= p) s -> Forall (fun p => 0 <= p) (combineSolution pattern s).
Proof.
  unfold combineSolution. rewrite !Forall_lookup.
  intros H i x Hx. rewrite list_lookup_imap in Hx.
  destruct (s !! i) as [v|] eqn:Hv; [|discriminate].
  apply H in Hv. simpl in Hx. injection Hx as <-.
  destruct (bitSet pattern i); lia.
Qed.

Lemma combineSolution_length pattern s :
  length (combineSolution pattern s) = length s.
Proof. apply length_imap. Qed.

(** ** [applyPattern] *)

Lemma applyPatternFrom_Some machine pattern : forall tgt j nt,
  applyPatternFrom machine pattern tgt j = Some nt ->
  length nt = length tgt /\
  forall (k : nat) t, tgt !! k = Some t ->
    exists n, nt !! k = Some n /\ 0 <= n /\
              t = 2 * n + countTouching machine pattern (j + k).
Proof.
  induction tgt as [|t0 tgt IH]; intros j nt H; simpl in H.
  - injection H as <-. split; [reflexivity|]. intros k t Hk. discriminate.
  - destruct (_ || _) eqn:Hbad; [discriminate|].
    destruct (applyPatternFrom machine pattern tgt (S j)) as [nt'|] eqn:Hrest;
      [|discriminate].
    injection H as <-. apply IH in Hrest as [Hlen Hk].
    apply orb_false_iff in Hbad as [Hneg Hodd].
    rewrite band_1_odd in Hodd. apply Z.ltb_ge in Hneg.
    split; [simpl; lia|].
    intros [|k] t Ht; simpl in Ht.
    + injection Ht as <-. eexists. split; [reflexivity|].
      rewrite Nat.add_0_r.
      set (v := t0 - countTouching machine pattern j) in *.
      assert (Hev : v mod 2 = 0).
      { rewrite Zmod_odd, Hodd. reflexivity. }
      pose proof (Z.div_mod v 2 ltac:(lia)) as Hdm.
      split; [apply Z.div_pos; lia|]. lia.
    + destruct (Hk k t Ht) as (n & Hn & Hpos & Heq).
      exists n. simpl. split; [exact Hn|]. split; [exact Hpos|].
      replace (j + S k)%nat with (S j + k)%nat by lia. exact Heq.
Qed.

Lemma applyPatternFrom_complete machine pattern : forall tgt j nt,
  length nt = length tgt ->
  (forall (k : nat) t, tgt !! k = Some t ->
    exists n, nt !! k = Some n /\ 0 <= n /\
              t = 2 * n + countTouching machine pattern (j + k)) ->
  applyPatternFrom machine pattern tgt j = Some nt.
Proof.
  induction tgt as [|t0 tgt IH]; intros j nt Hlen Hk.
  - destruct nt; [reflexivity|discriminate].
  - destruct nt as [|n0 nt]; [discriminate|]. injection Hlen as Hlen.
    simpl. destruct (Hk 0%nat t0 eq_refl) as (n & Hn & Hpos & Heq).
    simpl in Hn. injection Hn as ->. rewrite Nat.add_0_r in Heq.
    replace (t0 - countTouching machine pattern j) with (n * 2) by lia.
    rewrite band_1_odd, Z.odd_mul, andb_false_r.
    replace (n * 2 <? 0) with false by (symmetry; apply Z.ltb_ge; lia).
    simpl. rewrite (IH (S j) nt Hlen).
    + rewrite Z.div_mul by lia. reflexivity.
    + intros k t Ht. destruct (Hk (S k) t Ht) as (n' & Hn' & Hpos' & Heq').
      exists n'. simpl in Hn'. split; [exact Hn'|]. split; [exact Hpos'|].
      replace (S j + k)%nat with (j + S k)%nat by lia. exact Heq'.
Qed.

(** Each new target is at most half the old one, entry by entry. *)
Lemma applyPattern_halves pattern tgt machine nt :
  applyPattern pattern tgt machine = Some nt ->
  forall (k : nat) t n, tgt !! k = Some t -> nt !! k = Some n ->
    0 <= n /\ n <= t / 2.
Proof.
  intros H k t n Ht Hn. apply applyPatternFrom_Some in H as [_ H].
  destruct (H k t Ht) as (n' & Hn' & Hpos & Heq).
  rewrite Hn in Hn'. injection Hn' as <-.
  pose proof (countTouching_nonneg machine pattern (0 + k)).
  split; [exact Hpos|]. apply Z.div_le_lower_bound; lia.
Qed.

(** ** The recursion without memo table *)

Section PlainRecursion.

Variable machine : Machine.
Variable table : gmap Z (list Z).

Abbreviation numButtons := (length (buttons machine)).
Abbreviation plain := (solveRecursivePlain machine table).

Lemma better_cases pattern sub best :
  better pattern sub best = best \/
  exists c s, cost sub = Some c /\ solution sub = Some s /\
    better pattern sub best
    = mkResult (Some (countBits pattern + 2 * c))
               (Some (combineSolution pattern s)).
Proof.
  unfold better.
  destruct (cost sub) as [c|]; [|left; reflexivity].
  destruct (solution sub) as [s|]; [|left; reflexivity].
  destruct (match cost best with Some _ => _ | None => _ end);
    [right; eauto | left; reflexivity].
Qed.

(** Every result of the recursion is built from the base case, the null
    result and [combineSolution] steps along a pattern of the table. *)
Lemma plain_results (Q : list Z -> Result -> Prop) :
  (forall tgt, forallb (fun v => v =? 0) tgt = true ->
     Q tgt (mkResult (Some 0) (Some (replicate numButtons 0)))) ->
  (forall tgt, Q tgt nullResult) ->
  (forall tgt patterns pattern nt c s,
     table !! targetParity tgt = Some patterns -> pattern ∈ patterns ->
     applyPattern pattern tgt machine = Some nt ->
     Q nt (mkResult (Some c) (Some s)) ->
     Q tgt (mkResult (Some (countBits pattern + 2 * c))
                     (Some (combineSolution pattern s)))) ->
  forall fuel tgt r, plain fuel tgt = Some r -> Q tgt r.
Proof.
  intros Hzero Hnull Hstep.
  induction fuel as [|fuel IH]; intros tgt r Hr; [discriminate|].
  simpl in Hr.
  destruct (forallb _ tgt) eqn:Hz.
  { injection Hr as <-. apply Hzero, Hz. }
  destruct (table !! targetParity tgt) as [patterns|] eqn:Htab.
  2:{ injection Hr as <-. apply Hnull. }
  assert (Hloop : forall pats best r',
    (forall p, p ∈ pats -> p ∈ patterns) -> Q tgt best ->
    tryPatternsPlain machine (plain fuel) pats tgt best = Some r' ->
    Q tgt r').
  { induction pats as [|p pats IHp]; intros best r' Hin Hbest Hrun;
      simpl in Hrun.
    - injection Hrun as <-. exact Hbest.
    - assert (Hin' : forall p', p' ∈ pats -> p' ∈ patterns).
      { intros p' Hp'. apply Hin. right. exact Hp'. }
      destruct (applyPattern p tgt machine) as [nt|] eqn:Hap;
        [|eapply IHp; eauto].
      destruct (plain fuel nt) as [sub|] eqn:Hsub; [|discriminate].
      eapply IHp; [exact Hin'| |exact Hrun].
      destruct (better_cases p sub best) as [->|(c & s & Hc & Hs & ->)];
        [exact Hbest|].
      eapply Hstep; [exact Htab|apply Hin; left|exact Hap|].
      apply IH in Hsub. destruct sub as [c' s']. simpl in Hc, Hs.
      subst. exact Hsub. }
  destruct patterns as [|p pats]; [injection Hr as <-; apply Hnull|].
  eapply Hloop; [intros ? H; exact H|apply Hnull|exact Hr].
Qed.

Lemma allZero_lookup tgt :
  forallb (fun v => v =? 0) tgt = true ->
  forall (j : nat) t, tgt !! j = Some t -> t = 0.
Proof.
  intros Hz j t Ht. rewrite forallb_forall in Hz.
  apply list_elem_of_lookup_2, list_elem_of_In, Hz in Ht. lia.
Qed.

Lemma reaches_zero tgt :
  forallb (fun v => v =? 0) tgt = true ->
  reaches machine (replicate numButtons 0) tgt.
Proof.
  intros Hz. split; [apply length_replicate|]. split.
  - apply Forall_replicate. lia.
  - intros j t Ht. rewrite counterSum_replicate.
    symmetry. eapply allZero_lookup; eauto.
Qed.

Lemma reaches_combine pattern tgt nt s :
  applyPattern pattern tgt machine = Some nt ->
  reaches machine s nt ->
  reaches machine (combineSolution pattern s) tgt.
Proof.
  intros Hap (Hlen & Hpos & Hsum).
  apply applyPatternFrom_Some in Hap as [Hl Hk].
  split; [rewrite combineSolution_length; exact Hlen|].
  split; [apply combineSolution_nonneg, Hpos|].
  intros j t Ht. destruct (Hk j t Ht) as (n & Hn & _ & Heq).
  rewrite counterSum_combineSolution by exact Hlen.
  rewrite (Hsum j n Hn). simpl in Heq. lia.
Qed.

Lemma plain_sound fuel tgt r : plain fuel tgt = Some r -> soundResult machine tgt r.
Proof.
  revert fuel tgt r. apply plain_results.
  - intros tgt Hz. apply reaches_zero, Hz.
  - intros tgt. exact I.
  - intros tgt patterns pattern nt c s _ _ Hap Hs.
    eapply reaches_combine; eauto.
Qed.

(** With a table whose patterns have the bit count of the buttons they
    select, the cost is the sum of the presses. *)
Lemma plain_cost fuel tgt r :
  (forall k l p, table !! k = Some l -> p ∈ l ->
                 countBits p = selected p 0 numButtons) ->
  plain fuel tgt = Some r ->
  match cost r, solution r with
  | None, None => True
  | Some c, Some s => length s = numButtons /\ c = sumPresses s
  | _, _ => False
  end.
Proof.
  intros Hexact. revert fuel tgt r. apply plain_results.
  - intros tgt _. simpl. rewrite length_replicate, sumPresses_replicate. auto.
  - intros tgt. exact I.
  - intros tgt patterns pattern nt c s Htab Hin _ [Hlen Hc]. simpl.
    split; [rewrite combineSolution_length; exact Hlen|].
    pose proof (sumPresses_combine pattern s 0) as Hsum. simpl in Hsum.
    unfold combineSolution. rewrite Hsum, Hlen.
    rewrite (Hexact _ _ _ Htab Hin). lia.
Qed.

(** More fuel does not change a result. *)
Lemma tryPatternsPlain_mono (rec rec' : list Z -> option Result) :
  (forall t r, rec t = Some r -> rec' t = Some r) ->
  forall pats tgt best r,
    tryPatternsPlain machine rec pats tgt best = Some r ->
    tryPatternsPlain machine rec' pats tgt best = Some r.
Proof.
  intros Hrec. induction pats as [|p pats IH]; intros tgt best r H;
    simpl in *; [exact H|].
  destruct (applyPattern p tgt machine) as [nt|]; [|apply IH, H].
  destruct (rec nt) as [sub|] eqn:Hsub; [|discriminate].
  rewrite (Hrec _ _ Hsub). apply IH, H.
Qed.

Lemma plain_step fuel : forall tgt r,
  plain fuel tgt = Some r -> plain (S fuel) tgt = Some r.
Proof.
  induction fuel as [|fuel IH]; intros tgt r H; [discriminate|].
  simpl in H. change (plain (S (S fuel)) tgt) with
    (if forallb (fun v => v =? 0) tgt
     then Some (mkResult (Some 0) (Some (replicate numButtons 0)))
     else match table !! targetParity tgt with
          | None | Some [] => Some nullResult
          | Some patterns =>
              tryPatternsPlain machine (plain (S fuel)) patterns tgt
                nullResult
          end).
  destruct (forallb _ tgt); [exact H|].
  destruct (table !! targetParity tgt) as [[|p pats]|]; try exact H.
  eapply tryPatternsPlain_mono; [exact IH|exact H].
Qed.

Lemma plain_mono fuel fuel' tgt r :
  (fuel <= fuel')%nat -> plain fuel tgt = Some r -> plain fuel' tgt = Some r.
Proof.
  induction 1 as [|fuel' _ IH]; intros H; [exact H|].
  apply plain_step, IH, H.
Qed.

Lemma plain_deterministic fuel fuel' tgt r r' :
  plain fuel tgt = Some r -> plain fuel' tgt = Some r' -> r = r'.
Proof.
  intros H H'.
  apply (plain_mono _ (Nat.max fuel fuel')) in H; [|lia].
  apply (plain_mono _ (Nat.max fuel fuel')) in H'; [|lia].
  congruence.
Qed.

End PlainRecursion.

(** ** The largest entry and the depth of the recursion *)

Lemma maxEntry_nonneg l : 0 <= maxEntry l.
Proof. induction l as [|x l IH]; simpl; lia. Qed.

Lemma maxEntry_lookup l : forall (k : nat) t, l !! k = Some t -> t <= maxEntry l.
Proof.
  induction l as [|x l IH]; intros k t H; [discriminate|].
  destruct k as [|k]; simpl in *.
  - injection H as ->. lia.
  - apply IH in H. lia.
Qed.

Lemma maxEntry_bound l M :
  0 <= M -> (forall (k : nat) n, l !! k = Some n -> n <= M) -> maxEntry l <= M.
Proof.
  intros HM. induction l as [|x l IH]; intros H; simpl; [exact HM|].
  pose proof (H 0%nat x eq_refl).
  assert (maxEntry l <= M) by (apply IH; intros k n Hk; apply (H (S k)), Hk).
  lia.
Qed.

Lemma applyPattern_maxEntry pattern tgt machine nt :
  applyPattern pattern tgt machine = Some nt ->
  maxEntry nt <= maxEntry tgt / 2.
Proof.
  intros H. pose proof (maxEntry_nonneg tgt).
  apply maxEntry_bound; [apply Z.div_pos; lia|].
  intros k n Hn.
  destruct (applyPatternFrom_Some _ _ _ _ _ H) as [Hlen _].
  destruct (lookup_lt_is_Some_2 tgt k) as [t Ht].
  { rewrite <- Hlen. eapply lookup_lt_Some, Hn. }
  destruct (applyPattern_halves _ _ _ _ H k t n Ht Hn) as [_ Hle].
  pose proof (maxEntry_lookup _ _ _ Ht).
  etransitivity; [exact Hle|]. apply Z.div_le_mono; lia.
Qed.

Lemma notAllZero tgt :
  forallb (fun v => v =? 0) tgt = false ->
  exists (k : nat) t, tgt !! k = Some t /\ t <> 0.
Proof.
  induction tgt as [|x tgt IH]; intros H; [discriminate|]. simpl in H.
  destruct (Z.eqb_spec x 0) as [->|Hx].
  - destruct (IH H) as (k & t & Hk & Ht). exists (S k), t. auto.
  - exists 0%nat, x. auto.
Qed.

(** A target that is not all zero and that some pattern applies to has a
    positive entry. *)
Lemma applyPattern_positive pattern tgt machine nt :
  forallb (fun v => v =? 0) tgt = false ->
  applyPattern pattern tgt machine = Some nt ->
  1 <= maxEntry tgt.
Proof.
  intros Hnz Hap. destruct (notAllZero _ Hnz) as (k & t & Hk & Ht).
  apply applyPatternFrom_Some in Hap as [_ Hap].
  destruct (Hap k t Hk) as (n & _ & Hn & Heq).
  pose proof (countTouching_nonneg machine pattern (0 + k)).
  pose proof (maxEntry_lookup _ _ _ Hk). lia.
Qed.

Lemma halved_below (M : Z) (f : nat) :
  1 <= M -> M < 2 ^ Z.of_nat f -> exists f', f = S f' /\ M / 2 < 2 ^ Z.of_nat f'.
Proof.
  intros H1 Hlt. destruct f as [|f']; [simpl in Hlt; lia|].
  exists f'. split; [reflexivity|].
  rewrite Nat2Z.inj_succ, Z.pow_succ_r in Hlt by lia.
  apply Z.div_lt_upper_bound; lia.
Qed.

Lemma depthBound_enough tgt fuel :
  (depthBound tgt <= fuel)%nat ->
  exists f, fuel = S f /\ maxEntry tgt < 2 ^ Z.of_nat f.
Proof.
  unfold depthBound. intros H. destruct fuel as [|f]; [lia|].
  exists f. split; [reflexivity|].
  pose proof (maxEntry_nonneg tgt) as Hpos.
  assert (Hlog : maxEntry tgt < 2 ^ (Z.log2 (maxEntry tgt) + 1)).
  { destruct (Z.eq_dec (maxEntry tgt) 0) as [->|Hne]; [reflexivity|].
    replace (Z.log2 (maxEntry tgt) + 1) with (Z.succ (Z.log2 (maxEntry tgt)))
      by lia.
    apply Z.log2_spec. lia. }
  eapply Z.lt_le_trans; [exact Hlog|].
  pose proof (Z.log2_nonneg (maxEntry tgt)).
  apply Z.pow_le_mono_r; lia.
Qed.

Section Termination.

Variable machine : Machine.
Variable table : gmap Z (list Z).

Abbreviation plain := (solveRecursivePlain machine table).

Lemma tryPatternsPlain_total rec tgt : forall pats best,
  (forall p nt, p ∈ pats -> applyPattern p tgt machine = Some nt ->
                is_Some (rec nt)) ->
  is_Some (tryPatternsPlain machine rec pats tgt best).
Proof.
  induction pats as [|p pats IH]; intros best Hrec; simpl; [eauto|].
  destruct (applyPattern p tgt machine) as [nt|] eqn:Hap.
  - destruct (Hrec p nt) as [sub Hsub]; [left|exact Hap|].
    rewrite Hsub. apply IH. intros p' nt' Hin. apply Hrec. right. exact Hin.
  - apply IH. intros p' nt' Hin. apply Hrec. right. exact Hin.
Qed.

Lemma plain_total : forall (f : nat) tgt,
  maxEntry tgt < 2 ^ Z.of_nat f -> is_Some (plain (S f) tgt).
Proof.
  induction f as [f IH] using lt_wf_ind. intros tgt Hmax. simpl.
  destruct (forallb _ tgt) eqn:Hz; [eauto|].
  destruct (table !! targetParity tgt) as [[|p pats]|]; [eauto| |eauto].
  apply tryPatternsPlain_total. intros p' nt _ Hap.
  pose proof (applyPattern_positive _ _ _ _ Hz Hap) as Hpos.
  destruct (halved_below _ _ Hpos Hmax) as (f' & -> & Hhalf).
  apply IH; [lia|].
  pose proof (applyPattern_maxEntry _ _ _ _ Hap). lia.
Qed.

Lemma plainResult_intro fuel tgt r :
  plain fuel tgt = Some r -> plainResult machine table tgt r.
Proof.
  intros H. exists fuel. intros fuel' Hle. eapply plain_mono; eauto.
Qed.

Lemma plainResult_at fuel tgt r :
  plainResult machine table tgt r -> (depthBound tgt <= fuel)%nat ->
  plain fuel tgt = Some r.
Proof.
  intros [depth Hd] Hfuel.
  destruct (depthBound_enough _ _ Hfuel) as (f & -> & Hmax).
  destruct (plain_total f tgt Hmax) as [r' Hr'].
  rewrite Hr'. f_equal.
  eapply plain_deterministic; [exact Hr'|]. apply (Hd depth). lia.
Qed.

End Termination.

(** ** The memo key: [join] is injective *)

Lemma pretty_N_char_not_comma x : pretty_N_char x <> ","%char.
Proof. unfold pretty_N_char. repeat case_match; discriminate. Qed.

Lemma pretty_N_go_commaFree x : forall s,
  commaFree s -> commaFree (pretty_N_go x s).
Proof.
  induction (N.lt_wf_0 x) as [x _ IH]. intros s Hs.
  destruct (decide (x = 0)%N) as [->|Hx]; [rewrite pretty_N_go_0; exact Hs|].
  rewrite pretty_N_go_step by lia.
  apply IH; [apply N.div_lt; lia|].
  split; [apply pretty_N_char_not_comma|exact Hs].
Qed.

Lemma pretty_N_go_length x : forall s,
  (String.length s <= String.length (pretty_N_go x s))%nat.
Proof.
  induction (N.lt_wf_0 x) as [x _ IH]. intros s.
  destruct (decide (x = 0)%N) as [->|Hx]; [rewrite pretty_N_go_0; lia|].
  rewrite pretty_N_go_step by lia.
  etransitivity; [|apply IH, N.div_lt; lia]. simpl. lia.
Qed.

Lemma pretty_N_commaFree (x : N) : commaFree (pretty x) /\ pretty x <> "".
Proof.
  unfold pretty, pretty_N. destruct (decide (x = 0)%N) as [->|Hx].
  - split; [|discriminate]. simpl. split; [discriminate|exact I].
  - split; [apply pretty_N_go_commaFree; exact I|].
    rewrite pretty_N_go_step by lia. intros Heq.
    pose proof (pretty_N_go_length (x `div` 10)%N
                  (String (pretty_N_char (x `mod` 10)%N) "")) as Hlen.
    rewrite Heq in Hlen. simpl in Hlen. lia.
Qed.

Lemma pretty_Z_commaFree (z : Z) : commaFree (pretty z) /\ pretty z <> "".
Proof.
  destruct z as [|p|p]; unfold pretty, pretty_Z.
  - split; [|discriminate]. simpl. split; [discriminate|exact I].
  - apply pretty_N_commaFree.
  - split; [|discriminate]. simpl. split; [discriminate|].
    apply pretty_N_commaFree.
Qed.

Lemma append_nil_l (s : string) : ("" +:+ s = s)%string.
Proof. reflexivity. Qed.

Lemma append_cons (c : ascii) (x s : string) :
  (String c x +:+ s = String c (x +:+ s))%string.
Proof. reflexivity. Qed.

Lemma append_nil_r (s : string) : (s +:+ "" = s)%string.
Proof.
  induction s as [|c s IH]; [reflexivity|]. rewrite append_cons, IH. reflexivity.
Qed.

(** Two comma-free words followed by nothing or by a comma. *)
Lemma commaFree_prefix x : forall y r1 r2,
  commaFree x -> commaFree y ->
  (r1 = "" \/ exists t, r1 = String "," t) ->
  (r2 = "" \/ exists t, r2 = String "," t) ->
  (x +:+ r1 = y +:+ r2 -> x = y /\ r1 = r2)%string.
Proof.
  induction x as [|c x IH]; intros y r1 r2 Hx Hy H1 H2 Heq.
  - destruct y as [|d y]; [auto|].
    rewrite append_nil_l, append_cons in Heq. destruct Hy as [Hd _].
    destruct H1 as [->|[t ->]]; [discriminate|]. congruence.
  - destruct Hx as [Hc Hx]. destruct y as [|d y].
    + rewrite append_nil_l, append_cons in Heq.
      destruct H2 as [->|[t ->]]; [discriminate|]. congruence.
    + rewrite !append_cons in Heq.
      destruct Hy as [_ Hy]. injection Heq as -> Heq.
      destruct (IH y r1 r2 Hx Hy H1 H2 Heq) as [-> ->]. auto.
Qed.

Lemma concat_cons x xs :
  exists r, (String.concat "," (x :: xs) = x +:+ r)%string /\
    (r = "" \/ exists t, r = String "," t) /\
    (xs = [] -> r = "") /\
    (xs <> [] -> r = String "," (String.concat "," xs)).
Proof.
  destruct xs as [|x' xs].
  - exists "". rewrite append_nil_r. simpl. repeat split; auto. congruence.
  - exists (String "," (String.concat "," (x' :: xs))).
    split; [reflexivity|]. split; [eauto|]. split; [discriminate|auto].
Qed.

Lemma join_inj : forall l1 l2 : list Z, JS.join l1 = JS.join l2 -> l1 = l2.
Proof.
  unfold JS.join.
  induction l1 as [|x l1 IH]; intros [|y l2] H.
  - reflexivity.
  - exfalso. rewrite fmap_cons in H.
    destruct (concat_cons (pretty y) (pretty <$> l2)) as (r & Hr & _).
    rewrite Hr in H. simpl in H.
    destruct (pretty_Z_commaFree y) as [_ Hne].
    destruct (pretty y); [congruence|rewrite append_cons in H; discriminate].
  - exfalso. rewrite fmap_cons in H.
    destruct (concat_cons (pretty x) (pretty <$> l1)) as (r & Hr & _).
    rewrite Hr in H. simpl in H.
    destruct (pretty_Z_commaFree x) as [_ Hne].
    destruct (pretty x); [congruence|rewrite append_cons in H; discriminate].
  - rewrite !fmap_cons in H.
    destruct (concat_cons (pretty x) (pretty <$> l1)) as (r1 & Hr1 & Hs1 & He1 & Hn1).
    destruct (concat_cons (pretty y) (pretty <$> l2)) as (r2 & Hr2 & Hs2 & He2 & Hn2).
    rewrite Hr1, Hr2 in H.
    destruct (commaFree_prefix _ _ _ _ (proj1 (pretty_Z_commaFree x))
                (proj1 (pretty_Z_commaFree y)) Hs1 Hs2 H) as [Hxy Hr].
    apply (inj pretty) in Hxy. subst y. f_equal.
    destruct l1 as [|x1 l1], l2 as [|y2 l2].
    + reflexivity.
    + rewrite He1 in Hr by reflexivity.
      rewrite Hn2 in Hr by discriminate. discriminate.
    + rewrite He2 in Hr by reflexivity.
      rewrite Hn1 in Hr by discriminate. discriminate.
    + rewrite Hn1, Hn2 in Hr by discriminate.
      injection Hr as Hr. apply IH. exact Hr.
Qed.

(** ** The memo table does not change results *)

Section Memo.

Variable machine : Machine.
Variable table : gmap Z (list Z).

Abbreviation plain := (solveRecursivePlain machine table).
Abbreviation memoized := (solveRecursive machine table).

Lemma memoSound_empty : memoSound machine table ∅.
Proof. intros key r H. rewrite lookup_empty in H. discriminate. Qed.

Lemma memoSound_insert memo tgt r :
  memoSound machine table memo -> plainResult machine table tgt r ->
  memoSound machine table (<[JS.join tgt := r]> memo).
Proof.
  intros Hm Hr key r' Hk.
  destruct (decide (JS.join tgt = key)) as [<-|Hne].
  - rewrite lookup_insert_eq in Hk. injection Hk as <-. eauto.
  - rewrite lookup_insert_ne in Hk by exact Hne. apply Hm, Hk.
Qed.

Lemma plain_unfold fuel tgt :
  plain (S fuel) tgt
  = if forallb (fun v => v =? 0) tgt
    then Some (mkResult (Some 0)
                 (Some (replicate (length (buttons machine)) 0)))
    else match table !! targetParity tgt with
         | None | Some [] => Some nullResult
         | Some patterns =>
             tryPatternsPlain machine (plain fuel) patterns tgt nullResult
         end.
Proof. reflexivity. Qed.

Lemma tryPatterns_sound (f : nat) tgt :
  (forall memo t r memo', memoSound machine table memo ->
     memoized f memo t = Some (r, memo') ->
     plainResult machine table t r /\ memoSound machine table memo') ->
  forall pats best memo r memo',
    memoSound machine table memo ->
    tryPatterns machine (memoized f) pats tgt best memo = Some (r, memo') ->
    memoSound machine table memo' /\
    exists depth, forall fuel, (depth <= fuel)%nat ->
      tryPatternsPlain machine (plain fuel) pats tgt best = Some r.
Proof.
  intros IH. induction pats as [|p pats IHp]; intros best memo r memo' Hm H;
    simpl in H.
  - injection H as <- <-. split; [exact Hm|]. exists 0%nat. reflexivity.
  - destruct (applyPattern p tgt machine) as [nt|] eqn:Hap.
    + destruct (memoized f memo nt) as [[sub memo1]|] eqn:Hsub;
        [|discriminate].
      destruct (IH _ _ _ _ Hm Hsub) as [[d1 Hd1] Hm1].
      destruct (IHp _ _ _ _ Hm1 H) as [Hm' [d2 Hd2]].
      split; [exact Hm'|]. exists (Nat.max d1 d2). intros fuel Hfuel.
      simpl. rewrite Hap, (Hd1 fuel) by lia. apply Hd2. lia.
    + destruct (IHp _ _ _ _ Hm H) as [Hm' [d Hd]].
      split; [exact Hm'|]. exists d. intros fuel Hfuel.
      simpl. rewrite Hap. apply Hd, Hfuel.
Qed.

Lemma memoized_sound : forall fuel memo tgt r memo',
  memoSound machine table memo ->
  memoized fuel memo tgt = Some (r, memo') ->
  plainResult machine table tgt r /\ memoSound machine table memo'.
Proof.
  induction fuel as [|f IH]; intros memo tgt r memo' Hm H; [discriminate|].
  simpl in H. destruct (forallb _ tgt) eqn:Hz.
  { injection H as <- <-. split; [|exact Hm].
    exists 1%nat. intros [|fuel] Hfuel; [lia|].
    rewrite plain_unfold, Hz. reflexivity. }
  destruct (memo !! JS.join tgt) as [cached|] eqn:Hhit.
  { injection H as <- <-. split; [|exact Hm].
    destruct (Hm _ _ Hhit) as (tgt' & Hkey & Hres).
    apply join_inj in Hkey. subst tgt'. exact Hres. }
  assert (Hnull : table !! targetParity tgt = None \/
                  table !! targetParity tgt = Some [] ->
                  plainResult machine table tgt nullResult).
  { intros Htab. exists 1%nat. intros [|fuel] Hfuel; [lia|].
    rewrite plain_unfold, Hz. destruct Htab as [-> | ->]; reflexivity. }
  destruct (table !! targetParity tgt) as [[|p pats]|] eqn:Htab.
  - injection H as <- <-.
    assert (plainResult machine table tgt nullResult) by auto.
    split; [assumption|]. apply memoSound_insert; assumption.
  - destruct (tryPatterns machine (memoized f) (p :: pats) tgt nullResult memo)
      as [[best memo1]|] eqn:Hrun; [|discriminate].
    injection H as <- <-.
    destruct (tryPatterns_sound f tgt IH _ _ _ _ _ Hm Hrun) as [Hm1 [d Hd]].
    assert (Hres : plainResult machine table tgt best).
    { exists (S d). intros [|fuel] Hfuel; [lia|].
      rewrite plain_unfold, Hz, Htab. apply Hd. lia. }
    split; [exact Hres|]. apply memoSound_insert; assumption.
  - injection H as <- <-.
    assert (plainResult machine table tgt nullResult) by auto.
    split; [assumption|]. apply memoSound_insert; assumption.
Qed.

Lemma tryPatterns_total rec tgt : forall pats best memo,
  (forall p nt memo', p ∈ pats -> applyPattern p tgt machine = Some nt ->
                      is_Some (rec memo' nt)) ->
  is_Some (tryPatterns machine rec pats tgt best memo).
Proof.
  induction pats as [|p pats IH]; intros best memo Hrec; simpl; [eauto|].
  destruct (applyPattern p tgt machine) as [nt|] eqn:Hap.
  - destruct (Hrec p nt memo) as [[sub memo1] Hsub]; [left|exact Hap|].
    rewrite Hsub. apply IH. intros p' nt' m Hin. apply Hrec. right. exact Hin.
  - apply IH. intros p' nt' m Hin. apply Hrec. right. exact Hin.
Qed.

Lemma memoized_total : forall (f : nat) memo tgt,
  maxEntry tgt < 2 ^ Z.of_nat f -> is_Some (memoized (S f) memo tgt).
Proof.
  induction f as [f IH] using lt_wf_ind. intros memo tgt Hmax. simpl.
  destruct (forallb _ tgt) eqn:Hz; [eauto|].
  destruct (memo !! JS.join tgt); [eauto|].
  destruct (table !! targetParity tgt) as [[|p pats]|]; [eauto| |eauto].
  destruct (tryPatterns_total (memoized f) tgt (p :: pats) nullResult memo)
    as [[best memo1] Hrun]; [|rewrite Hrun; eauto].
  intros p' nt memo' _ Hap.
  pose proof (applyPattern_positive _ _ _ _ Hz Hap) as Hpos.
  destruct (halved_below _ _ Hpos Hmax) as (f' & -> & Hhalf).
  apply IH; [lia|].
  pose proof (applyPattern_maxEntry _ _ _ _ Hap). lia.
Qed.

(** With enough fuel the memoized recursion returns, and it returns what
    the plain recursion returns. *)
Lemma memoized_plain fuel tgt :
  (depthBound tgt <= fuel)%nat ->
  exists r memo',
    memoized fuel ∅ tgt = Some (r, memo') /\ plain fuel tgt = Some r.
Proof.
  intros Hfuel.
  destruct (depthBound_enough _ _ Hfuel) as (f & Hf & Hmax).
  destruct (memoized_total f ∅ tgt Hmax) as [[r memo'] Hr].
  exists r, memo'. subst fuel. split; [exact Hr|].
  destruct (memoized_sound _ _ _ _ _ memoSound_empty Hr) as [Hres _].
  apply plainResult_at; [exact Hres|exact Hfuel].
Qed.

End Memo.

(** ** Bit counts of patterns *)

Lemma bitSet_zero b : bitSet 0 b = false.
Proof.
  unfold bitSet, JS.shr. rewrite (toInt32_id 0) by lia.
  rewrite Z.shiftr_0_l. reflexivity.
Qed.

Lemma selected_zero : forall n from, selected 0 from n = 0.
Proof.
  induction n as [|n IH]; intros from; simpl; [reflexivity|].
  rewrite bitSet_zero, IH. reflexivity.
Qed.

Lemma bitSet_half n b :
  0 <= n < 2 ^ 31 -> (S b < 32)%nat -> bitSet n (S b) = bitSet (n / 2) b.
Proof.
  intros Hn Hb.
  assert (0 <= n / 2 < 2 ^ 31).
  { split; [apply Z.div_pos; lia|apply Z.div_lt_upper_bound; lia]. }
  rewrite !bitSet_testbit by lia.
  rewrite Nat2Z.inj_succ, Z.div2_bits by lia. reflexivity.
Qed.

Lemma selected_half n : forall k from,
  0 <= n < 2 ^ 31 -> (S from + k <= 32)%nat ->
  selected n (S from) k = selected (n / 2) from k.
Proof.
  induction k as [|k IH]; intros from Hn Hk; simpl; [reflexivity|].
  rewrite bitSet_half by lia. rewrite IH by lia. reflexivity.
Qed.

Lemma band_1_bit0 n : JS.band n 1 = if bitSet n 0 then 1 else 0.
Proof.
  unfold bitSet. rewrite !band_1. unfold JS.shr.
  change (Z.of_nat 0 mod 32) with 0. rewrite Z.shiftr_0_r, toInt32_parity.
  pose proof (Z.mod_pos_bound n 2 ltac:(lia)).
  destruct (Z.eqb_spec (n mod 2) 1); lia.
Qed.

Lemma countBitsLoop_selected : forall turns k n c,
  0 <= n < 2 ^ Z.of_nat k -> (k <= turns)%nat -> (k <= 31)%nat ->
  countBitsLoop turns n c = c + selected n 0 k.
Proof.
  induction turns as [|turns IH]; intros k n c Hn Hk Hk31.
  - assert (k = 0%nat) as -> by lia. simpl in *. lia.
  - simpl. destruct (Z.gtb_spec n 0) as [Hpos|Hzero].
    + destruct k as [|k]; [simpl in Hn; lia|].
      rewrite Nat2Z.inj_succ, Z.pow_succ_r in Hn by lia.
      assert (2 ^ Z.of_nat k <= 2 ^ 30) by (apply Z.pow_le_mono_r; lia).
      rewrite shr_small by lia. rewrite Z.shiftr_div_pow2 by lia.
      change (2 ^ 1) with 2.
      assert (0 <= n / 2 < 2 ^ Z.of_nat k).
      { split; [apply Z.div_pos; lia|apply Z.div_lt_upper_bound; lia]. }
      rewrite (IH k) by lia.
      simpl. rewrite selected_half by lia. rewrite band_1_bit0. lia.
    + assert (n = 0) as -> by lia. rewrite selected_zero. lia.
Qed.

Lemma shr_1 n : - 2 ^ 31 <= n < 2 ^ 31 -> JS.shr n 1 = n / 2.
Proof.
  intros Hn. unfold JS.shr. rewrite toInt32_id by lia.
  change (1 mod 32) with 1. rewrite Z.shiftr_div_pow2 by lia. reflexivity.
Qed.

Lemma countBitsLoop_stable : forall t e n c,
  - 2 ^ 31 <= n < 2 ^ 31 -> n < 2 ^ Z.of_nat t ->
  countBitsLoop (t + e) n c = countBitsLoop t n c.
Proof.
  induction t as [|t IH]; intros e n c Hn Hlt.
  - simpl in Hlt. destruct e; simpl; [reflexivity|].
    destruct (Z.gtb_spec n 0); [lia|reflexivity].
  - simpl. destruct (Z.gtb_spec n 0) as [Hpos|_]; [|reflexivity].
    rewrite Nat2Z.inj_succ, Z.pow_succ_r in Hlt by lia.
    rewrite shr_1 by exact Hn. apply IH.
    + split; [apply Z.div_le_lower_bound; lia|apply Z.div_lt_upper_bound; lia].
    + apply Z.div_lt_upper_bound; lia.
Qed.

(** The loop of [countBits] has ended within 33 turns: more turns give
    the same count. *)
Lemma countBitsLoop_exit n e : countBitsLoop (33 + e) n 0 = countBits n.
Proof.
  unfold countBits. change (33 + e)%nat with (S (32 + e)).
  change 33%nat with (S 32). cbn [countBitsLoop].
  destruct (n >? 0); [|reflexivity].
  pose proof (toInt32_range n) as Hr.
  apply countBitsLoop_stable; unfold JS.shr; change (1 mod 32) with 1;
    rewrite Z.shiftr_div_pow2 by lia; change (2 ^ 1) with 2.
  - split; [apply Z.div_le_lower_bound; lia|apply Z.div_lt_upper_bound; lia].
  - apply Z.div_lt_upper_bound; [lia|].
    change (2 ^ Z.of_nat 32) with 4294967296. lia.
Qed.

Lemma exactPatterns_upto32 machine :
  (length (buttons machine) <= 32)%nat -> exactPatterns machine.
Proof.
  intros HB p Hp. apply elem_of_seqZ in Hp.
  set (B := length (buttons machine)) in *.
  assert (B <= 30 \/ B = 31 \/ B = 32)%nat as [Hs|[H31|H32]] by lia.
  - rewrite shl_1_small in Hp by exact Hs.
    unfold countBits. rewrite (countBitsLoop_selected 33 B); lia.
  - rewrite H31, shl_1_31 in Hp. lia.
  - rewrite H32, shl_1_32 in Hp.
    assert (p = 0) as -> by lia. rewrite selected_zero. reflexivity.
Qed.

(** ** The table of patterns *)

Lemma addPattern_lookup machine n T mask k :
  default [] (addPattern machine n T mask !! k)
  = if decide (computeParity mask machine n = k)
    then default [] (T !! k) ++ [mask] else default [] (T !! k).
Proof.
  unfold addPattern. destruct (decide _) as [<-|Hne].
  - rewrite lookup_insert_eq. reflexivity.
  - rewrite lookup_insert_ne by exact Hne. reflexivity.
Qed.

Lemma table_fold machine n : forall masks T k p,
  p ∈ default [] (foldl (addPattern machine n) T masks !! k) <->
  p ∈ default [] (T !! k) \/ (p ∈ masks /\ computeParity p machine n = k).
Proof.
  induction masks as [|mask masks IH]; intros T k p; simpl.
  - split; [auto|]. intros [H|[H _]]; [exact H|]. inversion H.
  - rewrite IH, addPattern_lookup. destruct (decide _) as [Heq|Hne].
    + rewrite elem_of_app, list_elem_of_singleton, elem_of_cons.
      split; [intros [[H| ->]|[H1 H2]]; auto|].
      intros [H|[[->|H1] H2]]; auto.
    + rewrite elem_of_cons. split; [intros [H|[H1 H2]]; auto|].
      intros [H|[[->|H1] H2]]; auto. contradiction.
Qed.

Lemma table_spec machine k p :
  p ∈ default [] (precomputeParityPatterns machine !! k) <->
  0 <= p < JS.shl 1 (Z.of_nat (length (buttons machine))) /\
  computeParity p machine (length (joltage machine)) = k.
Proof.
  unfold precomputeParityPatterns. rewrite table_fold, lookup_empty. simpl.
  rewrite elem_of_seqZ. split.
  - intros [H|[H1 H2]]; [inversion H|]. split; [lia|exact H2].
  - intros [H1 H2]. right. split; [lia|exact H2].
Qed.

Lemma table_exact machine :
  exactPatterns machine ->
  forall k l p, precomputeParityPatterns machine !! k = Some l -> p ∈ l ->
    countBits p = selected p 0 (length (buttons machine)).
Proof.
  intros Hex k l p Hl Hp. apply Hex.
  assert (Hin : p ∈ default [] (precomputeParityPatterns machine !! k))
    by (rewrite Hl; exact Hp).
  apply table_spec in Hin as [Hr _]. apply elem_of_seqZ. lia.
Qed.

(** The parity mask of a target is the parity a pattern produces as soon
    as they agree counter by counter. *)
Lemma parity_agree machine mask : forall tgt from acc,
  (forall (k : nat) t, tgt !! k = Some t ->
     Z.odd t = Z.odd (countTouching machine mask (from + k))) ->
  targetParityFrom tgt from acc
  = computeParityFrom machine mask from (length tgt) acc.
Proof.
  induction tgt as [|t tgt IH]; intros from acc H; simpl; [reflexivity|].
  rewrite !band_1_odd. rewrite (H 0%nat t eq_refl), Nat.add_0_r.
  apply IH. intros k t' Hk.
  replace (S from + k)%nat with (from + S k)%nat by lia. apply H, Hk.
Qed.

(** ** Splitting a press vector into its low bits and its halves *)

Lemma parityMask_range p : 0 <= parityMask p < 2 ^ Z.of_nat (length p).
Proof.
  induction p as [|x p IH]; [simpl; lia|].
  cbn [parityMask length]. rewrite Nat2Z.inj_succ, Z.pow_succ_r by lia.
  pose proof (Z.mod_pos_bound x 2 ltac:(lia)). lia.
Qed.

Lemma parityMask_testbit : forall p (k : nat) x,
  p !! k = Some x -> Z.testbit (parityMask p) (Z.of_nat k) = Z.odd x.
Proof.
  induction p as [|y p IH]; intros k x Hk; [discriminate|].
  cbn [parityMask]. rewrite Zmod_odd.
  replace ((if Z.odd y then 1 else 0) + 2 * parityMask p)
    with (2 * parityMask p + Z.b2z (Z.odd y)) by (destruct (Z.odd y); simpl; lia).
  destruct k as [|k]; simpl in Hk.
  - injection Hk as ->. apply Z.testbit_0_r.
  - rewrite Nat2Z.inj_succ, Z.testbit_succ_r by lia. apply IH, Hk.
Qed.

Lemma parityMask_bitSet p (k : nat) x :
  (length p <= 30)%nat -> p !! k = Some x ->
  bitSet (parityMask p) k = Z.odd x.
Proof.
  intros Hlen Hk. pose proof (parityMask_range p) as Hr.
  assert (2 ^ Z.of_nat (length p) <= 2 ^ 30) by (apply Z.pow_le_mono_r; lia).
  apply lookup_lt_Some in Hk as Hlt.
  rewrite bitSet_testbit by lia. apply parityMask_testbit, Hk.
Qed.

Lemma countFrom_lowBits mask j bs : forall (b : nat) (p : list Z),
  length p = length bs ->
  (forall (k : nat) x, p !! k = Some x -> bitSet mask (b + k) = Z.odd x) ->
  countFrom bs b mask j 0 = counterSum bs ((fun x => x mod 2) <$> p) j.
Proof.
  induction bs as [|button bs IH]; intros b p Hlen Hbits; [reflexivity|].
  destruct p as [|x p]; [discriminate|]. injection Hlen as Hlen.
  simpl. rewrite countFrom_acc.
  rewrite (IH (S b) p Hlen).
  2:{ intros k y Hk. replace (S b + k)%nat with (b + S k)%nat by lia.
      apply Hbits, Hk. }
  pose proof (Hbits 0%nat x eq_refl) as H0. rewrite Nat.add_0_r in H0.
  rewrite H0, Zmod_odd.
  destruct (Z.odd x), (includes button j); reflexivity.
Qed.

Lemma selected_lowBits mask : forall (p : list Z) (b : nat),
  (forall (k : nat) x, p !! k = Some x -> bitSet mask (b + k) = Z.odd x) ->
  selected mask b (length p) = sumPresses ((fun x => x mod 2) <$> p).
Proof.
  induction p as [|x p IH]; intros b Hbits; [reflexivity|].
  rewrite fmap_cons, sumPresses_cons. simpl.
  rewrite (IH (S b)).
  2:{ intros k y Hk. replace (S b + k)%nat with (b + S k)%nat by lia.
      apply Hbits, Hk. }
  pose proof (Hbits 0%nat x eq_refl) as H0. rewrite Nat.add_0_r in H0.
  rewrite H0, Zmod_odd. reflexivity.
Qed.

Lemma counterSum_split j bs : forall p : list Z,
  counterSum bs p j
  = 2 * counterSum bs ((fun x => x / 2) <$> p) j
    + counterSum bs ((fun x => x mod 2) <$> p) j.
Proof.
  induction bs as [|button bs IH]; intros p; [reflexivity|].
  destruct p as [|x p]; [reflexivity|].
  rewrite !fmap_cons. cbn [counterSum]. rewrite (IH p).
  pose proof (Z.div_mod x 2 ltac:(lia)).
  destruct (includes button j); lia.
Qed.

Lemma sumPresses_split : forall p : list Z,
  sumPresses p
  = 2 * sumPresses ((fun x => x / 2) <$> p)
    + sumPresses ((fun x => x mod 2) <$> p).
Proof.
  induction p as [|x p IH]; [reflexivity|].
  rewrite !fmap_cons, !sumPresses_cons, IH.
  pose proof (Z.div_mod x 2 ltac:(lia)). lia.
Qed.

Lemma sumPresses_nonneg p : Forall (fun x => 0 <= x) p -> 0 <= sumPresses p.
Proof.
  induction 1 as [|x p Hx _ IH]; [reflexivity|].
  rewrite sumPresses_cons. lia.
Qed.

Lemma counterSum_nonneg j bs : forall p,
  Forall (fun x => 0 <= x) p -> 0 <= counterSum bs p j.
Proof.
  induction bs as [|button bs IH]; intros p Hp; [reflexivity|].
  destruct Hp as [|x p Hx Hp]; [reflexivity|]. simpl.
  specialize (IH p Hp). destruct (includes button j); lia.
Qed.

(** Halving a press vector that reaches [tgt] gives one that reaches the
    new target of its low-bit pattern. *)
Lemma reaches_halves machine p tgt :
  (length (buttons machine) <= 30)%nat ->
  reaches machine p tgt ->
  exists nt,
    applyPattern (parityMask p) tgt machine = Some nt /\
    reaches machine ((fun x => x / 2) <$> p) nt /\
    forall (k : nat) t, tgt !! k = Some t ->
      Z.odd t = Z.odd (countTouching machine (parityMask p) k).
Proof.
  intros HB (Hlen & Hpos & Hsum).
  set (q := (fun x => x / 2) <$> p).
  assert (Hq : Forall (fun x => 0 <= x) q).
  { unfold q. rewrite Forall_fmap. eapply Forall_impl; [exact Hpos|].
    intros x Hx. simpl in *. apply Z.div_pos; lia. }
  assert (Hcount : forall j : nat,
    countTouching machine (parityMask p) j
    = counterSum (buttons machine) ((fun x => x mod 2) <$> p) (Z.of_nat j)).
  { intros j. unfold countTouching.
    apply countFrom_lowBits; [exact Hlen|].
    intros k x Hk. simpl. apply parityMask_bitSet; [lia|exact Hk]. }
  assert (Heq : forall (k : nat) t, tgt !! k = Some t ->
    t = 2 * counterSum (buttons machine) q (Z.of_nat k)
        + countTouching machine (parityMask p) k).
  { intros k t Hk. rewrite Hcount. rewrite <- (Hsum k t Hk).
    apply counterSum_split. }
  exists ((fun j : nat => counterSum (buttons machine) q (Z.of_nat j))
          <$> seq 0 (length tgt)).
  split; [|split].
  - apply applyPatternFrom_complete.
    + rewrite length_fmap, length_seq. reflexivity.
    + intros k t Hk. eexists. split; [|split].
      * rewrite list_lookup_fmap, lookup_seq_lt by (eapply lookup_lt_Some, Hk).
        reflexivity.
      * apply counterSum_nonneg, Hq.
      * simpl. apply Heq, Hk.
  - split; [unfold q; rewrite length_fmap; exact Hlen|]. split; [exact Hq|].
    intros j t Hj. rewrite list_lookup_fmap in Hj.
    destruct (seq 0 (length tgt) !! j) as [j'|] eqn:Hseq; [|discriminate].
    apply lookup_seq in Hseq as [-> _]. simpl in Hj. injection Hj as <-.
    reflexivity.
  - intros k t Hk. rewrite (Heq k t Hk) at 1.
    rewrite Z.odd_add, Z.odd_mul. reflexivity.
Qed.

(** ** The loop keeps the cheapest candidate *)

Lemma better_cost pattern sub best :
  (forall bc, cost best = Some bc ->
     exists c, cost (better pattern sub best) = Some c /\ c <= bc) /\
  (forall c s, cost sub = Some c -> solution sub = Some s ->
     exists c', cost (better pattern sub best) = Some c' /\
                c' <= countBits pattern + 2 * c).
Proof.
  unfold better. split.
  - intros bc Hbc. destruct (cost sub) as [c|]; [|eauto with lia].
    destruct (solution sub) as [s|]; [|eauto with lia].
    rewrite Hbc. destruct (Z.ltb_spec (countBits pattern + 2 * c) bc);
      simpl; eauto with lia.
  - intros c s -> ->. destruct (cost best) as [bc|] eqn:Hbc.
    + destruct (Z.ltb_spec (countBits pattern + 2 * c) bc);
        simpl; eauto with lia.
    + simpl. eauto with lia.
Qed.

Lemma tryPatternsPlain_min machine rec tgt : forall pats best r,
  tryPatternsPlain machine rec pats tgt best = Some r ->
  (forall bc, cost best = Some bc -> exists c, cost r = Some c /\ c <= bc) /\
  (forall p nt, p ∈ pats -> applyPattern p tgt machine = Some nt ->
     exists sub, rec nt = Some sub /\
       forall c s, cost sub = Some c -> solution sub = Some s ->
         exists c', cost r = Some c' /\ c' <= countBits p + 2 * c).
Proof.
  induction pats as [|p pats IH]; intros best r H; simpl in H.
  - injection H as <-. split; [eauto with lia|]. intros p nt Hin. inversion Hin.
  - destruct (applyPattern p tgt machine) as [nt|] eqn:Hap.
    + destruct (rec nt) as [sub|] eqn:Hsub; [|discriminate].
      destruct (IH _ _ H) as [Hbest Hrest].
      destruct (better_cost p sub best) as [Hb1 Hb2].
      split.
      * intros bc Hbc. destruct (Hb1 bc Hbc) as (c1 & Hc1 & Hle1).
        destruct (Hbest c1 Hc1) as (c2 & Hc2 & Hle2). eauto with lia.
      * intros p' nt' Hin Hap'. apply elem_of_cons in Hin as [->|Hin].
        -- rewrite Hap in Hap'. injection Hap' as <-.
           exists sub. split; [exact Hsub|]. intros c s Hc Hs.
           destruct (Hb2 c s Hc Hs) as (c1 & Hc1 & Hle1).
           destruct (Hbest c1 Hc1) as (c2 & Hc2 & Hle2). eauto with lia.
        -- apply Hrest; assumption.
    + destruct (IH _ _ H) as [Hbest Hrest]. split; [exact Hbest|].
      intros p' nt' Hin Hap'. apply elem_of_cons in Hin as [->|Hin].
      * congruence.
      * apply Hrest; assumption.
Qed.

(** ** Optimality of the plain recursion *)

Lemma plain_optimal machine :
  (length (buttons machine) <= 30)%nat ->
  forall fuel tgt r p,
    length tgt = length (joltage machine) ->
    solveRecursivePlain machine (precomputeParityPatterns machine) fuel tgt
      = Some r ->
    reaches machine p tgt ->
    exists c, cost r = Some c /\ c <= sumPresses p.
Proof.
  intros HB. induction fuel as [|fuel IH]; intros tgt r p Hlen Hr Hp;
    [discriminate|].
  rewrite plain_unfold in Hr.
  destruct (forallb _ tgt) eqn:Hz.
  { injection Hr as <-. exists 0. split; [reflexivity|].
    apply sumPresses_nonneg, Hp. }
  destruct (reaches_halves machine p tgt HB Hp) as (nt & Hap & Hq & Hodd).
  pose proof (parityMask_range p) as Hrange.
  destruct Hp as (Hplen & Hppos & Hpsum).
  assert (Hin : parityMask p ∈
    default [] (precomputeParityPatterns machine !! targetParity tgt)).
  { apply table_spec. split.
    - rewrite shl_1_small by exact HB. rewrite <- Hplen. exact Hrange.
    - unfold targetParity, computeParity. rewrite <- Hlen.
      symmetry. apply parity_agree. intros k t Hk. apply Hodd, Hk. }
  destruct (precomputeParityPatterns machine !! targetParity tgt)
    as [patterns|]; [|inversion Hin].
  simpl in Hin. destruct patterns as [|p0 pats]; [inversion Hin|].
  destruct (tryPatternsPlain_min _ _ _ _ _ _ Hr) as [_ Hmin].
  destruct (Hmin _ _ Hin Hap) as (sub & Hsub & Hcost).
  assert (Hntlen : length nt = length (joltage machine)).
  { apply applyPatternFrom_Some in Hap as [Hl _]. lia. }
  destruct (IH nt sub _ Hntlen Hsub Hq) as (c & Hc & Hle).
  pose proof (plain_sound _ _ _ _ _ Hsub) as Hsound.
  unfold soundResult in Hsound. rewrite Hc in Hsound.
  destruct (solution sub) as [s|] eqn:Hs; [|contradiction].
  destruct (Hcost c s Hc eq_refl) as (c' & Hc' & Hle').
  exists c'. split; [exact Hc'|].
  assert (Hbits : countBits (parityMask p)
                  = sumPresses ((fun x => x mod 2) <$> p)).
  { unfold countBits.
    rewrite (countBitsLoop_selected 33 (length p)) by lia.
    rewrite (selected_lowBits _ p 0); [lia|].
    intros k x Hk. apply parityMask_bitSet; [lia|exact Hk]. }
  rewrite (sumPresses_split p). lia.
Qed.

(** ** The reduction solver: what [solveMachineJoltage] returns *)

Lemma solveMachineJoltage_plain machine fuel :
  joltage machine <> [] ->
  (depthBound (joltage machine) <= fuel)%nat ->
  exists r,
    solveRecursivePlain machine (precomputeParityPatterns machine) fuel
      (joltage machine) = Some r /\
    solveMachineJoltage machine fuel = Some (solution r).
Proof.
  intros Hne Hfuel. unfold solveMachineJoltage.
  destruct (joltage machine) as [|t tgt] eqn:Hj; [congruence|].
  simpl Nat.eqb. cbv iota.
  destruct (memoized_plain machine (precomputeParityPatterns machine)
              fuel (t :: tgt) Hfuel) as (r & memo' & Hm & Hp).
  exists r. rewrite Hm. auto.
Qed.

Lemma solveMachineJoltage_empty machine fuel :
  joltage machine = [] ->
  solveMachineJoltage machine fuel
  = Some (Some (replicate (length (buttons machine)) 0)).
Proof. intros H. unfold solveMachineJoltage. rewrite H. reflexivity. Qed.

Lemma solveMachineJoltage_sound machine fuel s :
  solveMachineJoltage machine fuel = Some (Some s) ->
  reaches machine s (joltage machine).
Proof.
  unfold solveMachineJoltage. intros H.
  destruct (joltage machine) as [|t tgt] eqn:Hj.
  - simpl in H. injection H as <-. apply reaches_zero. reflexivity.
  - simpl Nat.eqb in H. cbv iota in H.
    destruct (solveRecursive _ _ fuel ∅ (t :: tgt)) as [[r memo']|] eqn:Hr;
      [|discriminate].
    injection H as Hs.
    destruct (memoized_sound _ _ _ _ _ _ _ (memoSound_empty _ _) Hr)
      as [[depth Hd] _].
    pose proof (plain_sound _ _ _ _ _ (Hd depth (Nat.le_refl _))) as Hsound.
    unfold soundResult in Hsound. rewrite Hs in Hsound.
    destruct (cost r); [exact Hsound|contradiction].
Qed.

Lemma counterSum_untouched j bs : forall p,
  existsb (fun button => includes button j) bs = false ->
  counterSum bs p j = 0.
Proof.
  induction bs as [|button bs IH]; intros p H; [reflexivity|].
  simpl in H. apply orb_false_iff in H as [Hb Hrest].
  destruct p as [|x p]; [reflexivity|]. simpl.
  rewrite Hb, (IH p Hrest). reflexivity.
Qed.

Lemma plainResult_invariant machine tgt r :
  (length (buttons machine) <= 32)%nat ->
  plainResult machine (precomputeParityPatterns machine) tgt r ->
  resultInvariant r.
Proof.
  intros HB [depth Hd]. specialize (Hd depth (Nat.le_refl _)).
  pose proof (plain_sound _ _ _ _ _ Hd) as Hsound.
  pose proof (plain_cost _ _ _ _ _
                (table_exact machine (exactPatterns_upto32 machine HB)) Hd)
    as Hcost.
  unfold soundResult in Hsound. unfold resultInvariant.
  destruct (cost r) as [c|], (solution r) as [s|]; try contradiction; auto.
  split; [apply Hcost|apply Hsound].
Qed.

Lemma solveMachineJoltage_spec machine fuel :
  (length (buttons machine) <= 30)%nat ->
  (depthBound (joltage machine) <= fuel)%nat ->
  match solveMachineJoltage machine fuel with
  | Some (Some s) =>
      reaches machine s (joltage machine) /\
      forall p, reaches machine p (joltage machine) ->
                sumPresses s <= sumPresses p
  | Some None => forall p, ~ reaches machine p (joltage machine)
  | None => False
  end.
Proof.
  intros HB Hfuel.
  destruct (joltage machine) as [|t0 tgt0] eqn:Hj.
  { rewrite solveMachineJoltage_empty by exact Hj.
    split; [apply reaches_zero; reflexivity|].
    intros p Hp. rewrite sumPresses_replicate.
    apply sumPresses_nonneg, Hp. }
  rewrite <- Hj in *.
  destruct (solveMachineJoltage_plain machine fuel) as (r & Hplain & Hres);
    [congruence|exact Hfuel|].
  pose proof (solveMachineJoltage_sound machine fuel) as Hsound.
  rewrite Hres in *.
  assert (Hinv : resultInvariant r).
  { apply (plainResult_invariant machine (joltage machine)); [lia|].
    eapply plainResult_intro, Hplain. }
  unfold resultInvariant in Hinv.
  destruct (solution r) as [s|] eqn:Hs.
  - split; [apply Hsound; reflexivity|]. intros p Hp.
    destruct (plain_optimal machine HB _ _ _ p eq_refl Hplain Hp)
      as (c & Hc & Hle).
    rewrite Hc in Hinv. destruct Hinv as [-> _]. exact Hle.
  - intros p Hp.
    destruct (plain_optimal machine HB _ _ _ p eq_refl Hplain Hp)
      as (c & Hc & _).
    rewrite Hc in Hinv. exact Hinv.
Qed.



Lemma solveMachineJoltage_total machine fuel :
  (depthBound (joltage machine) <= fuel)%nat ->
  is_Some (solveMachineJoltage machine fuel).
Proof.
  intros Hfuel. destruct (joltage machine) as [|t tgt] eqn:Hj.
  - rewrite solveMachineJoltage_empty by exact Hj. eauto.
  - destruct (solveMachineJoltage_plain machine fuel) as (r & _ & ->);
      [congruence|rewrite Hj; exact Hfuel|eauto].
Qed.

(** C6 as stated fails: there is no short-circuit at the first level.  On
    [untouchedMachine], counter 0 must reach 4 and is touched by no button,
    yet a recursion limited to depth 1 or 2 has not answered; the null
    result is only found at depth 3, where the target of counter 0 has been
    halved to 1. *)
Lemma untouched_counter_found_deep :
  joltage untouchedMachine !! 0%nat = Some 4 /\
  existsb (fun button => includes button 0) (buttons untouchedMachine)
    = false /\
  solveMachineJoltage untouchedMachine 1 = None /\
  solveMachineJoltage untouchedMachine 2 = None /\
  solveMachineJoltage untouchedMachine 3 = Some None.
Proof. repeat split; vm_compute; reflexivity. Qed.



(** ** Parsing: when a line is rejected *)

Lemma spanClass_sound cls : forall s group after,
  spanClass cls s = (group, after) ->
  s = group +:+ after /\ allChars cls group.
Proof.
  induction s as [|c s IH]; intros group after H; simpl in H.
  - injection H as <- <-. split; [reflexivity|exact I].
  - destruct (cls c) eqn:Hc.
    + destruct (spanClass cls s) as [g a] eqn:Hs. injection H as <- <-.
      destruct (IH g a eq_refl) as [-> Hall].
      split; [reflexivity|]. split; [exact Hc|exact Hall].
    + injection H as <- <-. split; [reflexivity|exact I].
Qed.

Lemma spanClass_complete cls c after : forall group,
  allChars cls group -> cls c = false ->
  spanClass cls (group +:+ String c after) = (group, String c after).
Proof.
  induction group as [|g group IH]; intros Hall Hc.
  - rewrite append_nil_l. simpl. rewrite Hc. reflexivity.
  - destruct Hall as [Hg Hall]. rewrite append_cons. simpl.
    rewrite Hg, (IH Hall Hc). reflexivity.
Qed.

Lemma matchHere_sound opn cls close s group after :
  matchHere opn cls close s = Some (group, after) ->
  s = String opn (group +:+ String close after) /\
  group <> EmptyString /\ allChars cls group.
Proof.
  unfold matchHere. destruct s as [|c s]; [discriminate|].
  destruct (Ascii.eqb_spec c opn) as [->|]; [|discriminate].
  destruct (spanClass cls s) as [[|g grp] [|c' aft]] eqn:Hs; try discriminate.
  destruct (Ascii.eqb_spec c' close) as [->|]; [|discriminate].
  intros H. injection H as <- <-.
  destruct (spanClass_sound _ _ _ _ Hs) as [-> Hall].
  split; [reflexivity|]. split; [discriminate|exact Hall].
Qed.

Lemma matchHere_complete opn cls close group after :
  cls close = false -> group <> EmptyString -> allChars cls group ->
  matchHere opn cls close (String opn (group +:+ String close after))
  = Some (group, after).
Proof.
  intros Hclose Hne Hall. unfold matchHere.
  rewrite Ascii.eqb_refl, (spanClass_complete _ _ _ _ Hall Hclose).
  destruct group as [|g group]; [congruence|].
  rewrite Ascii.eqb_refl. reflexivity.
Qed.

Lemma firstMatch_sound opn cls close : forall s group after,
  firstMatch opn cls close s = Some (group, after) ->
  exists before,
    s = before +:+ String opn (group +:+ String close after) /\
    group <> EmptyString /\ allChars cls group.
Proof.
  induction s as [|c s IH]; intros group after H.
  - discriminate.
  - cbn [firstMatch] in H.
    destruct (matchHere opn cls close (String c s)) as [m|] eqn:Hm.
    + injection H as ->. exists EmptyString.
      rewrite append_nil_l. apply matchHere_sound, Hm.
    + destruct (IH _ _ H) as (before & -> & Hrest).
      exists (String c before). rewrite append_cons. auto.
Qed.

Lemma firstMatch_complete opn cls close group after :
  cls close = false -> group <> EmptyString -> allChars cls group ->
  forall before,
    is_Some (firstMatch opn cls close
               (before +:+ String opn (group +:+ String close after))).
Proof.
  intros Hclose Hne Hall. induction before as [|c before IH].
  - rewrite append_nil_l. cbn [firstMatch].
    rewrite (matchHere_complete _ _ _ _ _ Hclose Hne Hall). eauto.
  - rewrite append_cons. cbn [firstMatch].
    destruct (matchHere opn cls close _); [eauto|exact IH].
Qed.

Lemma length_append (s1 s2 : string) :
  String.length (s1 +:+ s2) = (String.length s1 + String.length s2)%nat.
Proof.
  induction s1 as [|c s1 IH]; [reflexivity|].
  rewrite append_cons. simpl. rewrite IH. reflexivity.
Qed.

Lemma firstMatch_shorter opn cls close s group after :
  firstMatch opn cls close s = Some (group, after) ->
  (String.length after < String.length s)%nat.
Proof.
  intros H. destruct (firstMatch_sound _ _ _ _ _ _ H) as (before & -> & _).
  rewrite length_append. simpl. rewrite length_append. simpl. lia.
Qed.

(** The bound on the number of matches that [parseLine] gives to
    [allMatches] is enough: a larger one finds the same matches. *)
Lemma allMatches_enough opn cls close : forall n s k,
  (String.length s <= n)%nat ->
  allMatches (n + k) opn cls close s = allMatches n opn cls close s.
Proof.
  induction n as [|n IH]; intros s k Hlen.
  - destruct s; [|simpl in Hlen; lia]. destruct k; reflexivity.
  - simpl. destruct (firstMatch opn cls close s) as [[group after]|] eqn:Hm;
      [|reflexivity].
    apply firstMatch_shorter in Hm. rewrite IH by lia. reflexivity.
Qed.

Lemma parseLine_pattern line :
  match parseLine line with
  | Throw msg => ~ hasLightPattern line /\ msg = ("Invalid pattern: " +:+ line)%string
  | Return _ => hasLightPattern line
  end.
Proof.
  unfold parseLine.
  destruct (firstMatch "[" isPatternChar "]" line) as [[pattern after]|] eqn:Hm.
  - destruct (firstMatch_sound _ _ _ _ _ _ Hm) as (before & Hline & Hne & Hall).
    exists before, pattern, after. auto.
  - split; [|reflexivity]. intros (before & pattern & after & -> & Hne & Hall).
    destruct (firstMatch_complete "[" isPatternChar "]" pattern after
                eq_refl Hne Hall before) as [m Hsome].
    congruence.
Qed.

Lemma parseLines_pattern : forall lines,
  match parseLines lines with
  | Throw msg =>
      exists accepted line rest,
        lines = accepted ++ line :: rest /\
        Forall hasLightPattern accepted /\ ~ hasLightPattern line /\
        msg = ("Invalid pattern: " +:+ line)%string
  | Return machines =>
      Forall hasLightPattern lines /\ length machines = length lines
  end.
Proof.
  induction lines as [|line lines IH]; simpl; [auto|].
  pose proof (parseLine_pattern line) as Hline.
  destruct (parseLine line) as [machine|msg].
  - destruct (parseLines lines) as [machines|msg].
    + destruct IH as [Hall Hlen]. split; [constructor; assumption|].
      simpl. rewrite Hlen. reflexivity.
    + destruct IH as (accepted & bad & rest & -> & Hall & Hbad & ->).
      exists (line :: accepted), bad, rest.
      split; [reflexivity|]. split; [constructor; assumption|]. auto.
  - destruct Hline as [Hbad ->]. exists [], line, lines. auto.
Qed.

(** C8, amended: a line without a bracketed light pattern is detected at
    parse time and reported at once: [parseInput] throws
    [Invalid pattern: <line>] for the first line (trimmed, not empty) that
    has no pattern, and returns one machine per line exactly when every
    line has one.  Nothing else is reported: the button groups and the
    joltage list are taken where the text matches them. *)
Theorem missing_pattern_reported input :
  match parseInput input with
  | Throw msg =>
      exists accepted line rest,
        inputLines input = accepted ++ line :: rest /\
        Forall hasLightPattern accepted /\ ~ hasLightPattern line /\
        msg = ("Invalid pattern: " +:+ line)%string
  | Return machines =>
      Forall hasLightPattern (inputLines input) /\
      length machines = length (inputLines input)
  end.
Proof. apply parseLines_pattern. Qed.

(** C8 as stated fails: a button group with a non-numeric index is not
    reported, it is dropped, and an empty index is read as index 0. *)
Lemma malformed_button_not_reported :
  parseInput "[#] (x) (1,,2)" = Return [mkMachine [true] [[1; 0; 2]] []].
Proof. vm_compute. reflexivity. Qed.

(** ** The batch aggregators *)

Lemma sumCosts_cons c costs : sumCosts (c :: costs) = c + sumCosts costs.
Proof. apply sumPresses_cons. Qed.

Lemma solvePart1From_costs : forall solved costs rest total,
  Forall2 (fun m c => solveMachineLights m = JS.Int c /\ c <> -1)
    solved costs ->
  solvePart1From (solved ++ rest) (JS.Int total)
  = solvePart1From rest (JS.Int (total + sumCosts costs)).
Proof.
  intros solved costs rest total H. revert total.
  induction H as [|m c solved costs [Hm Hc] _ IH]; intros total.
  - simpl. unfold sumCosts. simpl. rewrite Z.add_0_r. reflexivity.
  - simpl. rewrite Hm, sumCosts_cons.
    replace (total + (c + sumCosts costs)) with (total + c + sumCosts costs)
      by lia.
    rewrite <- IH. destruct c as [|q|[q|q|]]; try reflexivity. congruence.
Qed.

Lemma solvePart2From_costs fuel : forall solved costs rest total,
  Forall2 (fun m c => exists s, solveMachineJoltage m fuel = Some (Some s) /\
                                sumPresses s = c) solved costs ->
  solvePart2From fuel (solved ++ rest) total
  = solvePart2From fuel rest (total + sumCosts costs).
Proof.
  intros solved costs rest total H. revert total.
  induction H as [|m c solved costs (s & Hm & Hc) _ IH]; intros total.
  - simpl. unfold sumCosts. simpl. rewrite Z.add_0_r. reflexivity.
  - simpl. rewrite Hm, sumCosts_cons, Hc.
    replace (total + (c + sumCosts costs)) with (total + c + sumCosts costs)
      by lia.
    apply IH.
Qed.

Lemma lights_costs : forall solved,
  Forall (fun m => (length (buttons m) <= 30)%nat) solved ->
  Forall (fun m => exists x, lightsMatch m x) solved ->
  exists costs,
    Forall2 minimalLights solved costs /\
    Forall2 (fun m c => solveMachineLights m = JS.Int c /\ c <> -1)
      solved costs.
Proof.
  induction solved as [|m solved IH]; intros HB Hs.
  - exists []. split; constructor.
  - apply Forall_cons in HB as [HBm HB]. apply Forall_cons in Hs as [[x Hx] Hs].
    destruct (IH HB Hs) as (costs & Hmin & Hout).
    destruct (solveMachineLights_spec m HBm)
      as [[_ Hno]|(x0 & Hx0 & Heq & Hne & Hmin0)]; [destruct (Hno x Hx)|].
    exists (weight x0 :: costs). split; constructor; auto.
    + exists x0. auto.
    + split; [exact Heq|]. congruence.
Qed.

Lemma joltage_costs fuel : forall solved,
  Forall (withinLimits fuel) solved ->
  Forall (fun m => exists p, reaches m p (joltage m)) solved ->
  exists costs,
    Forall2 minimalJoltage solved costs /\
    Forall2 (fun m c => exists s, solveMachineJoltage m fuel = Some (Some s) /\
                                  sumPresses s = c) solved costs.
Proof.
  induction solved as [|m solved IH]; intros HB Hs.
  - exists []. split; constructor.
  - apply Forall_cons in HB as [[HBm Hfuel] HB].
    apply Forall_cons in Hs as [[p Hp] Hs].
    destruct (IH HB Hs) as (costs & Hmin & Hout).
    pose proof (solveMachineJoltage_spec m fuel HBm Hfuel) as Hspec.
    destruct (solveMachineJoltage m fuel) as [[s|]|] eqn:Hrun;
      [|destruct (Hspec p Hp)|contradiction].
    destruct Hspec as [Hreach Hopt].
    exists (sumPresses s :: costs). split; constructor; auto.
    + exists s. auto.
    + exists s. auto.
Qed.

Lemma fixture_withinLimits : Forall (withinLimits 5) (fixture ++ [stuckMachine]).
Proof. repeat constructor; vm_compute; lia. Qed.

Lemma fixture_lights_solvable : Forall (fun m => exists x, lightsMatch m x) fixture.
Proof.
  repeat constructor.
  - destruct (solveMachineLights_spec fixture1) as [[H _]|(x & Hx & _)];
      [vm_compute; lia|vm_compute in H; discriminate|eauto].
  - destruct (solveMachineLights_spec fixture2) as [[H _]|(x & Hx & _)];
      [vm_compute; lia|vm_compute in H; discriminate|eauto].
  - destruct (solveMachineLights_spec fixture3) as [[H _]|(x & Hx & _)];
      [vm_compute; lia|vm_compute in H; discriminate|eauto].
Qed.

Lemma fixture_joltage_solvable :
  Forall (fun m => exists p, reaches m p (joltage m)) fixture.
Proof.
  repeat constructor; eexists;
    apply (solveMachineJoltage_sound _ 5); vm_compute; reflexivity.
Qed.

Lemma stuckMachine_unsolvable :
  (forall x, ~ lightsMatch stuckMachine x) /\
  (forall p, ~ reaches stuckMachine p (joltage stuckMachine)).
Proof.
  split.
  - destruct (solveMachineLights_spec stuckMachine)
      as [[_ H]|(x & _ & _ & Hne & _)]; [vm_compute; lia|exact H|].
    exfalso. apply Hne. vm_compute. reflexivity.
  - pose proof (solveMachineJoltage_spec stuckMachine 5) as H.
    assert (Hrun : solveMachineJoltage stuckMachine 5 = Some None)
      by (vm_compute; reflexivity).
    rewrite Hrun in H. apply H; vm_compute; lia.
Qed.

(** ** The fixture of the source's test *)

Lemma solveMachineJoltage_fuel machine fuel fuel' :
  (depthBound (joltage machine) <= fuel)%nat -> (fuel <= fuel')%nat ->
  solveMachineJoltage machine fuel' = solveMachineJoltage machine fuel.
Proof.
  intros Hfuel Hle. destruct (joltage machine) as [|t tgt] eqn:Hj.
  - rewrite !solveMachineJoltage_empty by exact Hj. reflexivity.
  - destruct (solveMachineJoltage_plain machine fuel) as (r & Hr & ->);
      [congruence|rewrite Hj; exact Hfuel|].
    destruct (solveMachineJoltage_plain machine fuel') as (r' & Hr' & ->);
      [congruence|rewrite Hj in *; lia|].
    rewrite (plain_deterministic _ _ _ _ _ _ _ Hr Hr'). reflexivity.
Qed.

(** C4: the three-machine fixture parses to the three machines, the
    toggle minima add up to 7 and, with fuel for the recursion, the
    reduction minima add up to 33. *)
Theorem fixture_totals fuel :
  (5 <= fuel)%nat ->
  parseInput exampleInput = Return fixture /\
  solvePart1 fixture = Return (JS.Int 7) /\
  solvePart2 fuel fixture = Some (Return 33).
Proof.
  intros Hfuel. split; [vm_compute; reflexivity|].
  split; [vm_compute; reflexivity|].
  unfold solvePart2, fixture. cbn [solvePart2From].
  rewrite (solveMachineJoltage_fuel fixture1 5 fuel) by (vm_compute; lia).
  rewrite (solveMachineJoltage_fuel fixture2 5 fuel) by (vm_compute; lia).
  rewrite (solveMachineJoltage_fuel fixture3 5 fuel) by (vm_compute; lia).
  vm_compute. reflexivity.
Qed.

Lemma fixture_totals_witness :
  parseInput exampleInput = Return fixture /\
  solvePart1 fixture = Return (JS.Int 7) /\
  solvePart2 5 fixture = Some (Return 33).
Proof. apply (fixture_totals 5). lia. Defined.

(** * Further properties of the code *)

(** ** The toggle solver on every machine *)

Lemma weight_le_length x : weight x <= Z.of_nat (length x).
Proof.
  unfold weight. apply inj_le. apply length_filter.
Qed.

Lemma weight_replicate_false n : weight (replicate n false) = 0.
Proof.
  unfold weight. induction n as [|n IH]; [reflexivity|].
  simpl replicate. rewrite filter_cons_False by discriminate. exact IH.
Qed.

Lemma toggled_none_pressed i : forall bs,
  toggled bs (replicate (length bs) false) i = false.
Proof.
  induction bs as [|button bs IH]; [reflexivity|]. simpl. exact IH.
Qed.

Lemma solveMachineLights_result machine :
  match solveMachineLights machine with
  | JS.Int n =>
      if n =? -1 then forall x, ~ lightsMatch machine x
      else exists x, lightsMatch machine x /\ weight x = n /\
                     0 <= n <= Z.of_nat (length (buttons machine))
  | JS.Infinity =>
      (exists x, lightsMatch machine x) /\
      (30 < length (buttons machine))%nat
  end.
Proof.
  destruct (le_lt_dec (length (buttons machine)) 30) as [HB|HB].
  - destruct (solveMachineLights_spec machine HB)
      as [[-> Hno]|(x & Hx & Heq & Hne & _)]; [exact Hno|].
    rewrite Heq. pose proof (weight_nonneg x). pose proof (weight_le_length x).
    destruct (Z.eqb_spec (weight x) (-1)); [lia|].
    exists x. destruct Hx as [Hlen Hx]. rewrite <- Hlen.
    split; [split; assumption|]. lia.
  - unfold solveMachineLights.
    destruct (inconsistent _ (gaussianElimination machine)) eqn:Hinc.
    + simpl. intros x. apply inconsistent_unsolvable, Hinc.
    + set (fvs := freeVarsOf _ _).
      set (masks := seqZ 0 _).
      destruct (tryMask_fold (length (buttons machine))
                  (gaussianElimination machine) fvs masks JS.Infinity)
        as (Hsel & _ & _).
      destruct Hsel as [->|(m & _ & ->)].
      * split; [|lia]. exists (solutionFor (length (buttons machine))
                  (gaussianElimination machine) fvs 0).
        apply solutionFor_matches, Hinc.
      * pose proof (solutionFor_matches machine m Hinc) as Hx.
        fold fvs in Hx.
        set (x := solutionFor (length (buttons machine))
                   (gaussianElimination machine) fvs m) in *.
        pose proof (weight_nonneg x). pose proof (weight_le_length x).
        destruct (Z.eqb_spec (weight x) (-1)); [lia|].
        exists x. destruct Hx as [Hlen Hx]. rewrite <- Hlen.
        split; [split; assumption|]. lia.
Qed.

(** X1: whatever the number of buttons, [solveMachineLights] never returns
    a wrong count: [-1] is returned only when no subset of the buttons
    produces the target, any other number is the size of a subset that
    does (so it lies between 0 and the number of buttons), and [Infinity]
    is returned only for a solvable machine with more than 30 buttons. *)
Theorem solveMachineLights_sound machine :
  match solveMachineLights machine with
  | JS.Int n =>
      if n =? -1 then forall x, ~ lightsMatch machine x
      else exists x, lightsMatch machine x /\ weight x = n /\
                     0 <= n <= Z.of_nat (length (buttons machine))
  | JS.Infinity =>
      (exists x, lightsMatch machine x) /\
      (30 < length (buttons machine))%nat
  end.
Proof. apply solveMachineLights_result. Qed.

Lemma lights_all_off machine :
  (length (buttons machine) <= 30)%nat ->
  forallb negb (target machine) = true ->
  solveMachineLights machine = JS.Int 0.
Proof.
  intros HB Hoff.
  assert (H0 : lightsMatch machine (replicate (length (buttons machine)) false)).
  { split; [apply length_replicate|]. intros i t Ht.
    rewrite toggled_none_pressed. rewrite forallb_forall in Hoff.
    apply list_elem_of_lookup_2, list_elem_of_In, Hoff in Ht.
    destruct t; [discriminate|reflexivity]. }
  destruct (solveMachineLights_spec machine HB)
    as [[_ Hno]|(x & _ & -> & _ & Hmin)]; [destruct (Hno _ H0)|].
  specialize (Hmin _ H0). rewrite weight_replicate_false in Hmin.
  pose proof (weight_nonneg x). f_equal. lia.
Qed.

(** X2: a machine whose target has every light off (in particular a
    machine without lights) needs no press: with at most 30 buttons
    [solveMachineLights] returns 0. *)
Theorem solveMachineLights_all_off machine :
  (length (buttons machine) <= 30)%nat ->
  forallb negb (target machine) = true ->
  solveMachineLights machine = JS.Int 0.
Proof. apply lights_all_off. Qed.

Lemma solveMachineLights_all_off_witness :
  solveMachineLights (mkMachine [false; false] [[0; 1]; [1]; [0]] [])
  = JS.Int 0.
Proof.
  apply solveMachineLights_all_off; [vm_compute; lia|reflexivity].
Defined.

(** ** The eliminated matrix *)

Lemma clear_pivot B m0 col st pr :
  Echelon B m0 col st -> pivotColumnsClear st -> (col < B)%nat ->
  findPivotRow (drop (rank st) (matrix st)) (rank st) col = Some pr ->
  pivotColumnsClear
    (mkElimination
       (eliminate (swapRows (matrix st) (rank st) pr) (rank st) col)
       (S (rank st)) (pivotCol st ++ [col])).
Proof.
  intros E Hclear Hcol Hfind. destruct st as [M rk pcs]. simpl in *.
  destruct (findPivotRow_Some _ _ _ _ Hfind) as [Hle (P & HP & HPcol)].
  rewrite lookup_drop in HP.
  replace (rk + (pr - rk))%nat with pr in HP by lia.
  apply lookup_lt_Some in HP as Hprlt.
  destruct (lookup_lt_is_Some_2 M rk) as [R HR]; [lia|].
  pose proof (ech_rows _ _ _ _ E) as Hrows. simpl in Hrows.
  rewrite Forall_lookup in Hrows.
  destruct (ech_rank _ _ _ _ E) as [Hrk _]. simpl in Hrk.
  assert (HPzero : forall c, (c < col)%nat -> truthy P c = false).
  { intros c Hc. apply (ech_below _ _ _ _ E pr P); simpl; auto. }
  assert (HPlen : length P = S B) by (eapply Hrows, HP).
  assert (HM1rk : swapRows M rk pr !! rk = Some P).
  { rewrite (swapRows_lookup M rk pr R P rk HR HP).
    destruct (decide (rk = pr)) as [Heq|Hne]; [subst pr; congruence|].
    destruct (decide (rk = rk)); [reflexivity|congruence]. }
  intros k pc k' row Hk Hkk Hrow. simpl in *.
  rewrite (eliminate_lookup _ _ _ _ _ HM1rk) in Hrow.
  rewrite (swapRows_lookup M rk pr R P k' HR HP) in Hrow.
  (* the row of the matrix that sits at [k'] after the swap *)
  assert (Hsrc : exists (k'' : nat) r1,
            M !! k'' = Some r1 /\
            ((k'' = k' /\ (k' < rk)%nat) \/ ((rk <= k')%nat /\ (rk <= k'')%nat)) /\
            row = if negb (k' =? rk)%nat && truthy r1 col
                  then xorRow r1 P else r1).
  { destruct (decide (k' = pr)) as [->|Hk1].
    - simpl in Hrow. injection Hrow as <-. exists rk, R.
      split; [exact HR|]. split; [right; lia|reflexivity].
    - destruct (decide (k' = rk)) as [->|Hk2].
      + simpl in Hrow. injection Hrow as <-. exists pr, P.
        split; [exact HP|]. split; [right; lia|reflexivity].
      + destruct (M !! k') as [r1|] eqn:Hr1; [|discriminate].
        simpl in Hrow. injection Hrow as <-. exists k', r1.
        split; [exact Hr1|]. split; [|reflexivity].
        destruct (le_lt_dec rk k'); [right; lia|left; lia]. }
  destruct Hsrc as (k'' & r1 & Hr1 & Hpos & ->).
  assert (Hr1len : length r1 = S B) by (eapply Hrows, Hr1).
  destruct (decide (k < length pcs)%nat) as [Hlt|Hge].
  - rewrite lookup_app_l in Hk by exact Hlt.
    destruct (ech_pivot _ _ _ _ E k pc Hk) as [Hpc _].
    assert (Hz : truthy r1 pc = false).
    { apply (Hclear k pc k'' r1 Hk); [|exact Hr1].
      destruct Hpos as [[-> _]|[_ Hge]]; [exact Hkk|lia]. }
    destruct (negb (k' =? rk)%nat && truthy r1 col); [|exact Hz].
    rewrite truthy_xorRow by lia. rewrite Hz, (HPzero pc Hpc). reflexivity.
  - rewrite lookup_app_r in Hk by lia.
    destruct (k - length pcs)%nat as [|d] eqn:Hd; [|discriminate].
    simpl in Hk. injection Hk as <-.
    assert (k = rk) by lia. subst k.
    destruct (Nat.eqb_spec k' rk) as [?|_]; [congruence|]. simpl.
    destruct (truthy r1 col) eqn:Hc; [|exact Hc].
    rewrite truthy_xorRow by lia. rewrite Hc, HPcol. reflexivity.
Qed.

Lemma gaussLoop_clear B m0 : forall n col st,
  (col + n = B)%nat -> Echelon B m0 col st -> pivotColumnsClear st ->
  pivotColumnsClear (gaussLoop (length m0) (seq col n) st).
Proof.
  induction n as [|n IH]; intros col st Hn E Hclear; simpl; [exact Hclear|].
  destruct (rank st <? length m0)%nat; [|exact Hclear].
  destruct (findPivotRow _ _ col) as [pr|] eqn:Hfind.
  - apply IH; [lia| |].
    + apply echelon_pivot; [exact E|lia|exact Hfind].
    + eapply clear_pivot; eauto. lia.
  - apply IH; [lia| |exact Hclear]. apply echelon_skip; assumption.
Qed.

Lemma gaussianElimination_clear machine :
  pivotColumnsClear (gaussianElimination machine).
Proof.
  unfold gaussianElimination. rewrite <- buildMatrix_length.
  apply (gaussLoop_clear (length (buttons machine))); [reflexivity| |].
  - apply echelon_start, buildMatrix_rows.
  - intros k pc k' row Hk. discriminate.
Qed.

Lemma increasing_index (pcs : list nat) :
  (forall (k k' pc pc' : nat), (k < k')%nat -> pcs !! k = Some pc ->
     pcs !! k' = Some pc' -> (pc < pc')%nat) ->
  forall (k pc : nat), pcs !! k = Some pc -> (k <= pc)%nat.
Proof.
  intros Hinc. induction k as [|k IH]; intros pc Hk; [lia|].
  destruct (lookup_lt_is_Some_2 pcs k) as [pc0 Hpc0].
  { apply lookup_lt_Some in Hk. lia. }
  specialize (IH pc0 Hpc0).
  pose proof (Hinc k (S k) pc0 pc ltac:(lia) Hpc0 Hk). lia.
Qed.

Lemma increasing_NoDup (pcs : list nat) :
  (forall (k k' pc pc' : nat), (k < k')%nat -> pcs !! k = Some pc ->
     pcs !! k' = Some pc' -> (pc < pc')%nat) ->
  NoDup pcs.
Proof.
  intros Hinc. apply NoDup_alt. intros i j x Hi Hj.
  destruct (lt_eq_lt_dec i j) as [[Hlt|Heq]|Hgt]; [|exact Heq|].
  - pose proof (Hinc i j x x Hlt Hi Hj). lia.
  - pose proof (Hinc j i x x Hgt Hj Hi). lia.
Qed.

Lemma rank_le_buttons machine :
  (rank (gaussianElimination machine) <= length (buttons machine))%nat.
Proof.
  pose proof (gaussianElimination_echelon machine) as E.
  destruct (ech_rank _ _ _ _ E) as [Hrk _].
  destruct (rank (gaussianElimination machine)) as [|r] eqn:Hr; [lia|].
  destruct (lookup_lt_is_Some_2 (pivotCol (gaussianElimination machine)) r)
    as [pc Hpc]; [lia|].
  pose proof (increasing_index _ (ech_increasing _ _ _ _ E) r pc Hpc).
  destruct (ech_pivot _ _ _ _ E r pc Hpc) as [Hlt _]. lia.
Qed.

(** X3: the elimination does not change the solutions: an assignment of
    the buttons satisfies every row of the eliminated matrix exactly when
    pressing the buttons it marks produces the target pattern. *)
Theorem elimination_keeps_solutions machine x :
  length x = length (buttons machine) ->
  (systemHolds (length (buttons machine))
     (matrix (gaussianElimination machine)) x
   <-> lightsMatch machine x).
Proof.
  intros Hlen.
  rewrite (ech_same _ _ _ _ (gaussianElimination_echelon machine) x Hlen).
  apply buildMatrix_holds, Hlen.
Qed.

Lemma elimination_keeps_solutions_witness :
  systemHolds (length (buttons fixture1))
    (matrix (gaussianElimination fixture1))
    [false; true; false; true; false; false]
  <-> lightsMatch fixture1 [false; true; false; true; false; false].
Proof. apply (elimination_keeps_solutions fixture1). reflexivity. Defined.

(** X4: the elimination ends in reduced row echelon form.  The matrix
    keeps one row per light and one column per button plus the target
    column; the rank is the number of pivots and is at most the number of lights and the number
    of buttons; the pivot columns increase from row to row; a pivot row
    has its first 1 in its pivot column; no other row has a 1 in a pivot
    column; and the rows below the pivots have no 1 among the
    coefficients. *)
Theorem elimination_reduced_form machine :
  let st := gaussianElimination machine in
  let numButtons := length (buttons machine) in
  length (matrix st) = length (target machine) /\
  Forall (fun row => length row = S numButtons) (matrix st) /\
  rank st = length (pivotCol st) /\
  (rank st <= length (target machine))%nat /\
  (rank st <= numButtons)%nat /\
  (forall (k k' pc pc' : nat), (k < k')%nat -> pivotCol st !! k = Some pc ->
     pivotCol st !! k' = Some pc' -> (pc < pc')%nat) /\
  (forall (k pc : nat), pivotCol st !! k = Some pc ->
     (pc < numButtons)%nat /\
     exists row, matrix st !! k = Some row /\ truthy row pc = true /\
                 forall c, (c < pc)%nat -> truthy row c = false) /\
  pivotColumnsClear st /\
  (forall (k : nat) row, (rank st <= k)%nat -> matrix st !! k = Some row ->
     forall c, (c < numButtons)%nat -> truthy row c = false).
Proof.
  intros st numButtons.
  pose proof (gaussianElimination_echelon machine) as E. fold st in E.
  pose proof (ech_length _ _ _ _ E) as Hlen.
  rewrite buildMatrix_length in Hlen.
  destruct (ech_rank _ _ _ _ E) as [Hrk Hle].
  split; [exact Hlen|]. split; [apply (ech_rows _ _ _ _ E)|].
  split; [exact Hrk|]. split; [lia|].
  split; [apply rank_le_buttons|].
  split; [apply (ech_increasing _ _ _ _ E)|].
  split; [apply (ech_pivot _ _ _ _ E)|].
  split; [apply gaussianElimination_clear|].
  apply (ech_below _ _ _ _ E).
Qed.

Lemma freeVars_count machine :
  let st := gaussianElimination machine in
  let numButtons := length (buttons machine) in
  length (freeVarsOf numButtons (pivotCol st)) = (numButtons - rank st)%nat /\
  forall c, (c < numButtons)%nat ->
    ((c ∈ pivotCol st) /\ (c ∉ freeVarsOf numButtons (pivotCol st))) \/
    ((c ∉ pivotCol st) /\ (c ∈ freeVarsOf numButtons (pivotCol st))).
Proof.
  intros st numButtons.
  pose proof (gaussianElimination_echelon machine) as E. fold st in E.
  destruct (ech_rank _ _ _ _ E) as [Hrk _].
  split.
  - pose proof (filter_app_complement (fun c => c ∈ pivotCol st)
                  (seq 0 numButtons)) as Hperm.
    apply Permutation_length in Hperm.
    rewrite length_app, length_seq in Hperm.
    assert (Hpiv : filter (fun c => c ∈ pivotCol st) (seq 0 numButtons)
                   ≡ₚ pivotCol st).
    { apply NoDup_Permutation.
      - apply NoDup_filter, NoDup_seq.
      - apply increasing_NoDup, (ech_increasing _ _ _ _ E).
      - intros c. rewrite list_elem_of_filter, elem_of_seq.
        split; [intros [H _]; exact H|]. intros Hin. split; [exact Hin|].
        apply list_elem_of_lookup in Hin as [k Hk].
        destruct (ech_pivot _ _ _ _ E k c Hk) as [Hlt _].
        fold numButtons in Hlt. lia. }
    apply Permutation_length in Hpiv. unfold freeVarsOf.
    rewrite Hpiv in Hperm. lia.
  - intros c Hc. destruct (decide (c ∈ pivotCol st)) as [Hin|Hnin].
    + left. split; [exact Hin|]. rewrite freeVars_spec. tauto.
    + right. split; [exact Hnin|]. rewrite freeVars_spec. tauto.
Qed.

(** X5: the columns split into pivots and free variables: every button is
    one or the other, never both, and the number of free variables is the
    number of buttons less the rank. *)
Theorem free_variables_count machine :
  let st := gaussianElimination machine in
  let numButtons := length (buttons machine) in
  length (freeVarsOf numButtons (pivotCol st)) = (numButtons - rank st)%nat /\
  forall c, (c < numButtons)%nat ->
    ((c ∈ pivotCol st) /\ (c ∉ freeVarsOf numButtons (pivotCol st))) \/
    ((c ∉ pivotCol st) /\ (c ∈ freeVarsOf numButtons (pivotCol st))).
Proof. apply freeVars_count. Qed.

(** ** Patterns: bit counts, the table, applying and combining *)

Lemma weight_cons b bits : weight (b :: bits) = Z.b2z b + weight bits.
Proof.
  unfold weight. destruct b.
  - rewrite filter_cons_True by reflexivity. simpl length. simpl Z.b2z. lia.
  - rewrite filter_cons_False by discriminate. simpl Z.b2z. lia.
Qed.

Lemma selected_bits mask : forall (bits : list bool) (b : nat),
  (forall (k : nat) x, bits !! k = Some x -> bitSet mask (b + k) = x) ->
  selected mask b (length bits) = weight bits.
Proof.
  induction bits as [|x bits IH]; intros b Hbits; [reflexivity|].
  rewrite weight_cons. simpl.
  rewrite (IH (S b)).
  2:{ intros k y Hk. replace (S b + k)%nat with (b + S k)%nat by lia.
      apply Hbits, Hk. }
  pose proof (Hbits 0%nat x eq_refl) as H0. rewrite Nat.add_0_r in H0.
  rewrite H0. destruct x; reflexivity.
Qed.

Lemma countBits_maskOfBits bits :
  (length bits <= 31)%nat -> countBits (maskOfBits bits) = weight bits.
Proof.
  intros Hlen. pose proof (maskOfBits_range bits) as Hr.
  assert (2 ^ Z.of_nat (length bits) <= 2 ^ 31)
    by (apply Z.pow_le_mono_r; lia).
  unfold countBits.
  rewrite (countBitsLoop_selected 33 (length bits)) by lia.
  rewrite (selected_bits _ bits 0); [lia|].
  intros k x Hk. apply lookup_lt_Some in Hk as Hlt.
  rewrite bitSet_testbit by lia. apply maskOfBits_testbit, Hk.
Qed.

Lemma countBitsLoop_nonpositive turns n c :
  n <= 0 -> countBitsLoop turns n c = c.
Proof.
  intros Hn. destruct turns as [|turns]; [reflexivity|].
  cbn [countBitsLoop]. destruct (Z.gtb_spec n 0); [lia|reflexivity].
Qed.

(** X6: [countBits] counts the 1 bits of a pattern: for a vector of at
    most 31 bits, the count of the mask that has exactly those bits is the
    number of true entries; and the count of a number that is not positive
    is 0. *)
Theorem countBits_counts bits :
  (length bits <= 31)%nat ->
  countBits (maskOfBits bits) = weight bits /\
  forall n, n <= 0 -> countBits n = 0.
Proof.
  intros Hlen. split; [apply countBits_maskOfBits, Hlen|].
  intros n Hn. apply countBitsLoop_nonpositive, Hn.
Qed.

Lemma countBits_counts_witness :
  countBits (maskOfBits [true; false; true; true]) = 3 /\ countBits (-4) = 0.
Proof.
  destruct (countBits_counts [true; false; true; true]) as [H1 H2];
    [simpl; lia|].
  split; [exact H1|apply H2; lia].
Defined.

(** The table, key by key. *)
Lemma table_fold_filter machine n : forall masks T k,
  default [] (foldl (addPattern machine n) T masks !! k)
  = default [] (T !! k)
    ++ filter (fun p => computeParity p machine n = k) masks.
Proof.
  induction masks as [|mask masks IH]; intros T k; simpl.
  - rewrite app_nil_r. reflexivity.
  - rewrite IH, addPattern_lookup.
    destruct (decide (computeParity mask machine n = k)) as [Heq|Hne].
    + rewrite filter_cons_True by exact Heq. rewrite <- app_assoc. reflexivity.
    + rewrite filter_cons_False by exact Hne. reflexivity.
Qed.

Lemma table_fold_nonempty machine n : forall masks T,
  (forall k l, T !! k = Some l -> l <> []) ->
  forall k l, foldl (addPattern machine n) T masks !! k = Some l -> l <> [].
Proof.
  induction masks as [|mask masks IH]; intros T HT; simpl; [exact HT|].
  apply IH. intros k l. unfold addPattern.
  destruct (decide (computeParity mask machine n = k)) as [<-|Hne].
  - rewrite lookup_insert_eq. intros [= <-]. intros Hnil.
    apply app_eq_nil in Hnil as [_ Hnil]. discriminate.
  - rewrite lookup_insert_ne by exact Hne. apply HT.
Qed.

(** X7: [precomputeParityPatterns] files every mask from 0 to
    [(1 << numButtons) - 1] under the parity it produces, in increasing
    order, and nothing else: the list stored for a key is the list of
    those masks whose [computeParity] is the key, and no key holds an
    empty list. *)
Theorem precomputeParityPatterns_exact machine k :
  default [] (precomputeParityPatterns machine !! k)
  = filter (fun p => computeParity p machine (length (joltage machine)) = k)
      (seqZ 0 (JS.shl 1 (Z.of_nat (length (buttons machine))))) /\
  precomputeParityPatterns machine !! k <> Some [].
Proof.
  unfold precomputeParityPatterns. split.
  - rewrite table_fold_filter, lookup_empty. reflexivity.
  - intros H. eapply table_fold_nonempty; [|exact H|reflexivity].
    intros k' l Hl. rewrite lookup_empty in Hl. discriminate.
Qed.

Lemma combineSolution_lookup pattern s (b : nat) :
  combineSolution pattern s !! b
  = (fun v => if bitSet pattern b then v * 2 + 1 else v * 2) <$> s !! b.
Proof. unfold combineSolution. apply list_lookup_imap. Qed.

Lemma combine_parityMask presses :
  (length presses <= 30)%nat ->
  combineSolution (parityMask presses) ((fun v => v / 2) <$> presses)
  = presses.
Proof.
  intros Hlen. apply list_eq. intros b.
  rewrite combineSolution_lookup, list_lookup_fmap.
  destruct (presses !! b) as [v|] eqn:Hv; [|reflexivity]. simpl. f_equal.
  rewrite (parityMask_bitSet presses b v Hlen Hv).
  pose proof (Z.div_mod v 2 ltac:(lia)) as Hdm.
  rewrite Zmod_odd in Hdm. destruct (Z.odd v); lia.
Qed.

(** X10: for at most 30 buttons, a press vector is rebuilt by
    [combineSolution] from the pattern of its odd entries and its halved
    entries. *)
Theorem combineSolution_rebuilds presses :
  (length presses <= 30)%nat ->
  combineSolution (parityMask presses) ((fun v => v / 2) <$> presses)
  = presses.
Proof. apply combine_parityMask. Qed.

Lemma combineSolution_rebuilds_witness :
  combineSolution (parityMask [1; 5; 0; 1; 3; 0])
    ((fun v => v / 2) <$> [1; 5; 0; 1; 3; 0])
  = [1; 5; 0; 1; 3; 0].
Proof. apply combineSolution_rebuilds. simpl. lia. Defined.

(** ** The memo table only grows *)

Section MemoGrowth.

Variable machine : Machine.
Variable table : gmap Z (list Z).






End MemoGrowth.



(** ** A negative joltage *)

Lemma applyPattern_negative pattern tgt machine (i : nat) t :
  tgt !! i = Some t -> t < 0 -> applyPattern pattern tgt machine = None.
Proof.
  intros Hi Ht.
  destruct (applyPattern pattern tgt machine) as [nt|] eqn:Hap; [|reflexivity].
  apply applyPatternFrom_Some in Hap as [_ Hap].
  destruct (Hap i t Hi) as (n & _ & Hn & Heq).
  pose proof (countTouching_nonneg machine pattern (0 + i)). lia.
Qed.

Lemma tryPatterns_rejected machine rec tgt best memo : forall pats,
  (forall p, applyPattern p tgt machine = None) ->
  tryPatterns machine rec pats tgt best memo = Some (best, memo).
Proof.
  induction pats as [|p pats IH]; intros Hnone; simpl; [reflexivity|].
  rewrite Hnone. apply IH, Hnone.
Qed.

Lemma negative_joltage_null machine fuel (i : nat) t :
  joltage machine !! i = Some t -> t < 0 ->
  solveMachineJoltage machine (S fuel) = Some None.
Proof.
  intros Hi Ht. unfold solveMachineJoltage.
  destruct (joltage machine) as [|t0 tgt] eqn:Hj; [discriminate|].
  simpl Nat.eqb. cbv iota. rewrite <- Hj in *.
  cbn [solveRecursive].
  assert (Hz : forallb (fun v => v =? 0) (joltage machine) = false).
  { apply not_true_is_false. intros Hall.
    rewrite forallb_forall in Hall.
    apply list_elem_of_lookup_2, list_elem_of_In, Hall in Hi. lia. }
  rewrite Hz, lookup_empty.
  destruct (precomputeParityPatterns machine !! targetParity (joltage machine))
    as [[|p pats]|]; try reflexivity.
  rewrite tryPatterns_rejected; [reflexivity|].
  intros p'. eapply applyPattern_negative; eauto.
Qed.

(** X12: a machine with a negative joltage is reported unsolvable at the
    first level of the recursion: with any fuel but none,
    [solveMachineJoltage] returns null, every pattern being rejected by
    [applyPattern] before any recursive call. *)
Theorem negative_joltage_unsolvable machine fuel (i : nat) t :
  joltage machine !! i = Some t -> t < 0 ->
  solveMachineJoltage machine (S fuel) = Some None /\
  forall pattern, applyPattern pattern (joltage machine) machine = None.
Proof.
  intros Hi Ht. split; [eapply negative_joltage_null; eauto|].
  intros pattern. eapply applyPattern_negative; eauto.
Qed.

Lemma negative_joltage_unsolvable_witness :
  solveMachineJoltage (mkMachine [true] [[0]; [0; 1]] [3; -1]) 1 = Some None /\
  forall pattern,
    applyPattern pattern [3; -1] (mkMachine [true] [[0]; [0; 1]] [3; -1])
    = None.
Proof.
  apply (negative_joltage_unsolvable
           (mkMachine [true] [[0]; [0; 1]] [3; -1]) 0 1 (-1));
    [reflexivity|lia].
Defined.

(** ** The parity key *)

Lemma toInt32_mod z : JS.toInt32 z mod 2 ^ 32 = z mod 2 ^ 32.
Proof.
  unfold JS.toInt32. rewrite Zminus_mod_idemp_l. f_equal. lia.
Qed.

Lemma testbit_toInt32 z k :
  0 <= k < 32 -> Z.testbit (JS.toInt32 z) k = Z.testbit z k.
Proof.
  intros Hk.
  rewrite <- (Z.mod_pow2_bits_low (JS.toInt32 z) 32 k) by lia.
  rewrite toInt32_mod. apply Z.mod_pow2_bits_low. lia.
Qed.

Lemma testbit_shl_1 (i k : nat) :
  (i < 32)%nat -> (k < 32)%nat ->
  Z.testbit (JS.shl 1 (Z.of_nat i)) (Z.of_nat k) = (Z.of_nat i =? Z.of_nat k).
Proof.
  intros Hi Hk. unfold JS.shl. rewrite testbit_toInt32 by lia.
  rewrite (toInt32_id 1) by lia. rewrite Z.mod_small by lia.
  rewrite Z.shiftl_1_l. apply Z.pow2_bits_eqb. lia.
Qed.

Lemma testbit_bor a b k :
  0 <= k < 32 ->
  Z.testbit (JS.bor a b) k = Z.testbit a k || Z.testbit b k.
Proof.
  intros Hk. unfold JS.bor. rewrite Z.lor_spec, !testbit_toInt32 by lia.
  reflexivity.
Qed.

Lemma targetParityFrom_bit : forall tgt (i : nat) acc (k : nat),
  (i + length tgt <= 32)%nat -> (k < 32)%nat ->
  Z.testbit (targetParityFrom tgt i acc) (Z.of_nat k)
  = Z.testbit acc (Z.of_nat k)
    || (if decide (i <= k)%nat
        then default false (Z.odd <$> tgt !! (k - i)%nat) else false).
Proof.
  induction tgt as [|t tgt IH]; intros i acc k Hlen Hk.
  - simpl. destruct (decide (i <= k)%nat); simpl;
      rewrite orb_false_r; reflexivity.
  - simpl in Hlen. cbn [targetParityFrom]. rewrite IH by lia.
    rewrite band_1_odd.
    assert (Hacc : Z.testbit
              (if Z.odd t then JS.bor acc (JS.shl 1 (Z.of_nat i)) else acc)
              (Z.of_nat k)
            = Z.testbit acc (Z.of_nat k)
              || (Z.odd t && (Z.of_nat i =? Z.of_nat k))).
    { destruct (Z.odd t); simpl.
      - rewrite testbit_bor, testbit_shl_1 by lia. reflexivity.
      - rewrite orb_false_r. reflexivity. }
    rewrite Hacc.
    destruct (decide (S i <= k)%nat) as [Hgt|Hle].
    + destruct (decide (i <= k)%nat); [|lia].
      replace (k - i)%nat with (S (k - S i)) by lia. simpl.
      destruct (Z.eqb_spec (Z.of_nat i) (Z.of_nat k)); [lia|].
      rewrite andb_false_r, orb_false_r. reflexivity.
    + destruct (decide (i <= k)%nat) as [Hik|Hik].
      * assert (k = i) by lia. subst k. rewrite Nat.sub_diag. simpl.
        rewrite Z.eqb_refl, andb_true_r, orb_false_r. reflexivity.
      * destruct (Z.eqb_spec (Z.of_nat i) (Z.of_nat k)); [lia|].
        rewrite andb_false_r, !orb_false_r. reflexivity.
Qed.

Lemma targetParity_bit tgt (j : nat) t :
  (length tgt <= 32)%nat -> tgt !! j = Some t ->
  Z.testbit (targetParity tgt) (Z.of_nat j) = Z.odd t.
Proof.
  intros Hlen Hj. apply lookup_lt_Some in Hj as Hlt.
  unfold targetParity. rewrite targetParityFrom_bit by lia.
  rewrite Z.bits_0. simpl. rewrite Nat.sub_0_r, Hj. reflexivity.
Qed.

Lemma computeParity_as_target machine mask (n : nat) :
  computeParity mask machine n
  = targetParity (countTouching machine mask <$> seq 0 n).
Proof.
  unfold computeParity, targetParity.
  rewrite (parity_agree machine mask (countTouching machine mask <$> seq 0 n)
             0 0).
  - rewrite length_fmap, length_seq. reflexivity.
  - intros k t Hk. rewrite list_lookup_fmap in Hk.
    destruct (seq 0 n !! k) as [j|] eqn:Hseq; [|discriminate].
    apply lookup_seq in Hseq as [-> _]. simpl in Hk. injection Hk as <-.
    reflexivity.
Qed.

Lemma parity_key_agree machine mask tgt :
  (forall (j : nat) t, tgt !! j = Some t ->
     Z.odd t = Z.odd (countTouching machine mask j)) ->
  targetParity tgt = computeParity mask machine (length tgt).
Proof. intros H. apply parity_agree. exact H. Qed.

Lemma parity_key_exact machine mask tgt :
  (length tgt <= 32)%nat ->
  targetParity tgt = computeParity mask machine (length tgt) ->
  forall (j : nat) t, tgt !! j = Some t ->
    Z.odd t = Z.odd (countTouching machine mask j).
Proof.
  intros Hlen Heq j t Hj. apply lookup_lt_Some in Hj as Hlt.
  rewrite <- (targetParity_bit tgt j t Hlen Hj), Heq.
  rewrite computeParity_as_target.
  apply targetParity_bit.
  - rewrite length_fmap, length_seq. exact Hlen.
  - rewrite list_lookup_fmap, lookup_seq_lt by exact Hlt. reflexivity.
Qed.

(** X13: the parity key picks the right patterns.  Whatever the number of
    counters, a pattern whose contribution has the parity of the target at
    every counter is filed under the key of the target; and for at most
    32 counters these are the only ones: the two keys are equal exactly
    when the parities agree at every counter. *)
Theorem parity_key_selects machine mask tgt :
  ((forall (j : nat) t, tgt !! j = Some t ->
      Z.odd t = Z.odd (countTouching machine mask j)) ->
   targetParity tgt = computeParity mask machine (length tgt)) /\
  ((length tgt <= 32)%nat ->
   targetParity tgt = computeParity mask machine (length tgt) ->
   forall (j : nat) t, tgt !! j = Some t ->
     Z.odd t = Z.odd (countTouching machine mask j)).
Proof.
  split; [apply parity_key_agree|apply parity_key_exact].
Qed.

Lemma parity_key_selects_witness :
  targetParity [3; 5; 4; 7] = computeParity 27 fixture1 4 /\
  forall (j : nat) t, [3; 5; 4; 7] !! j = Some t ->
    Z.odd t = Z.odd (countTouching fixture1 27 j).
Proof.
  assert (H : targetParity [3; 5; 4; 7] = computeParity 27 fixture1 4)
    by (vm_compute; reflexivity).
  split; [exact H|].
  apply (proj2 (parity_key_selects fixture1 27 [3; 5; 4; 7]));
    [simpl; lia|exact H].
Defined.

(** ** What the parser returns *)

Lemma allMatches_sound opn cls close : forall n s,
  Forall (fun group => group <> EmptyString /\ allChars cls group)
    (allMatches n opn cls close s).
Proof.
  induction n as [|n IH]; intros s; simpl; [constructor|].
  destruct (firstMatch opn cls close s) as [[group after]|] eqn:Hm;
    [|constructor].
  destruct (firstMatch_sound _ _ _ _ _ _ Hm) as (_ & _ & Hne & Hall).
  constructor; [auto|apply IH].
Qed.

Lemma splitOn_nonempty sep s : splitOn sep s <> [].
Proof.
  destruct s as [|c s]; simpl; [discriminate|].
  destruct (c =? sep)%char; [discriminate|].
  destruct (splitOn sep s); discriminate.
Qed.

Lemma splitOn_allChars (cls cls' : ascii -> bool) sep :
  (forall c, cls c = true -> c <> sep -> cls' c = true) ->
  forall s, allChars cls s -> Forall (allChars cls') (splitOn sep s).
Proof.
  intros Hcls. induction s as [|c s IH]; intros Hall; simpl.
  - repeat constructor.
  - destruct Hall as [Hc Hall]. specialize (IH Hall).
    destruct (Ascii.eqb_spec c sep) as [->|Hne].
    + constructor; [exact I|exact IH].
    + destruct (splitOn sep s) as [|piece pieces] eqn:Hs.
      * repeat constructor. apply Hcls; assumption.
      * apply Forall_cons in IH as [Hp Hps].
        constructor; [|exact Hps]. split; [apply Hcls; assumption|exact Hp].
Qed.

Lemma numberFrom_nonneg : forall s acc,
  allChars isDigit s -> 0 <= acc -> 0 <= numberFrom s acc.
Proof.
  induction s as [|c s IH]; intros acc Hall Hacc; simpl; [exact Hacc|].
  destruct Hall as [Hc Hall]. apply IH; [exact Hall|].
  unfold isDigit in Hc. apply andb_true_iff in Hc as [Hlo _].
  apply Nat.leb_le in Hlo. lia.
Qed.

Lemma numberList_wellformed s :
  allChars isIndexChar s ->
  numberList s <> [] /\ Forall (fun v => 0 <= v) (numberList s).
Proof.
  intros Hall. unfold numberList. split.
  - intros Hnil. apply fmap_nil_inv in Hnil.
    exact (splitOn_nonempty _ _ Hnil).
  - rewrite Forall_fmap.
    eapply Forall_impl;
      [apply (splitOn_allChars isIndexChar isDigit ","%char); [|exact Hall]|].
    + intros c Hc Hne. unfold isIndexChar in Hc.
      apply orb_true_iff in Hc as [Hd|Hcomma]; [exact Hd|].
      apply Ascii.eqb_eq in Hcomma. congruence.
    + intros piece Hp. simpl. apply numberFrom_nonneg; [exact Hp|lia].
Qed.

Lemma parseLine_wellParsed line machine :
  parseLine line = Return machine -> wellParsed machine.
Proof.
  unfold parseLine.
  destruct (firstMatch "[" isPatternChar "]" line) as [[pattern after]|] eqn:Hm;
    [|discriminate].
  intros H. injection H as <-.
  destruct (firstMatch_sound _ _ _ _ _ _ Hm) as (_ & _ & Hne & _).
  split; [|split]; simpl.
  - destruct pattern as [|c pattern]; [congruence|]. discriminate.
  - rewrite Forall_fmap.
    eapply Forall_impl; [apply allMatches_sound|].
    intros group [_ Hall]. simpl. apply numberList_wellformed, Hall.
  - destruct (firstMatch "{" isIndexChar "}" line) as [[numbers after']|] eqn:Hj;
      [|constructor].
    destruct (firstMatch_sound _ _ _ _ _ _ Hj) as (_ & _ & _ & Hall).
    apply numberList_wellformed, Hall.
Qed.

Lemma parseLines_wellParsed : forall lines machines,
  parseLines lines = Return machines -> Forall wellParsed machines.
Proof.
  induction lines as [|line lines IH]; intros machines H; simpl in H.
  - injection H as <-. constructor.
  - destruct (parseLine line) as [machine|msg] eqn:Hline; [|discriminate].
    destruct (parseLines lines) as [rest|msg]; [|discriminate].
    injection H as <-. constructor.
    + eapply parseLine_wellParsed, Hline.
    + apply IH. reflexivity.
Qed.

(** X14: every machine that [parseInput] returns is well formed for the
    solvers: it has at least one light, each of its buttons is a
    non-empty list of non-negative indices, and its joltages are
    non-negative. *)
Theorem parsed_machines_wellformed input machines :
  parseInput input = Return machines -> Forall wellParsed machines.
Proof. apply parseLines_wellParsed. Qed.

Lemma parsed_machines_wellformed_witness :
  parseInput exampleInput = Return fixture /\ Forall wellParsed fixture.
Proof.
  assert (H : parseInput exampleInput = Return fixture)
    by (vm_compute; reflexivity).
  split; [exact H|]. apply (parsed_machines_wellformed exampleInput), H.
Defined.

(** ** Blank input *)

Lemma trimStart_white s : allChars isWhiteSpace s -> trimStart s = EmptyString.
Proof.
  induction s as [|c s IH]; intros Hall; [reflexivity|].
  destruct Hall as [Hc Hall]. simpl. rewrite Hc. apply IH, Hall.
Qed.

Lemma blank_inputLines input :
  allChars isWhiteSpace input -> inputLines input = [].
Proof.
  intros Hall. unfold inputLines.
  pose proof (splitOn_allChars isWhiteSpace isWhiteSpace "010"%char
                (fun c Hc _ => Hc) input Hall) as Hpieces.
  induction Hpieces as [|piece pieces Hp _ IH]; [reflexivity|].
  rewrite fmap_cons. unfold trim at 1. rewrite (trimStart_white _ Hp). simpl.
  rewrite filter_cons_False by (intros Hne; apply Hne; reflexivity).
  exact IH.
Qed.

(** X15: an input of white space only, the empty input included, parses
    to no machine, and both totals of that empty batch are 0. *)
Theorem blank_input_parses_empty input fuel :
  allChars isWhiteSpace input ->
  parseInput input = Return [] /\
  solvePart1 [] = Return (JS.Int 0) /\
  solvePart2 fuel [] = Some (Return 0).
Proof.
  intros Hall. unfold parseInput. rewrite (blank_inputLines _ Hall).
  repeat split.
Qed.

Lemma blank_input_parses_empty_witness :
  parseInput "  
	 
" = Return [] /\
  solvePart1 [] = Return (JS.Int 0) /\
  solvePart2 3 [] = Some (Return 0).
Proof.
  apply blank_input_parses_empty. simpl. repeat split; reflexivity.
Defined.

(** ** Reading decimal numbers *)

Lemma append_assoc (s1 s2 s3 : string) :
  ((s1 +:+ s2) +:+ s3 = s1 +:+ (s2 +:+ s3))%string.
Proof.
  induction s1 as [|c s1 IH]; [reflexivity|].
  rewrite !append_cons, IH. reflexivity.
Qed.

Lemma numberFrom_app : forall s1 s2 acc,
  numberFrom (s1 +:+ s2) acc = numberFrom s2 (numberFrom s1 acc).
Proof.
  induction s1 as [|c s1 IH]; intros s2 acc; [reflexivity|].
  rewrite append_cons. simpl. apply IH.
Qed.

Lemma pretty_N_go_app x : forall s,
  (pretty_N_go x s = pretty_N_go x "" +:+ s)%string.
Proof.
  induction (N.lt_wf_0 x) as [x _ IH]. intros s.
  destruct (decide (x = 0)%N) as [->|Hx]; [rewrite !pretty_N_go_0; reflexivity|].
  rewrite (pretty_N_go_step x s), (pretty_N_go_step x "") by lia.
  rewrite (IH (x `div` 10)%N) by (apply N.div_lt; lia).
  rewrite (IH (x `div` 10)%N ltac:(apply N.div_lt; lia) (String _ "")).
  rewrite append_assoc. reflexivity.
Qed.

Lemma digit_value (r : N) :
  (r < 10)%N -> Z.of_nat (nat_of_ascii (pretty_N_char r)) - 48 = Z.of_N r.
Proof.
  intros Hr.
  assert (r = 0 \/ r = 1 \/ r = 2 \/ r = 3 \/ r = 4 \/ r = 5 \/ r = 6
          \/ r = 7 \/ r = 8 \/ r = 9)%N as Hcases by lia.
  repeat (destruct Hcases as [->|Hcases]; [reflexivity|]).
  subst r. reflexivity.
Qed.

Lemma number_pretty_go x : numberFrom (pretty_N_go x "") 0 = Z.of_N x.
Proof.
  induction (N.lt_wf_0 x) as [x _ IH].
  destruct (decide (x = 0)%N) as [->|Hx]; [reflexivity|].
  rewrite pretty_N_go_step by lia. rewrite pretty_N_go_app, numberFrom_app.
  rewrite IH by (apply N.div_lt; lia). simpl.
  rewrite digit_value by (apply N.mod_lt; lia).
  rewrite (N.div_mod x 10) at 3 by lia. lia.
Qed.

Lemma Number_pretty (z : Z) : 0 <= z -> Number (pretty z) = z.
Proof.
  intros Hz. destruct z as [|p|p]; [reflexivity| |lia].
  unfold pretty, pretty_Z, pretty, pretty_positive, pretty, pretty_N, Number.
  destruct (decide (N.pos p = 0)%N); [discriminate|].
  rewrite number_pretty_go. reflexivity.
Qed.

Lemma commaFree_eqb c : c <> ","%char -> (c =? ",")%char = false.
Proof. intros H. apply Ascii.eqb_neq, H. Qed.

Lemma splitOn_word x : commaFree x -> splitOn "," x = [x].
Proof.
  induction x as [|c x IH]; intros Hx; [reflexivity|].
  destruct Hx as [Hc Hx]. simpl. rewrite (commaFree_eqb c Hc), (IH Hx).
  reflexivity.
Qed.

Lemma splitOn_word_comma x t :
  commaFree x -> splitOn "," (x +:+ String "," t) = x :: splitOn "," t.
Proof.
  induction x as [|c x IH]; intros Hx.
  - rewrite append_nil_l. reflexivity.
  - destruct Hx as [Hc Hx]. rewrite append_cons. simpl.
    rewrite (commaFree_eqb c Hc), (IH Hx). reflexivity.
Qed.

Lemma splitOn_concat : forall strs,
  strs <> [] -> Forall commaFree strs ->
  splitOn "," (String.concat "," strs) = strs.
Proof.
  induction strs as [|x strs IH]; intros Hne Hall; [congruence|].
  apply Forall_cons in Hall as [Hx Hall].
  destruct strs as [|y strs].
  - simpl. apply splitOn_word, Hx.
  - change (String.concat "," (x :: y :: strs))
      with (x +:+ String "," (String.concat "," (y :: strs)))%string.
    rewrite splitOn_word_comma by exact Hx.
    rewrite IH by (try discriminate; exact Hall). reflexivity.
Qed.

Lemma numberList_join (l : list Z) :
  l <> [] -> Forall (fun v => 0 <= v) l -> numberList (JS.join l) = l.
Proof.
  intros Hne Hpos. unfold numberList, JS.join.
  rewrite splitOn_concat.
  - rewrite <- list_fmap_compose. rewrite <- (list_fmap_id l) at 2.
    apply Forall_fmap_ext. eapply Forall_impl; [exact Hpos|].
    intros v Hv. simpl. apply Number_pretty, Hv.
  - intros Hnil. apply fmap_nil_inv in Hnil. congruence.
  - rewrite Forall_fmap. apply Forall_forall. intros v _.
    apply pretty_Z_commaFree.
Qed.

(** X16: numbers are read in decimal.  A non-empty list of non-negative
    integers written by [join(',')] (the form of the memo keys, and of the
    index and joltage lists of the input) is read back, entry by entry,
    by [split(',').map(Number)]. *)
Theorem numberList_reads_join (l : list Z) :
  l <> [] -> Forall (fun v => 0 <= v) l -> numberList (JS.join l) = l.
Proof. apply numberList_join. Qed.

Lemma numberList_reads_join_witness :
  numberList (JS.join [10; 11; 11; 5; 10; 5]) = [10; 11; 11; 5; 10; 5].
Proof.
  apply numberList_reads_join; [discriminate|].
  repeat constructor; lia.
Defined.

(** ** Batches compose *)

Lemma num_add_assoc a b c : JS.add (JS.add a b) c = JS.add a (JS.add b c).
Proof. destruct a, b, c; simpl; try reflexivity. f_equal. lia. Qed.

Lemma num_add_0_l a : JS.add (JS.Int 0) a = a.
Proof. destruct a; reflexivity. Qed.

Lemma num_add_0_r a : JS.add a (JS.Int 0) = a.
Proof. destruct a; simpl; [f_equal; lia|reflexivity]. Qed.

Lemma solvePart1From_app : forall machines rest total,
  solvePart1From (machines ++ rest) total
  = match solvePart1From machines total with
    | Throw msg => Throw msg
    | Return a => solvePart1From rest a
    end.
Proof.
  induction machines as [|m machines IH]; intros rest total; [reflexivity|].
  simpl. destruct (solveMachineLights m) as [[|q|[q|q|]]|];
    try apply IH; reflexivity.
Qed.

Lemma solvePart1From_total : forall machines total,
  solvePart1From machines total
  = match solvePart1From machines (JS.Int 0) with
    | Throw msg => Throw msg
    | Return a => Return (JS.add total a)
    end.
Proof.
  induction machines as [|m machines IH]; intros total.
  - simpl. rewrite num_add_0_r. reflexivity.
  - simpl.
    assert (Hstep : forall presses,
      solvePart1From machines (JS.add total presses)
      = match solvePart1From machines (JS.add (JS.Int 0) presses) with
        | Throw msg => Throw msg
        | Return a => Return (JS.add total a)
        end).
    { intros presses. rewrite (IH (JS.add total presses)).
      rewrite (IH (JS.add (JS.Int 0) presses)).
      destruct (solvePart1From machines (JS.Int 0)) as [a|msg];
        [|reflexivity].
      rewrite num_add_0_l, num_add_assoc. reflexivity. }
    destruct (solveMachineLights m) as [[|q|[q|q|]]|];
      try apply Hstep; reflexivity.
Qed.

(** ** One level of the reduction *)

Lemma pattern_cost pattern (s : list Z) :
  (length s <= 30)%nat -> 0 <= pattern < 2 ^ Z.of_nat (length s) ->
  sumPresses (combineSolution pattern s)
  = countBits pattern + 2 * sumPresses s.
Proof.
  intros Hlen Hp.
  pose proof (sumPresses_combine pattern s 0) as Hsum. simpl in Hsum.
  unfold combineSolution. rewrite Hsum. unfold countBits.
  rewrite (countBitsLoop_selected 33 (length s)) by lia. lia.
Qed.

(** ** Reading the light pattern *)

Lemma firstMatch_here opn cls close group after : forall before,
  allChars (fun c => negb (c =? opn)%char) before ->
  cls close = false -> group <> EmptyString -> allChars cls group ->
  firstMatch opn cls close
    (before +:+ String opn (group +:+ String close after))
  = Some (group, after).
Proof.
  intros before Hbefore Hclose Hne Hall.
  induction before as [|c before IH].
  - rewrite append_nil_l. cbn [firstMatch].
    rewrite (matchHere_complete _ _ _ _ _ Hclose Hne Hall). reflexivity.
  - destruct Hbefore as [Hc Hbefore]. rewrite append_cons. cbn [firstMatch].
    unfold matchHere at 1. apply negb_true_iff in Hc. rewrite Hc.
    apply IH, Hbefore.
Qed.

Lemma parseLine_target before pattern after :
  allChars (fun c => negb (c =? "[")%char) before ->
  pattern <> EmptyString -> allChars isPatternChar pattern ->
  exists machine,
    parseLine (before +:+ String "[" (pattern +:+ String "]" after))
    = Return machine /\
    target machine
    = (fun ch => (ch =? "#")%char) <$> list_ascii_of_string pattern.
Proof.
  intros Hbefore Hne Hall. unfold parseLine.
  rewrite (firstMatch_here "[" isPatternChar "]" pattern after before
             Hbefore eq_refl Hne Hall).
  eexists. split; reflexivity.
Qed.

(** X21: the target is read from the first bracketed pattern, from left to
    right: on a line whose first [[] opens a pattern of [.] and [#],
    [parseLine] returns a machine with one light per character of the
    pattern, on exactly where the character is [#]. *)
Theorem parseLine_reads_target before pattern after :
  allChars (fun c => negb (c =? "[")%char) before ->
  pattern <> EmptyString -> allChars isPatternChar pattern ->
  exists machine,
    parseLine (before +:+ String "[" (pattern +:+ String "]" after))
    = Return machine /\
    target machine
    = (fun ch => (ch =? "#")%char) <$> list_ascii_of_string pattern.
Proof. apply parseLine_target. Qed.

Lemma parseLine_reads_target_witness :
  exists machine,
    parseLine ("  " +:+ String "[" (".##." +:+ String "]" " (3) {3,5}"))
    = Return machine /\
    target machine = [false; true; true; false].
Proof.
  apply (parseLine_reads_target "  " ".##." " (3) {3,5}");
    [simpl; auto|discriminate|simpl; auto 10].
Defined.

(** ** The enumeration of the free variables *)

Lemma free_bit mask (j : nat) :
  0 <= mask < 2 ^ 30 -> (j <= 30)%nat ->
  negb (JS.band mask (JS.shl 1 (Z.of_nat j)) =? 0)
  = Z.testbit mask (Z.of_nat j).
Proof.
  intros Hm Hj.
  assert (0 < 2 ^ Z.of_nat j <= 2 ^ 30).
  { split; [apply Z.pow_pos_nonneg; lia|apply Z.pow_le_mono_r; lia]. }
  rewrite shl_1_small by lia. unfold JS.band.
  rewrite !toInt32_id by lia.
  rewrite land_pow2_zero by lia. apply negb_involutive.
Qed.

Lemma solutionFor_free machine mask (j c : nat) :
  let B := length (buttons machine) in
  let st := gaussianElimination machine in
  freeVarsOf B (pivotCol st) !! j = Some c ->
  truthy (solutionFor B st (freeVarsOf B (pivotCol st)) mask) c
  = negb (JS.band mask (JS.shl 1 (Z.of_nat j)) =? 0).
Proof.
  intros B st Hj. pose proof (gaussianElimination_echelon machine) as E.
  fold B st in E.
  assert (Hin : c ∈ freeVarsOf B (pivotCol st))
    by (eapply list_elem_of_lookup_2, Hj).
  apply freeVars_spec in Hin as [Hc Hnp].
  unfold solutionFor.
  rewrite (back_other B _ st E).
  - rewrite (assignFree_at _ _ 0 _ j c (freeVars_NoDup _ _) Hj)
      by (rewrite length_replicate; exact Hc).
    reflexivity.
  - rewrite assignFree_length. apply length_replicate.
  - intros k _ Hk. apply Hnp. eapply list_elem_of_lookup_2, Hk.
Qed.

Lemma solutionFor_injective machine mask mask' :
  let B := length (buttons machine) in
  let st := gaussianElimination machine in
  let fvs := freeVarsOf B (pivotCol st) in
  (B <= 30)%nat ->
  0 <= mask < 2 ^ Z.of_nat (length fvs) ->
  0 <= mask' < 2 ^ Z.of_nat (length fvs) ->
  solutionFor B st fvs mask = solutionFor B st fvs mask' ->
  mask = mask'.
Proof.
  intros B st fvs HB Hm Hm' Heq.
  pose proof (freeVars_length B (pivotCol st)) as HF. fold fvs in HF.
  assert (Hpow : 2 ^ Z.of_nat (length fvs) <= 2 ^ 30)
    by (apply Z.pow_le_mono_r; lia).
  apply Z.bits_inj'. intros n Hn.
  destruct (Z.lt_ge_cases n (Z.of_nat (length fvs))) as [Hlt|Hge].
  - destruct (lookup_lt_is_Some_2 fvs (Z.to_nat n)) as [c Hc]; [lia|].
    pose proof (solutionFor_free machine mask (Z.to_nat n) c Hc) as H1.
    pose proof (solutionFor_free machine mask' (Z.to_nat n) c Hc) as H2.
    fold B st fvs in H1, H2.
    rewrite free_bit in H1 by lia. rewrite free_bit in H2 by lia.
    rewrite Z2Nat.id in H1, H2 by lia.
    rewrite <- H1, <- H2, Heq. reflexivity.
  - rewrite <- (Z.mod_small mask (2 ^ Z.of_nat (length fvs))) by lia.
    rewrite <- (Z.mod_small mask' (2 ^ Z.of_nat (length fvs))) by lia.
    rewrite !Z.mod_pow2_bits_high by lia. reflexivity.
Qed.

(** X22: the enumeration visits every solution exactly once.  For a
    machine with at most 30 buttons whose system is consistent, every
    mask below [1 << freeVars.length] gives a subset of buttons that
    produces the target, every such subset is given by some mask, and two
    different masks give different subsets: there are exactly
    2^(numButtons - rank) solutions. *)
Theorem masks_enumerate_solutions machine :
  let B := length (buttons machine) in
  let st := gaussianElimination machine in
  let fvs := freeVarsOf B (pivotCol st) in
  (B <= 30)%nat ->
  inconsistent B st = false ->
  JS.shl 1 (Z.of_nat (length fvs)) = 2 ^ Z.of_nat (B - rank st) /\
  (forall mask, lightsMatch machine (solutionFor B st fvs mask)) /\
  (forall y, lightsMatch machine y ->
     exists mask, 0 <= mask < 2 ^ Z.of_nat (B - rank st) /\
                  solutionFor B st fvs mask = y) /\
  (forall mask mask',
     0 <= mask < 2 ^ Z.of_nat (B - rank st) ->
     0 <= mask' < 2 ^ Z.of_nat (B - rank st) ->
     solutionFor B st fvs mask = solutionFor B st fvs mask' ->
     mask = mask').
Proof.
  intros B st fvs HB Hinc.
  destruct (freeVars_count machine) as [Hcount _]. fold B st fvs in Hcount.
  pose proof (freeVars_length B (pivotCol st)) as HF. fold fvs in HF.
  rewrite <- Hcount. split; [apply shl_1_small; lia|].
  split; [intros mask; apply solutionFor_matches, Hinc|]. split.
  - intros y Hy. exists (maskOfBits (truthy y <$> fvs)). split.
    + pose proof (maskOfBits_range (truthy y <$> fvs)) as Hr.
      rewrite length_fmap in Hr. exact Hr.
    + apply solutionFor_complete; assumption.
  - intros mask mask'. apply solutionFor_injective. exact HB.
Qed.

Lemma masks_enumerate_solutions_witness :
  JS.shl 1 (Z.of_nat (length (freeVarsOf 6
              (pivotCol (gaussianElimination fixture1)))))
  = 2 ^ Z.of_nat (6 - rank (gaussianElimination fixture1)) /\
  lightsMatch fixture1
    (solutionFor 6 (gaussianElimination fixture1)
       (freeVarsOf 6 (pivotCol (gaussianElimination fixture1))) 1).
Proof.
  destruct (masks_enumerate_solutions fixture1) as (H1 & H2 & _);
    [vm_compute; lia|vm_compute; reflexivity|].
  split; [exact H1|apply H2].
Defined.

(** * The arithmetic of the source *)

(** ** Rounding *)

Lemma round_small z : Z.abs z <= 2 ^ 53 -> Binary64.round z = z.
Proof.
  intros Hz. unfold Binary64.round.
  destruct (Z.abs z <=? 2 ^ 53) eqn:E; [reflexivity|].
  apply Z.leb_gt in E. lia.
Qed.

(** Beyond 2^53 the rounded value keeps the sign and stays at 2^53 or
    beyond. *)
Lemma round_far z :
  2 ^ 53 < Z.abs z ->
  exists N, 2 ^ 53 <= N /\ Binary64.round z = Z.sgn z * N.
Proof.
  intros Hz. unfold Binary64.round.
  destruct (Z.abs z <=? 2 ^ 53) eqn:E; [apply Z.leb_le in E; lia|].
  set (a := Z.abs z) in *. set (e := Z.log2 a - 52).
  assert (H53 : 53 <= Z.log2 a).
  { apply Z.log2_le_pow2; lia. }
  assert (He : 0 < e) by (unfold e; lia).
  assert (Hq : 2 ^ 52 <= Z.shiftr a e).
  { rewrite Z.shiftr_div_pow2 by lia.
    apply Z.div_le_lower_bound; [apply Z.pow_pos_nonneg; lia|].
    rewrite <- Z.pow_add_r by lia.
    replace (e + 52) with (Z.log2 a) by (unfold e; lia).
    apply Z.log2_spec. lia. }
  set (q := Z.shiftr a e) in *.
  match goal with |- context [Z.shiftl ?x e] => set (q' := x) end.
  assert (Hq' : 2 ^ 52 <= q') by (unfold q'; destruct (_ || _); lia).
  exists (Z.shiftl q' e). split; [|reflexivity].
  rewrite Z.shiftl_mul_pow2 by lia.
  assert (H2 : 2 ^ 1 <= 2 ^ e) by (apply Z.pow_le_mono_r; lia).
  assert (H1 : 2 ^ 53 = 2 ^ 52 * 2 ^ 1) by reflexivity.
  rewrite H1. apply Z.mul_le_mono_nonneg; lia.
Qed.

Lemma round_negative z : z < 0 -> Binary64.round z < 0.
Proof.
  intros Hz. destruct (Z.le_gt_cases (Z.abs z) (2 ^ 53)) as [Hs|Hb].
  - rewrite round_small by exact Hs. exact Hz.
  - destruct (round_far z Hb) as (N & HN & ->).
    rewrite Z.sgn_neg by exact Hz. lia.
Qed.

Lemma round_nonneg z : 0 <= z -> 0 <= Binary64.round z.
Proof.
  intros Hz. destruct (Z.le_gt_cases (Z.abs z) (2 ^ 53)) as [Hs|Hb].
  - rewrite round_small by exact Hs. exact Hz.
  - destruct (round_far z Hb) as (N & HN & ->).
    rewrite Z.sgn_pos by lia. lia.
Qed.

Lemma round_large z : 2 ^ 53 <= z -> 2 ^ 53 <= Binary64.round z.
Proof.
  intros Hz. destruct (Z.le_gt_cases (Z.abs z) (2 ^ 53)) as [Hs|Hb].
  - rewrite round_small by exact Hs. exact Hz.
  - destruct (round_far z Hb) as (N & HN & ->).
    rewrite Z.sgn_pos by lia. lia.
Qed.

Lemma add_small a b : Z.abs (a + b) <= 2 ^ 53 -> Binary64.add a b = a + b.
Proof. apply round_small. Qed.

Lemma mul_small a b : Z.abs (a * b) <= 2 ^ 53 -> Binary64.mul a b = a * b.
Proof. apply round_small. Qed.

(** A subtraction from a target of at most 2^53 is negative, or exact. *)
Lemma sub_small t count :
  t <= 2 ^ 53 -> 0 <= count ->
  (Binary64.sub t count <? 0) = (t - count <? 0) /\
  (0 <= t - count -> Binary64.sub t count = t - count).
Proof.
  intros Ht Hc. unfold Binary64.sub.
  destruct (Z.lt_ge_cases (t - count) 0) as [Hneg|Hpos].
  - split; [|lia]. pose proof (round_negative _ Hneg).
    destruct (Z.ltb_spec (Binary64.round (t - count)) 0);
      destruct (Z.ltb_spec (t - count) 0); lia || reflexivity.
  - rewrite round_small by lia. split; reflexivity.
Qed.

(** ** The functions of one level *)

Lemma applyPatternFrom_binary64 machine pattern : forall tgt j,
  Forall (fun t => t <= 2 ^ 53) tgt ->
  Binary64.applyPatternFrom machine pattern tgt j
  = applyPatternFrom machine pattern tgt j.
Proof.
  induction tgt as [|t tgt IH]; intros j Hall; [reflexivity|].
  apply Forall_cons in Hall as [Ht Hall]. simpl.
  destruct (sub_small t (countTouching machine pattern j) Ht
              (countTouching_nonneg _ _ _)) as [Hneg Hex].
  rewrite Hneg. destruct (t - countTouching machine pattern j <? 0) eqn:E;
    [reflexivity|].
  apply Z.ltb_ge in E. rewrite (Hex E), (IH (S j) Hall). reflexivity.
Qed.

Lemma applyPattern_binary64 pattern tgt machine :
  Forall (fun t => t <= 2 ^ 53) tgt ->
  Binary64.applyPattern pattern tgt machine = applyPattern pattern tgt machine.
Proof. apply applyPatternFrom_binary64. Qed.

(** [combineSolution] is exact when the entries it computes are within
    2^53. *)
Lemma combineSolution_within pattern (s : list Z) :
  Forall (fun v => - 2 ^ 53 <= v <= 2 ^ 53) (combineSolution pattern s) ->
  Binary64.combineSolution pattern s = combineSolution pattern s.
Proof.
  intros Hall. unfold Binary64.combineSolution, combineSolution.
  apply imap_ext. intros b v Hv.
  rewrite Forall_lookup in Hall.
  specialize (Hall b (if bitSet pattern b then v * 2 + 1 else v * 2)).
  rewrite combineSolution_lookup, Hv in Hall. specialize (Hall eq_refl).
  simpl in Hall.
  destruct (bitSet pattern b).
  - rewrite mul_small by lia. apply add_small. lia.
  - apply mul_small. lia.
Qed.

Lemma combineSolution_binary64 pattern (s : list Z) :
  Forall (fun v => - 2 ^ 52 <= v < 2 ^ 52) s ->
  Binary64.combineSolution pattern s = combineSolution pattern s.
Proof.
  intros Hall. apply combineSolution_within.
  apply Forall_lookup. intros b w Hw. rewrite combineSolution_lookup in Hw.
  destruct (s !! b) as [v|] eqn:Hv; [|discriminate].
  rewrite Forall_lookup in Hall. specialize (Hall b v Hv). simpl in Hall, Hw.
  injection Hw as <-. assert (2 ^ 53 = 2 * 2 ^ 52) by reflexivity.
  destruct (bitSet pattern b); lia.
Qed.

Lemma countBitsLoop_bound : forall turns n c,
  c <= countBitsLoop turns n c <= c + Z.of_nat turns.
Proof.
  induction turns as [|turns IH]; intros n c; [simpl; lia|].
  cbn [countBitsLoop]. destruct (n >? 0); [|lia].
  specialize (IH (JS.shr n 1) (c + JS.band n 1)).
  rewrite band_1 in *. pose proof (Z.mod_pos_bound n 2). lia.
Qed.

Lemma countBits_bound n : 0 <= countBits n <= 33.
Proof.
  pose proof (countBitsLoop_bound 33 n 0). unfold countBits. lia.
Qed.

Lemma sumPresses_binary64 : forall (s : list Z) total,
  Forall (fun v => 0 <= v) s -> 0 <= total ->
  total + sumPresses s <= 2 ^ 53 ->
  foldl Binary64.add total s = total + sumPresses s.
Proof.
  induction s as [|v s IH]; intros total Hall Ht Hsum.
  - simpl. unfold sumPresses. simpl. lia.
  - apply Forall_cons in Hall as [Hv Hall].
    rewrite sumPresses_cons in *.
    pose proof (sumPresses_nonneg s Hall).
    cbn [foldl]. rewrite add_small by lia.
    rewrite IH by (assumption || lia). lia.
Qed.

Lemma sumPresses_exact (s : list Z) :
  Forall (fun v => 0 <= v) s -> sumPresses s <= 2 ^ 53 ->
  Binary64.sumPresses s = sumPresses s.
Proof.
  intros Hall Hsum. unfold Binary64.sumPresses.
  rewrite sumPresses_binary64 by (assumption || lia). lia.
Qed.

(** A sum that [reduce] returns below 2^53 was added up without
    rounding. *)
Lemma foldl_add_below : forall (s : list Z) total y,
  Forall (fun v => 0 <= v) s -> 0 <= total ->
  foldl Binary64.add total s = y -> y < 2 ^ 53 ->
  y = total + sumPresses s.
Proof.
  induction s as [|v s IH]; intros total y Hall Ht Hy Hlt.
  - simpl in Hy. unfold sumPresses. simpl. lia.
  - apply Forall_cons in Hall as [Hv Hall]. cbn [foldl] in Hy.
    pose proof (round_nonneg (total + v) ltac:(lia)) as Hr.
    pose proof (IH (Binary64.add total v) y Hall Hr Hy Hlt) as Hsum.
    pose proof (sumPresses_nonneg s Hall) as Hs.
    rewrite sumPresses_cons.
    destruct (Z.lt_ge_cases (total + v) (2 ^ 53)) as [Hsmall|Hbig].
    + unfold Binary64.add in Hsum. rewrite round_small in Hsum by lia. lia.
    + pose proof (round_large _ Hbig). unfold Binary64.add in *. lia.
Qed.

Lemma better_binary64 pattern sub best :
  (forall c s, cost sub = Some c -> solution sub = Some s ->
     0 <= c /\ countBits pattern + 2 * c <= 2 ^ 53 /\
     Forall (fun v => - 2 ^ 52 <= v < 2 ^ 52) s) ->
  Binary64.better pattern sub best = better pattern sub best.
Proof.
  intros Hb. unfold Binary64.better, better.
  destruct (cost sub) as [c|]; [|reflexivity].
  destruct (solution sub) as [s|]; [|reflexivity].
  destruct (Hb c s eq_refl eq_refl) as (Hc & Htot & Hs).
  pose proof (countBits_bound pattern).
  rewrite mul_small by lia. rewrite add_small by lia.
  rewrite combineSolution_binary64 by exact Hs. reflexivity.
Qed.

(** ** The size of the results *)

Lemma pressBound_nonneg tgt : 0 <= pressBound tgt.
Proof. unfold pressBound. lia. Qed.

Lemma pressBound_step pattern tgt machine nt :
  forallb (fun v => v =? 0) tgt = false ->
  applyPattern pattern tgt machine = Some nt ->
  2 * pressBound nt + 1 <= pressBound tgt.
Proof.
  intros Hz Hap.
  pose proof (applyPattern_positive _ _ _ _ Hz Hap) as Hm.
  pose proof (applyPattern_maxEntry _ _ _ _ Hap) as Hhalf.
  pose proof (maxEntry_nonneg nt) as Hn.
  pose proof (Z.mul_div_le (maxEntry tgt) 2 ltac:(lia)) as Hd.
  unfold pressBound. lia.
Qed.

Lemma safeJoltage_entries tgt :
  safeJoltage tgt -> Forall (fun t => t <= 2 ^ 53) tgt.
Proof.
  unfold safeJoltage. intros Hs. apply Forall_lookup. intros k t Ht.
  pose proof (maxEntry_lookup _ _ _ Ht).
  assert (2 ^ 46 <= 2 ^ 53) by (apply Z.pow_le_mono_r; lia). lia.
Qed.

Lemma safeJoltage_step pattern tgt machine nt :
  safeJoltage tgt -> applyPattern pattern tgt machine = Some nt ->
  safeJoltage nt /\ pressBound nt <= 2 ^ 46 - 1.
Proof.
  unfold safeJoltage. intros Hs Hap.
  pose proof (applyPattern_maxEntry _ _ _ _ Hap) as Hhalf.
  pose proof (maxEntry_nonneg nt) as Hn.
  assert (H46 : 2 ^ 46 = 2 * 2 ^ 45) by reflexivity.
  assert (Hd : maxEntry tgt / 2 <= 2 ^ 45).
  { apply Z.div_le_upper_bound; lia. }
  unfold pressBound. lia.
Qed.

Section Binary64Agrees.

Variable machine : Machine.
Variable table : gmap Z (list Z).

Abbreviation plain := (solveRecursivePlain machine table).
Abbreviation memoized := (solveRecursive machine table).
Abbreviation memoized64 := (Binary64.solveRecursive machine table).

(** No press count of a result exceeds [pressBound], and its cost is at
    most 33 times that. *)
Lemma plain_bounded : forall fuel tgt r,
  plain fuel tgt = Some r ->
  forall c s, cost r = Some c -> solution r = Some s ->
    0 <= c <= 33 * pressBound tgt /\
    Forall (fun v => 0 <= v <= pressBound tgt) s.
Proof.
  induction fuel as [|fuel IH]; intros tgt r Hr; [discriminate|].
  pose proof (pressBound_nonneg tgt) as Hpb.
  simpl in Hr. destruct (forallb _ tgt) eqn:Hz.
  { injection Hr as <-. intros c s [= <-] [= <-]. split; [lia|].
    apply Forall_replicate. lia. }
  destruct (table !! targetParity tgt) as [patterns|] eqn:Htab.
  2:{ injection Hr as <-. discriminate. }
  assert (Hloop : forall pats best r',
    (forall c s, cost best = Some c -> solution best = Some s ->
       0 <= c <= 33 * pressBound tgt /\
       Forall (fun v => 0 <= v <= pressBound tgt) s) ->
    tryPatternsPlain machine (plain fuel) pats tgt best = Some r' ->
    forall c s, cost r' = Some c -> solution r' = Some s ->
      0 <= c <= 33 * pressBound tgt /\
      Forall (fun v => 0 <= v <= pressBound tgt) s).
  { induction pats as [|p pats IHp]; intros best r' Hbest Hrun;
      simpl in Hrun.
    - injection Hrun as <-. exact Hbest.
    - destruct (applyPattern p tgt machine) as [nt|] eqn:Hap;
        [|eapply IHp; eauto].
      destruct (plain fuel nt) as [sub|] eqn:Hsub; [|discriminate].
      eapply IHp; [|exact Hrun].
      destruct (better_cases p sub best) as [->|(c' & s' & Hc' & Hs' & ->)];
        [exact Hbest|].
      destruct (IH _ _ Hsub c' s' Hc' Hs') as [Hcb Hsb].
      pose proof (pressBound_step _ _ _ _ Hz Hap) as Hstep.
      pose proof (countBits_bound p) as Hcnt.
      intros c s [= <-] [= <-]. split; [lia|].
      apply Forall_lookup. intros b v Hv.
      rewrite combineSolution_lookup in Hv.
      destruct (s' !! b) as [v'|] eqn:Hv'; [|discriminate].
      rewrite Forall_lookup in Hsb. specialize (Hsb b v' Hv').
      simpl in Hv. injection Hv as <-.
      destruct (bitSet p b); lia. }
  destruct patterns as [|p pats]; [injection Hr as <-; discriminate|].
  eapply Hloop; [|exact Hr]. discriminate.
Qed.

Lemma plainResult_bounded tgt r c s :
  plainResult machine table tgt r ->
  cost r = Some c -> solution r = Some s ->
  0 <= c <= 33 * pressBound tgt /\
  Forall (fun v => 0 <= v <= pressBound tgt) s.
Proof.
  intros [depth Hd]. eapply plain_bounded. apply (Hd depth). lia.
Qed.

(** Within [safeJoltage] the loop over the patterns computes as over the
    integers. *)
Lemma tryPatterns_binary64 (f : nat) tgt :
  (forall memo t, memoSound machine table memo -> safeJoltage t ->
     memoized64 f memo t = memoized f memo t) ->
  safeJoltage tgt ->
  forall pats best memo,
    memoSound machine table memo ->
    Binary64.tryPatterns machine (memoized64 f) pats tgt best memo
    = tryPatterns machine (memoized f) pats tgt best memo.
Proof.
  intros IHf Hsafe.
  induction pats as [|p pats IHp]; intros best memo Hmemo; [reflexivity|].
  cbn [Binary64.tryPatterns tryPatterns].
  rewrite applyPattern_binary64 by (apply safeJoltage_entries, Hsafe).
  destruct (applyPattern p tgt machine) as [nt|] eqn:Hap;
    [|apply IHp, Hmemo].
  destruct (safeJoltage_step _ _ _ _ Hsafe Hap) as [Hnt Hpb].
  rewrite (IHf memo nt Hmemo Hnt).
  destruct (memoized f memo nt) as [[sub memo1]|] eqn:Hsub; [|reflexivity].
  destruct (memoized_sound _ _ _ _ _ _ _ Hmemo Hsub) as [Hres Hmemo1].
  rewrite better_binary64; [apply IHp, Hmemo1|].
  intros c s Hc Hs.
  destruct (plainResult_bounded _ _ _ _ Hres Hc Hs) as [Hcb Hsb].
  pose proof (countBits_bound p) as Hcnt.
  assert (H53 : 2 ^ 53 = 128 * 2 ^ 46) by reflexivity.
  assert (H52 : 2 ^ 52 = 64 * 2 ^ 46) by reflexivity.
  assert (0 < 2 ^ 46) by (apply Z.pow_pos_nonneg; lia).
  split; [lia|]. split; [lia|].
  eapply Forall_impl; [exact Hsb|]. intros v Hv. simpl in Hv. lia.
Qed.

Lemma solveRecursive_binary64 : forall fuel memo tgt,
  memoSound machine table memo -> safeJoltage tgt ->
  memoized64 fuel memo tgt = memoized fuel memo tgt.
Proof.
  induction fuel as [|fuel IH]; intros memo tgt Hmemo Hsafe; [reflexivity|].
  cbn [Binary64.solveRecursive solveRecursive].
  destruct (forallb _ tgt); [reflexivity|].
  destruct (memo !! JS.join tgt); [reflexivity|].
  destruct (table !! targetParity tgt) as [[|p pats]|]; try reflexivity.
  rewrite (tryPatterns_binary64 fuel tgt IH Hsafe (p :: pats) nullResult memo
             Hmemo).
  reflexivity.
Qed.

End Binary64Agrees.

(** Within [safeJoltage] the reduction solver of the source computes as
    over the integers. *)
Lemma solveMachineJoltage_binary64 machine fuel :
  safeJoltage (joltage machine) ->
  Binary64.solveMachineJoltage machine fuel = solveMachineJoltage machine fuel.
Proof.
  intros Hsafe. unfold Binary64.solveMachineJoltage, solveMachineJoltage.
  destruct (length (joltage machine) =? 0)%nat; [reflexivity|].
  rewrite solveRecursive_binary64; [reflexivity|apply memoSound_empty|].
  exact Hsafe.
Qed.

(** ** The returned presses reach the target

    That the presses reach the target does not depend on the costs: it
    holds as long as twice the presses of a sub-solution, plus one, stay
    within 2^53, that is for targets of at most 2^52. *)

Lemma reach_step pattern tgt machine nt :
  maxEntry tgt <= 2 ^ 52 ->
  applyPattern pattern tgt machine = Some nt ->
  maxEntry nt <= 2 ^ 52 /\ pressBound nt <= 2 ^ 52 - 1.
Proof.
  intros Hs Hap.
  pose proof (applyPattern_maxEntry _ _ _ _ Hap) as Hhalf.
  pose proof (maxEntry_nonneg nt) as Hn.
  assert (H52 : 2 ^ 52 = 2 * 2 ^ 51) by reflexivity.
  assert (Hd : maxEntry tgt / 2 <= 2 ^ 51).
  { apply Z.div_le_upper_bound; lia. }
  unfold pressBound. lia.
Qed.

Lemma entries_within tgt :
  maxEntry tgt <= 2 ^ 52 -> Forall (fun t => t <= 2 ^ 53) tgt.
Proof.
  intros Hs. apply Forall_lookup. intros k t Ht.
  pose proof (maxEntry_lookup _ _ _ Ht).
  assert (2 ^ 53 = 2 * 2 ^ 52) by reflexivity.
  assert (0 < 2 ^ 52) by (apply Z.pow_pos_nonneg; lia). lia.
Qed.

Section Reached.

Variable machine : Machine.
Variable table : gmap Z (list Z).

Abbreviation memoized64 := (Binary64.solveRecursive machine table).

Lemma memoReached_insert memo tgt r :
  memoReached machine memo -> reachedResult machine tgt r ->
  memoReached machine (<[JS.join tgt := r]> memo).
Proof.
  intros Hmemo Hr key r' Hk.
  apply lookup_insert_Some in Hk as [[<- <-]|[_ Hk]]; [eauto|].
  apply Hmemo, Hk.
Qed.

Lemma better_reached pattern tgt nt sub best :
  maxEntry tgt <= 2 ^ 52 ->
  forallb (fun v => v =? 0) tgt = false ->
  applyPattern pattern tgt machine = Some nt ->
  reachedResult machine nt sub -> reachedResult machine tgt best ->
  reachedResult machine tgt (Binary64.better pattern sub best).
Proof.
  intros Hs Hz Hap Hsub Hbest. unfold Binary64.better.
  destruct (cost sub) as [c|]; [|exact Hbest].
  unfold reachedResult in Hsub.
  destruct (solution sub) as [s|]; [|exact Hbest].
  destruct (match cost best with Some _ => _ | None => _ end);
    [|exact Hbest].
  destruct Hsub as [Hr Hb].
  destruct (reach_step _ _ _ _ Hs Hap) as [_ Hpb].
  pose proof (pressBound_step _ _ _ _ Hz Hap) as Hstep.
  assert (Hent : Forall (fun v => 0 <= v <= pressBound nt) s).
  { destruct Hr as (_ & Hpos & _). apply Forall_lookup. intros k v Hv.
    rewrite Forall_lookup in Hpos, Hb.
    specialize (Hpos k v Hv). specialize (Hb k v Hv). simpl in *. lia. }
  unfold reachedResult. cbn [solution].
  rewrite combineSolution_binary64.
  2:{ eapply Forall_impl; [exact Hent|]. intros v Hv. simpl in Hv. lia. }
  split; [eapply reaches_combine; eassumption|].
  apply Forall_lookup. intros b v Hv. rewrite combineSolution_lookup in Hv.
  destruct (s !! b) as [v'|] eqn:Hv'; [|discriminate].
  rewrite Forall_lookup in Hent. specialize (Hent b v' Hv').
  simpl in Hv, Hent. injection Hv as <-. destruct (bitSet pattern b); lia.
Qed.

Lemma tryPatterns_reached (f : nat) tgt :
  (forall memo t r memo', memoReached machine memo -> maxEntry t <= 2 ^ 52 ->
     memoized64 f memo t = Some (r, memo') ->
     reachedResult machine t r /\ memoReached machine memo') ->
  maxEntry tgt <= 2 ^ 52 ->
  forallb (fun v => v =? 0) tgt = false ->
  forall pats best memo r memo',
    reachedResult machine tgt best -> memoReached machine memo ->
    Binary64.tryPatterns machine (memoized64 f) pats tgt best memo
      = Some (r, memo') ->
    reachedResult machine tgt r /\ memoReached machine memo'.
Proof.
  intros IHf Hs Hz.
  induction pats as [|p pats IHp]; intros best memo r memo' Hbest Hmemo Hrun;
    cbn [Binary64.tryPatterns] in Hrun.
  { injection Hrun as <- <-. split; assumption. }
  rewrite applyPattern_binary64 in Hrun by (apply entries_within, Hs).
  destruct (applyPattern p tgt machine) as [nt|] eqn:Hap;
    [|eapply IHp; eassumption].
  destruct (memoized64 f memo nt) as [[sub memo1]|] eqn:Hsub; [|discriminate].
  destruct (reach_step _ _ _ _ Hs Hap) as [Hnt _].
  destruct (IHf _ _ _ _ Hmemo Hnt Hsub) as [Hsubr Hmemo1].
  eapply IHp; [|exact Hmemo1|exact Hrun].
  eapply better_reached; eassumption.
Qed.

Lemma solveRecursive_reached : forall fuel memo tgt r memo',
  memoReached machine memo -> maxEntry tgt <= 2 ^ 52 ->
  memoized64 fuel memo tgt = Some (r, memo') ->
  reachedResult machine tgt r /\ memoReached machine memo'.
Proof.
  induction fuel as [|fuel IH]; intros memo tgt r memo' Hmemo Hs Hrun;
    [discriminate|].
  cbn [Binary64.solveRecursive] in Hrun.
  destruct (forallb _ tgt) eqn:Hz.
  { injection Hrun as <- <-. split; [|exact Hmemo].
    split; [apply reaches_zero, Hz|].
    apply Forall_replicate. apply pressBound_nonneg. }
  destruct (memo !! JS.join tgt) as [cached|] eqn:Hkey.
  { injection Hrun as <- <-. split; [|exact Hmemo].
    destruct (Hmemo _ _ Hkey) as (tgt' & Heq & Hr).
    apply join_inj in Heq as <-. exact Hr. }
  assert (Hnull : reachedResult machine tgt nullResult) by exact I.
  destruct (table !! targetParity tgt) as [[|p pats]|].
  - injection Hrun as <- <-.
    split; [exact Hnull|apply memoReached_insert; assumption].
  - destruct (Binary64.tryPatterns machine (memoized64 fuel) (p :: pats) tgt
                nullResult memo) as [[best memo1]|] eqn:Hloop;
      [|discriminate].
    injection Hrun as <- <-.
    destruct (tryPatterns_reached fuel tgt IH Hs Hz _ _ _ _ _ Hnull Hmemo
                Hloop) as [Hbest Hmemo1].
    split; [exact Hbest|apply memoReached_insert; assumption].
  - injection Hrun as <- <-.
    split; [exact Hnull|apply memoReached_insert; assumption].
Qed.

End Reached.

Lemma solveMachineJoltage_reached machine fuel s :
  maxEntry (joltage machine) <= 2 ^ 52 ->
  Binary64.solveMachineJoltage machine fuel = Some (Some s) ->
  reaches machine s (joltage machine).
Proof.
  intros Hs Hrun. unfold Binary64.solveMachineJoltage in Hrun.
  destruct (length (joltage machine) =? 0)%nat eqn:Hlen.
  { injection Hrun as <-. apply reaches_zero.
    apply Nat.eqb_eq, nil_length_inv in Hlen. rewrite Hlen. reflexivity. }
  destruct (Binary64.solveRecursive _ _ fuel ∅ (joltage machine))
    as [[r memo']|] eqn:Hr; [|discriminate].
  injection Hrun as Hsol.
  destruct (solveRecursive_reached machine _ _ _ _ _ _
              ltac:(intros key r0 Hk; rewrite lookup_empty in Hk; discriminate)
              Hs Hr) as [Hres _].
  unfold reachedResult in Hres. rewrite Hsol in Hres. apply Hres.
Qed.

(** ** The reduction solver within the safe range *)

(** The press vector returned within the safe range has a sum below 2^53,
    which [reduce] computes without rounding. *)
Lemma solution_sum_exact machine fuel s :
  (length (buttons machine) <= 32)%nat ->
  safeJoltage (joltage machine) ->
  solveMachineJoltage machine fuel = Some (Some s) ->
  Binary64.sumPresses s = sumPresses s /\ 0 <= sumPresses s <= 2 ^ 53.
Proof.
  intros HB Hsafe Hrun.
  assert (Hgoal : Forall (fun v => 0 <= v) s /\ sumPresses s <= 2 ^ 53).
  { unfold solveMachineJoltage in Hrun.
    destruct (length (joltage machine) =? 0)%nat.
    { injection Hrun as <-. rewrite sumPresses_replicate.
      split; [apply Forall_replicate; lia|lia]. }
    destruct (solveRecursive _ _ fuel ∅ (joltage machine))
      as [[r memo']|] eqn:Hr; [|discriminate].
    injection Hrun as Hs.
    destruct (memoized_sound _ _ _ _ _ _ _ (memoSound_empty _ _) Hr)
      as [Hres _].
    pose proof (plainResult_invariant _ _ _ HB Hres) as Hinv.
    unfold resultInvariant in Hinv. rewrite Hs in Hinv.
    destruct (cost r) as [c|] eqn:Hc; [|destruct Hinv].
    destruct Hinv as [Hsum Hpos]. split; [exact Hpos|].
    destruct (plainResult_bounded _ _ _ _ _ _ Hres Hc Hs) as [Hcb _].
    unfold safeJoltage in Hsafe. unfold pressBound in Hcb.
    pose proof (maxEntry_nonneg (joltage machine)).
    assert (H53 : 2 ^ 53 = 128 * 2 ^ 46) by reflexivity. lia. }
  destruct Hgoal as [Hpos Hle].
  split; [apply sumPresses_exact; assumption|].
  split; [apply sumPresses_nonneg, Hpos|exact Hle].
Qed.

Lemma solveMachineJoltage_safe machine fuel :
  (length (buttons machine) <= 30)%nat ->
  safeJoltage (joltage machine) ->
  (depthBound (joltage machine) <= fuel)%nat ->
  match Binary64.solveMachineJoltage machine fuel with
  | Some (Some s) =>
      reaches machine s (joltage machine) /\
      Binary64.sumPresses s = sumPresses s /\
      forall p, reaches machine p (joltage machine) ->
                sumPresses s <= sumPresses p
  | Some None => forall p, ~ reaches machine p (joltage machine)
  | None => False
  end.
Proof.
  intros HB Hsafe Hfuel. rewrite solveMachineJoltage_binary64 by exact Hsafe.
  pose proof (solveMachineJoltage_spec machine fuel HB Hfuel) as Hspec.
  destruct (solveMachineJoltage machine fuel) as [[s|]|] eqn:Hrun;
    [|exact Hspec|exact Hspec].
  destruct Hspec as [Hr Hmin]. split; [exact Hr|]. split; [|exact Hmin].
  apply (solution_sum_exact machine fuel s); [lia|exact Hsafe|exact Hrun].
Qed.

(** C2, amended: for every machine with at most 30 buttons and joltages
    of at most 2^46, given fuel for the depth of the recursion,
    [solveMachineJoltage] returns a press vector that reaches the joltage
    and whose sum, which [reduce] computes without rounding, is the
    minimum over all vectors of non-negative press counts that reach it;
    and it returns null exactly when no such vector exists. *)
Theorem solveMachineJoltage_minimal machine fuel :
  (length (buttons machine) <= 30)%nat ->
  safeJoltage (joltage machine) ->
  (depthBound (joltage machine) <= fuel)%nat ->
  match Binary64.solveMachineJoltage machine fuel with
  | Some (Some s) =>
      reaches machine s (joltage machine) /\
      Binary64.sumPresses s = sumPresses s /\
      forall p, reaches machine p (joltage machine) ->
                sumPresses s <= sumPresses p
  | Some None => forall p, ~ reaches machine p (joltage machine)
  | None => False
  end.
Proof. apply solveMachineJoltage_safe. Qed.

Lemma solveMachineJoltage_minimal_witness :
  (length (buttons fixture1) <= 30)%nat /\
  safeJoltage (joltage fixture1) /\
  (depthBound (joltage fixture1) <= 4)%nat /\
  match Binary64.solveMachineJoltage fixture1 4 with
  | Some (Some s) =>
      reaches fixture1 s (joltage fixture1) /\
      Binary64.sumPresses s = sumPresses s /\
      forall p, reaches fixture1 p (joltage fixture1) ->
                sumPresses s <= sumPresses p
  | Some None => forall p, ~ reaches fixture1 p (joltage fixture1)
  | None => False
  end.
Proof.
  assert (H1 : (length (buttons fixture1) <= 30)%nat) by (vm_compute; lia).
  assert (H2 : safeJoltage (joltage fixture1))
    by (vm_compute; discriminate).
  assert (H3 : (depthBound (joltage fixture1) <= 4)%nat) by (vm_compute; lia).
  split; [exact H1|]. split; [exact H2|]. split; [exact H3|].
  apply (solveMachineJoltage_minimal fixture1 4 H1 H2 H3).
Defined.

Lemma solveMachineJoltage_safe_sound machine fuel s :
  safeJoltage (joltage machine) ->
  Binary64.solveMachineJoltage machine fuel = Some (Some s) ->
  reaches machine s (joltage machine).
Proof.
  intros Hsafe. rewrite solveMachineJoltage_binary64 by exact Hsafe.
  apply solveMachineJoltage_sound.
Qed.

(** C3, amended: for every machine whose joltages are at most 2^52, every
    press vector that [solveMachineJoltage] returns satisfies the system
    exactly: it has one non-negative press count per button, and for
    every counter the presses of the buttons touching it add up to the
    joltage of the counter. *)
Theorem solveMachineJoltage_reaches machine fuel s :
  maxEntry (joltage machine) <= 2 ^ 52 ->
  Binary64.solveMachineJoltage machine fuel = Some (Some s) ->
  reaches machine s (joltage machine).
Proof. apply solveMachineJoltage_reached. Qed.

Lemma solveMachineJoltage_reaches_witness :
  maxEntry (joltage fixture1) <= 2 ^ 52 /\
  Binary64.solveMachineJoltage fixture1 4 = Some (Some [1; 5; 0; 1; 3; 0]) /\
  reaches fixture1 [1; 5; 0; 1; 3; 0] (joltage fixture1).
Proof.
  assert (H1 : maxEntry (joltage fixture1) <= 2 ^ 52)
    by (vm_compute; discriminate).
  assert (H2 : Binary64.solveMachineJoltage fixture1 4
               = Some (Some [1; 5; 0; 1; 3; 0]))
    by (vm_compute; reflexivity).
  split; [exact H1|]. split; [exact H2|].
  apply (solveMachineJoltage_reaches fixture1 4 _ H1 H2).
Defined.

(** C3 as stated fails beyond 2^53.  On [bigMachine] the presses that
    reach the joltage are 1 and 2^53 + 1, and the source computes the
    second as [2^52 * 2 + 1], which is rounded to 2^53: the vector it
    returns brings counter 0 to 2^53 + 1, not to its joltage 2^53 + 2. *)
Lemma rounded_solution_misses_joltage :
  Binary64.solveMachineJoltage bigMachine 55 = Some (Some [1; 2 ^ 53]) /\
  Binary64.add (Binary64.mul (2 ^ 52) 2) 1 = 2 ^ 53 /\
  joltage bigMachine !! 0%nat = Some (2 ^ 53 + 2) /\
  counterSum (buttons bigMachine) [1; 2 ^ 53] 0 = 2 ^ 53 + 1 /\
  ~ reaches bigMachine [1; 2 ^ 53] (joltage bigMachine).
Proof.
  split; [vm_compute; reflexivity|]. split; [vm_compute; reflexivity|].
  split; [reflexivity|]. split; [vm_compute; reflexivity|].
  intros (_ & _ & Hsum). specialize (Hsum 0%nat (2 ^ 53 + 2) eq_refl).
  vm_compute in Hsum. discriminate.
Qed.

Lemma recursion_invariant_safe machine fuel tgt r memo' :
  (length (buttons machine) <= 32)%nat ->
  safeJoltage tgt ->
  Binary64.solveRecursive machine (precomputeParityPatterns machine) fuel ∅ tgt
    = Some (r, memo') ->
  resultInvariant r /\
  forall key r', memo' !! key = Some r' -> resultInvariant r'.
Proof.
  intros HB Hsafe Hr.
  rewrite solveRecursive_binary64 in Hr
    by (apply memoSound_empty || exact Hsafe).
  destruct (memoized_sound _ _ _ _ _ _ _ (memoSound_empty _ _) Hr)
    as [Hres Hmemo].
  split; [eapply plainResult_invariant; eauto|].
  intros key r' Hk. destruct (Hmemo key r' Hk) as (tgt' & _ & Hres').
  eapply plainResult_invariant; eauto.
Qed.

(** C10, amended: for every machine with at most 32 buttons and every
    target vector with entries of at most 2^46, every Result the
    recursion produces, the one it returns and the ones it has stored in
    the memo table, has [cost] null exactly when [solution] is null, and
    otherwise [cost] is the sum of the entries of [solution], which are
    all non-negative. *)
Theorem solveRecursive_result_invariant machine fuel tgt r memo' :
  (length (buttons machine) <= 32)%nat ->
  safeJoltage tgt ->
  Binary64.solveRecursive machine (precomputeParityPatterns machine) fuel ∅ tgt
    = Some (r, memo') ->
  resultInvariant r /\
  forall key r', memo' !! key = Some r' -> resultInvariant r'.
Proof. apply recursion_invariant_safe. Qed.

Lemma solveRecursive_result_invariant_witness :
  exists memo',
    Binary64.solveRecursive fixture3 (precomputeParityPatterns fixture3) 5 ∅
      (joltage fixture3)
    = Some (mkResult (Some 11) (Some [5; 0; 5; 1]), memo') /\
    resultInvariant (mkResult (Some 11) (Some [5; 0; 5; 1])).
Proof.
  destruct (Binary64.solveRecursive fixture3 (precomputeParityPatterns fixture3)
              5 ∅ (joltage fixture3)) as [[r memo']|] eqn:Hrun.
  - assert (Hr : Some r = Some (mkResult (Some 11) (Some [5; 0; 5; 1]))).
    { change (Some r) with (fst <$> Some (r, memo')). rewrite <- Hrun.
      vm_compute. reflexivity. }
    injection Hr as ->. exists memo'. split; [reflexivity|].
    apply (solveRecursive_result_invariant fixture3 5 (joltage fixture3)
             _ memo'); [vm_compute; lia|vm_compute; discriminate|exact Hrun].
  - exfalso.
    assert (Hn : is_Some (Binary64.solveRecursive fixture3
                            (precomputeParityPatterns fixture3) 5 ∅
                            (joltage fixture3)))
      by (vm_compute; eauto).
    rewrite Hrun in Hn. destruct Hn as [x Hx]. discriminate.
Defined.

(** ** A counter that no button touches *)

Lemma countFrom_untouched j : forall bs b mask count,
  existsb (fun button => includes button j) bs = false ->
  countFrom bs b mask j count = count.
Proof.
  induction bs as [|button bs IH]; intros b mask count Hno; [reflexivity|].
  simpl in Hno. apply orb_false_elim in Hno as [Hb Hbs].
  simpl. rewrite Hb, andb_false_r. apply IH, Hbs.
Qed.

(** The recursion answers within as many levels as the target of the
    untouched counter can be halved, and one more. *)
Lemma untouched_answers machine table (i : nat) :
  existsb (fun button => includes button (Z.of_nat i)) (buttons machine)
    = false ->
  forall fuel memo tgt t,
    tgt !! i = Some t -> 0 < t -> t mod 2 ^ Z.of_nat fuel <> 0 ->
    is_Some (solveRecursive machine table fuel memo tgt).
Proof.
  intros Hno. induction fuel as [|fuel IH]; intros memo tgt t Hi Ht Hmod.
  { rewrite Z.mod_1_r in Hmod. lia. }
  cbn [solveRecursive].
  destruct (forallb _ tgt); [eauto|].
  destruct (memo !! JS.join tgt); [eauto|].
  destruct (table !! targetParity tgt) as [[|p pats]|]; [eauto| |eauto].
  destruct (tryPatterns_total machine (solveRecursive machine table fuel)
              tgt (p :: pats) nullResult memo) as [[best memo'] Hrun].
  2:{ rewrite Hrun. eauto. }
  intros q nt memo1 _ Hap.
  destruct (applyPatternFrom_Some _ _ _ _ _ Hap) as [_ Hk].
  destruct (Hk i t Hi) as (n & Hn & Hn0 & Heq).
  unfold countTouching in Heq. rewrite countFrom_untouched in Heq by exact Hno.
  apply (IH memo1 nt n Hn); [lia|].
  intros Hz. apply Hmod.
  rewrite Nat2Z.inj_succ, Z.pow_succ_r by lia.
  replace t with (2 * n) by lia.
  rewrite Z.mul_mod_distr_l by (try apply Z.pow_nonzero; lia).
  lia.
Qed.

Lemma untouched_null machine fuel (i : nat) t :
  joltage machine !! i = Some t ->
  0 < t ->
  existsb (fun button => includes button (Z.of_nat i)) (buttons machine)
    = false ->
  t mod 2 ^ Z.of_nat fuel <> 0 ->
  solveMachineJoltage machine fuel = Some None.
Proof.
  intros Hi Ht Hno Hmod. unfold solveMachineJoltage.
  destruct (length (joltage machine) =? 0)%nat eqn:Hlen.
  { apply Nat.eqb_eq in Hlen. apply lookup_lt_Some in Hi. lia. }
  destruct (untouched_answers machine (precomputeParityPatterns machine) i Hno
              fuel ∅ (joltage machine) t Hi Ht Hmod) as [[r memo'] Hr].
  rewrite Hr. f_equal.
  destruct (memoized_sound _ _ _ _ _ _ _ (memoSound_empty _ _) Hr)
    as [[depth Hres] _].
  pose proof (plain_sound _ _ _ _ _ (Hres depth ltac:(lia))) as Hsound.
  unfold soundResult in Hsound.
  destruct (cost r), (solution r) as [s|]; try contradiction; [|reflexivity].
  exfalso. destruct Hsound as (_ & _ & Hsum).
  specialize (Hsum i t Hi). rewrite counterSum_untouched in Hsum by exact Hno.
  lia.
Qed.

(** C6, amended: a machine with a counter of positive joltage that no
    button touches is reported unsolvable.  Nothing is checked before the
    recursion starts: the recursion itself finds it, and it has answered
    null once its depth exceeds the number of times the joltage of that
    counter can be halved, that is with fuel [k + 1] at the latest when
    [2^k] is the largest power of 2 that divides it. *)
Theorem untouched_counter_unsolvable machine fuel (i : nat) t :
  joltage machine !! i = Some t ->
  0 < t ->
  existsb (fun button => includes button (Z.of_nat i)) (buttons machine)
    = false ->
  t mod 2 ^ Z.of_nat fuel <> 0 ->
  solveMachineJoltage machine fuel = Some None.
Proof. apply untouched_null. Qed.

Lemma untouched_counter_unsolvable_witness :
  joltage untouchedMachine !! 0%nat = Some 4 /\
  solveMachineJoltage untouchedMachine 3 = Some None.
Proof.
  split; [reflexivity|].
  apply (untouched_counter_unsolvable untouchedMachine 3 0 4);
    [reflexivity | lia | reflexivity | vm_compute; discriminate].
Defined.

(** ** The aggregators within the safe range *)

Lemma sumCosts_nonneg costs : Forall (fun c => 0 <= c) costs -> 0 <= sumCosts costs.
Proof. apply sumPresses_nonneg. Qed.

(** As long as the running total stays within 2^53, [total += ...] adds
    the costs exactly. *)
Lemma solvePart2From_safe_costs fuel : forall solved costs rest total,
  Forall2 (fun m c => exists s,
             Binary64.solveMachineJoltage m fuel = Some (Some s) /\
             Binary64.sumPresses s = c /\ 0 <= c) solved costs ->
  0 <= total -> total + sumCosts costs <= 2 ^ 53 ->
  Binary64.solvePart2From fuel (solved ++ rest) total
  = Binary64.solvePart2From fuel rest (total + sumCosts costs).
Proof.
  induction solved as [|m solved IH]; intros costs rest total Hall Ht Hsum.
  - apply Forall2_nil_inv_l in Hall as ->. simpl. f_equal.
    unfold sumCosts. simpl. lia.
  - apply Forall2_cons_inv_l in Hall
      as (c & costs' & (s & Hs & Hc & Hc0) & Hall & ->).
    rewrite sumCosts_cons in Hsum |- *.
    assert (Hrest : 0 <= sumCosts costs').
    { apply sumCosts_nonneg. clear -Hall.
      induction Hall as [|m c ms cs (s & _ & _ & H0) _ IH]; constructor;
        assumption. }
    simpl. rewrite Hs, Hc. rewrite add_small by lia.
    rewrite (IH costs' rest (total + c) Hall) by lia. f_equal. lia.
Qed.

(** The machines before an unsolvable one do not keep the error from
    being thrown, whatever the running total. *)
Lemma solvePart2From_safe_throw fuel failed rest : forall solved total,
  Forall (fun m => exists s,
            Binary64.solveMachineJoltage m fuel = Some (Some s)) solved ->
  Binary64.solveMachineJoltage failed fuel = Some None ->
  Binary64.solvePart2From fuel (solved ++ failed :: rest) total
  = Some (Throw "No solution found for a machine (joltage)").
Proof.
  induction solved as [|m solved IH]; intros total Hall Hf.
  - simpl. rewrite Hf. reflexivity.
  - apply Forall_cons in Hall as [[s Hs] Hall]. simpl. rewrite Hs.
    apply IH; assumption.
Qed.

Lemma joltage_safe_costs fuel : forall solved,
  Forall (withinLimits fuel) solved ->
  Forall (fun m => safeJoltage (joltage m)) solved ->
  Forall (fun m => exists p, reaches m p (joltage m)) solved ->
  exists costs,
    Forall2 minimalJoltage solved costs /\
    Forall2 (fun m c => exists s,
               Binary64.solveMachineJoltage m fuel = Some (Some s) /\
               Binary64.sumPresses s = c /\ 0 <= c) solved costs.
Proof.
  intros solved Hlim Hsafe Hsolv.
  destruct (joltage_costs fuel solved Hlim Hsolv) as (costs & Hmin & Hout).
  exists costs. split; [exact Hmin|].
  clear Hmin Hsolv. revert Hlim Hsafe.
  induction Hout as [|m c ms cs (s & Hs & Hc) _ IH]; intros Hlim Hsafe;
    constructor.
  - apply Forall_cons in Hlim as [[HB _] _].
    apply Forall_cons in Hsafe as [Hsafe _].
    exists s. rewrite solveMachineJoltage_binary64 by exact Hsafe.
    destruct (solution_sum_exact m fuel s ltac:(lia) Hsafe Hs) as [He Hb].
    split; [exact Hs|]. split; [congruence|lia].
  - apply Forall_cons in Hlim as [_ Hlim].
    apply Forall_cons in Hsafe as [_ Hsafe]. apply IH; assumption.
Qed.

(** C7, amended: for every sequence of machines within the limits of the
    solvers (at most 30 buttons each and, for the reduction solver,
    joltages of at most 2^46), each aggregator returns the sum of the
    minimal costs of the machines when all of them are solvable (for the
    reduction solver: when that sum is at most 2^53), and throws,
    returning no partial sum, at the first machine that is unsolvable,
    whatever machines follow it.  The error is a fixed message: it does
    not tell which machine failed. *)
Theorem batch_aggregators fuel (solved : list Machine) (failed : Machine)
    (rest : list Machine) :
  Forall (withinLimits fuel) (solved ++ [failed]) ->
  (Forall (fun m => exists x, lightsMatch m x) solved ->
   (exists costs,
      Forall2 minimalLights solved costs /\
      solvePart1 solved = Return (JS.Int (sumCosts costs))) /\
   ((forall x, ~ lightsMatch failed x) ->
    solvePart1 (solved ++ failed :: rest)
    = Throw "No solution found for a machine (lights)")) /\
  (Forall (fun m => safeJoltage (joltage m)) (solved ++ [failed]) ->
   Forall (fun m => exists p, reaches m p (joltage m)) solved ->
   (exists costs,
      Forall2 minimalJoltage solved costs /\
      (sumCosts costs <= 2 ^ 53 ->
       Binary64.solvePart2 fuel solved = Some (Return (sumCosts costs)))) /\
   ((forall p, ~ reaches failed p (joltage failed)) ->
    Binary64.solvePart2 fuel (solved ++ failed :: rest)
    = Some (Throw "No solution found for a machine (joltage)"))).
Proof.
  intros Hlim. apply Forall_app in Hlim as [Hlim Hfailed].
  apply Forall_singleton in Hfailed as [HBf Hfuelf].
  split.
  - intros Hsolv.
    destruct (lights_costs solved) as (costs & Hmin & Hout); [|exact Hsolv|].
    { eapply Forall_impl; [exact Hlim|]. intros m [H _]. exact H. }
    split.
    + exists costs. split; [exact Hmin|]. unfold solvePart1.
      rewrite <- (app_nil_r solved) at 1.
      rewrite (solvePart1From_costs _ _ _ _ Hout). reflexivity.
    + intros Hno. unfold solvePart1.
      rewrite (solvePart1From_costs _ _ _ _ Hout). simpl.
      destruct (solveMachineLights_spec failed HBf)
        as [[-> _]|(x & Hx & _)]; [reflexivity|destruct (Hno x Hx)].
  - intros Hsafe Hsolv. apply Forall_app in Hsafe as [Hsafe Hsafef].
    rewrite Forall_singleton in Hsafef.
    destruct (joltage_safe_costs fuel solved Hlim Hsafe Hsolv)
      as (costs & Hmin & Hout).
    split.
    + exists costs. split; [exact Hmin|]. intros Hsum.
      unfold Binary64.solvePart2.
      rewrite <- (app_nil_r solved) at 1.
      rewrite (solvePart2From_safe_costs _ _ _ _ _ Hout) by lia.
      reflexivity.
    + intros Hno. apply solvePart2From_safe_throw.
      * clear -Hout. induction Hout as [|m c ms cs (s & Hs & _) _ IH];
          constructor; eauto.
      * pose proof (solveMachineJoltage_safe failed fuel HBf Hsafef Hfuelf)
          as Hspec.
        destruct (Binary64.solveMachineJoltage failed fuel) as [[s|]|];
          [destruct Hspec as [Hr _]; destruct (Hno s Hr)|reflexivity
          |contradiction].
Qed.

Lemma fixture_safeJoltage :
  Forall (fun m => safeJoltage (joltage m)) (fixture ++ [stuckMachine]).
Proof. repeat constructor; vm_compute; discriminate. Qed.

Lemma batch_aggregators_witness :
  (exists costs,
     Forall2 minimalLights fixture costs /\
     solvePart1 fixture = Return (JS.Int (sumCosts costs))) /\
  solvePart1 (fixture ++ stuckMachine :: [idleMachine])
  = Throw "No solution found for a machine (lights)" /\
  (exists costs,
     Forall2 minimalJoltage fixture costs /\
     (sumCosts costs <= 2 ^ 53 ->
      Binary64.solvePart2 5 fixture = Some (Return (sumCosts costs)))) /\
  Binary64.solvePart2 5 (fixture ++ stuckMachine :: [idleMachine])
  = Some (Throw "No solution found for a machine (joltage)").
Proof.
  destruct (batch_aggregators 5 fixture stuckMachine [idleMachine]
              fixture_withinLimits) as [H1 H2].
  destruct (H1 fixture_lights_solvable) as [H1a H1b].
  destruct (H2 fixture_safeJoltage fixture_joltage_solvable) as [H2a H2b].
  split; [exact H1a|].
  split; [apply H1b, stuckMachine_unsolvable|].
  split; [exact H2a|]. apply H2b, stuckMachine_unsolvable.
Defined.

(** ** One level of the recursion, in the arithmetic of the source *)

(** X8: for targets of at most 2^53, [applyPattern] returns a new target
    exactly when every counter can take the contribution of the pattern
    and leave an even, non-negative remainder; the new target then has
    the same length and each old target is twice the new one plus the
    contribution. *)
Theorem applyPattern_exact pattern tgt machine newTarget :
  Forall (fun t => t <= 2 ^ 53) tgt ->
  (Binary64.applyPattern pattern tgt machine = Some newTarget <->
   length newTarget = length tgt /\
   forall (j : nat) t, tgt !! j = Some t ->
     exists n, newTarget !! j = Some n /\ 0 <= n /\
               t = 2 * n + countTouching machine pattern j).
Proof.
  intros Hall. rewrite applyPattern_binary64 by exact Hall.
  unfold applyPattern. split.
  - intros H. apply applyPatternFrom_Some in H. exact H.
  - intros [Hlen H]. apply applyPatternFrom_complete; assumption.
Qed.

Lemma applyPattern_exact_witness :
  Binary64.applyPattern 27 [3; 5; 4; 7] fixture1 = Some [1; 2; 1; 2] <->
  length [1; 2; 1; 2] = length [3; 5; 4; 7] /\
  forall (j : nat) t, [3; 5; 4; 7] !! j = Some t ->
    exists n, [1; 2; 1; 2] !! j = Some n /\ 0 <= n /\
              t = 2 * n + countTouching fixture1 27 j.
Proof.
  apply (applyPattern_exact 27 [3; 5; 4; 7] fixture1 [1; 2; 1; 2]).
  repeat constructor; vm_compute; discriminate.
Defined.

Lemma combineSolution_halves pattern (s : list Z) :
  (fun v => v / 2) <$> combineSolution pattern s = s /\
  forall (b : nat) v, combineSolution pattern s !! b = Some v ->
                      Z.odd v = bitSet pattern b.
Proof.
  split.
  - apply list_eq. intros b.
    rewrite list_lookup_fmap, combineSolution_lookup.
    destruct (s !! b) as [v|]; [|reflexivity]. simpl. f_equal.
    destruct (bitSet pattern b).
    + rewrite Z.add_comm, Z.div_add by lia. reflexivity.
    + apply Z.div_mul. lia.
  - intros b v Hv. rewrite combineSolution_lookup in Hv.
    destruct (s !! b) as [u|]; [|discriminate]. simpl in Hv.
    injection Hv as <-. destruct (bitSet pattern b).
    + rewrite Z.odd_add, Z.odd_mul. simpl. rewrite andb_false_r. reflexivity.
    + rewrite Z.odd_mul. simpl. apply andb_false_r.
Qed.

(** X9: for a sub-solution with entries below 2^52 in absolute value,
    [combineSolution] can be undone: halving its entries gives the
    sub-solution back, and entry [b] is odd exactly when the pattern
    selects button [b]. *)
Theorem combineSolution_split pattern s :
  Forall (fun v => - 2 ^ 52 <= v < 2 ^ 52) s ->
  (fun v => v / 2) <$> Binary64.combineSolution pattern s = s /\
  forall (b : nat) v, Binary64.combineSolution pattern s !! b = Some v ->
                      Z.odd v = bitSet pattern b.
Proof.
  intros Hall. rewrite combineSolution_binary64 by exact Hall.
  apply combineSolution_halves.
Qed.

Lemma combineSolution_split_witness :
  (fun v => v / 2) <$> Binary64.combineSolution 27 [0; 2; 0; 0; 1; 0]
  = [0; 2; 0; 0; 1; 0] /\
  forall (b : nat) v,
    Binary64.combineSolution 27 [0; 2; 0; 0; 1; 0] !! b = Some v ->
    Z.odd v = bitSet 27 b.
Proof.
  apply (combineSolution_split 27 [0; 2; 0; 0; 1; 0]).
  repeat constructor; vm_compute; discriminate || reflexivity.
Defined.

Lemma reaches_entries machine presses tgt (bound : Z) :
  reaches machine presses tgt ->
  Forall (fun v => v < bound) presses -> 0 < bound ->
  Forall (fun v => - bound <= v < bound) presses.
Proof.
  intros (_ & Hpos & _) Hb H0. apply Forall_lookup. intros k v Hv.
  rewrite Forall_lookup in Hpos, Hb.
  specialize (Hpos k v Hv). specialize (Hb k v Hv). simpl in *. lia.
Qed.

(** X18: one level up.  When [applyPattern] turns a target of entries of
    at most 2^53 into a new target and a press vector with entries below
    2^52 reaches the new target, [combineSolution] of the pattern and
    that vector reaches the old target. *)
Theorem combineSolution_reaches machine pattern tgt newTarget presses :
  Forall (fun t => t <= 2 ^ 53) tgt ->
  Forall (fun v => v < 2 ^ 52) presses ->
  Binary64.applyPattern pattern tgt machine = Some newTarget ->
  reaches machine presses newTarget ->
  reaches machine (Binary64.combineSolution pattern presses) tgt.
Proof.
  intros Ht Hp Hap Hr. rewrite applyPattern_binary64 in Hap by exact Ht.
  rewrite combineSolution_binary64
    by (eapply reaches_entries; [exact Hr|exact Hp|reflexivity]).
  eapply reaches_combine; eassumption.
Qed.

Lemma combineSolution_reaches_witness :
  Binary64.applyPattern 27 [3; 5; 4; 7] fixture1 = Some [1; 2; 1; 2] /\
  reaches fixture1 [0; 2; 0; 0; 1; 0] [1; 2; 1; 2] /\
  reaches fixture1 (Binary64.combineSolution 27 [0; 2; 0; 0; 1; 0])
    [3; 5; 4; 7].
Proof.
  assert (H1 : Binary64.applyPattern 27 [3; 5; 4; 7] fixture1
               = Some [1; 2; 1; 2])
    by (vm_compute; reflexivity).
  assert (H2 : reaches fixture1 [0; 2; 0; 0; 1; 0] [1; 2; 1; 2]).
  { split; [reflexivity|]. split; [repeat constructor; lia|].
    intros j t Ht.
    do 4 (destruct j as [|j]; [injection Ht as <-; vm_compute; reflexivity|]).
    discriminate. }
  split; [exact H1|]. split; [exact H2|].
  apply (combineSolution_reaches fixture1 27 [3; 5; 4; 7] [1; 2; 1; 2]
           [0; 2; 0; 0; 1; 0]); [| |exact H1|exact H2];
    repeat constructor; vm_compute; discriminate || reflexivity.
Defined.

(** X19: one level down, for at most 30 buttons and targets of at most
    2^53.  The pattern of the odd entries of a press vector that reaches
    a target applies to the target, and the halved vector reaches the new
    target: every press vector is found by the recursion. *)
Theorem applyPattern_of_solution machine presses tgt :
  (length (buttons machine) <= 30)%nat ->
  Forall (fun t => t <= 2 ^ 53) tgt ->
  reaches machine presses tgt ->
  exists newTarget,
    Binary64.applyPattern (parityMask presses) tgt machine = Some newTarget /\
    reaches machine ((fun v => v / 2) <$> presses) newTarget.
Proof.
  intros HB Ht Hp. rewrite applyPattern_binary64 by exact Ht.
  destruct (reaches_halves machine presses tgt HB Hp) as (nt & Hap & Hq & _).
  eauto.
Qed.

Lemma applyPattern_of_solution_witness :
  exists newTarget,
    Binary64.applyPattern (parityMask [1; 5; 0; 1; 3; 0]) [3; 5; 4; 7] fixture1
    = Some newTarget /\
    reaches fixture1 ((fun v => v / 2) <$> [1; 5; 0; 1; 3; 0]) newTarget.
Proof.
  apply applyPattern_of_solution; [vm_compute; lia| |].
  - repeat constructor; vm_compute; discriminate.
  - apply (solveMachineJoltage_sound fixture1 4). vm_compute. reflexivity.
Defined.

Lemma sumPresses_entries (s : list Z) (bound : Z) :
  Forall (fun v => 0 <= v) s -> sumPresses s <= bound ->
  Forall (fun v => v <= bound) s.
Proof.
  induction s as [|v s IH]; intros Hpos Hsum; constructor.
  - apply Forall_cons in Hpos as [Hv Hpos]. rewrite sumPresses_cons in Hsum.
    pose proof (sumPresses_nonneg s Hpos). lia.
  - apply Forall_cons in Hpos as [Hv Hpos]. rewrite sumPresses_cons in Hsum.
    apply IH; [exact Hpos|lia].
Qed.

(** X20: the cost of a level.  For at most 30 buttons, a pattern below
    [1 << numButtons] and a sub-solution of non-negative presses, as long
    as [countBits] of the pattern plus twice the presses of the
    sub-solution is at most 2^53, the presses of [combineSolution] add up
    to the total cost that [solveRecursive] computes from the presses of
    the sub-solution, without rounding. *)
Theorem combineSolution_cost pattern (s : list Z) :
  (length s <= 30)%nat -> 0 <= pattern < 2 ^ Z.of_nat (length s) ->
  Forall (fun v => 0 <= v) s ->
  countBits pattern + 2 * sumPresses s <= 2 ^ 53 ->
  Binary64.sumPresses (Binary64.combineSolution pattern s)
  = Binary64.add (countBits pattern) (Binary64.mul 2 (Binary64.sumPresses s)) /\
  Binary64.sumPresses (Binary64.combineSolution pattern s)
  = countBits pattern + 2 * sumPresses s.
Proof.
  intros Hlen Hp Hpos Hsum.
  pose proof (countBits_bound pattern) as Hcnt.
  pose proof (sumPresses_nonneg s Hpos) as Hs0.
  pose proof (pattern_cost pattern s Hlen Hp) as Hcost.
  pose proof (combineSolution_nonneg pattern s Hpos) as Hcpos.
  rewrite combineSolution_within.
  2:{ pose proof (sumPresses_entries _ (2 ^ 53) Hcpos ltac:(lia)) as Hle.
      apply Forall_lookup. intros k v Hv. rewrite Forall_lookup in Hcpos, Hle.
      specialize (Hcpos k v Hv). specialize (Hle k v Hv). simpl in *. lia. }
  rewrite (sumPresses_exact s) by (assumption || lia).
  rewrite sumPresses_exact by (assumption || lia).
  rewrite Hcost. rewrite mul_small by lia. rewrite add_small by lia.
  split; reflexivity.
Qed.

Lemma combineSolution_cost_witness :
  Binary64.sumPresses (Binary64.combineSolution 27 [0; 2; 0; 0; 1; 0])
  = Binary64.add (countBits 27)
      (Binary64.mul 2 (Binary64.sumPresses [0; 2; 0; 0; 1; 0])) /\
  Binary64.sumPresses (Binary64.combineSolution 27 [0; 2; 0; 0; 1; 0])
  = countBits 27 + 2 * sumPresses [0; 2; 0; 0; 1; 0].
Proof.
  apply combineSolution_cost;
    [simpl; lia|simpl; lia|repeat constructor; lia
    |vm_compute; discriminate].
Defined.

(** ** Batches, one after the other *)

Lemma solvePart2From_binary64_app fuel : forall machines rest total,
  Binary64.solvePart2From fuel (machines ++ rest) total
  = match Binary64.solvePart2From fuel machines total with
    | Some (Return a) => Binary64.solvePart2From fuel rest a
    | other => other
    end.
Proof.
  induction machines as [|m machines IH]; intros rest total; [reflexivity|].
  simpl. destruct (Binary64.solveMachineJoltage m fuel) as [[s|]|];
    [apply IH|reflexivity|reflexivity].
Qed.

Lemma foldl_add_nonneg : forall (s : list Z) total,
  Forall (fun v => 0 <= v) s -> 0 <= total ->
  0 <= foldl Binary64.add total s.
Proof.
  induction s as [|v s IH]; intros total Hall Ht; [exact Ht|].
  apply Forall_cons in Hall as [Hv Hall]. cbn [foldl].
  apply IH; [exact Hall|]. apply round_nonneg. lia.
Qed.

(** The total of a batch of machines within the safe range is the
    running sum of costs that do not depend on where the total starts. *)
Lemma solvePart2From_costs_of fuel : forall machines total y,
  Forall (fun m => safeJoltage (joltage m)) machines ->
  Binary64.solvePart2From fuel machines total = Some (Return y) ->
  exists costs,
    Forall (fun c => 0 <= c) costs /\
    forall total',
      Binary64.solvePart2From fuel machines total'
      = Some (Return (foldl Binary64.add total' costs)).
Proof.
  induction machines as [|m machines IH]; intros total y Hsafe Hrun.
  - exists []. split; [constructor|]. intros total'. reflexivity.
  - apply Forall_cons in Hsafe as [Hm Hsafe]. simpl in Hrun.
    destruct (Binary64.solveMachineJoltage m fuel) as [[s|]|] eqn:Hs;
      [|discriminate|discriminate].
    destruct (IH _ _ Hsafe Hrun) as (costs & Hpos & Hall).
    exists (Binary64.sumPresses s :: costs). split.
    + constructor; [|exact Hpos].
      destruct (solveMachineJoltage_safe_sound m fuel s Hm Hs)
        as (_ & Hs0 & _).
      apply foldl_add_nonneg; [exact Hs0|lia].
    + intros total'. simpl. rewrite Hs. apply Hall.
Qed.

Lemma solvePart2_totals fuel machines rest a b :
  Forall (fun m => safeJoltage (joltage m)) (machines ++ rest) ->
  Binary64.solvePart2 fuel machines = Some (Return a) ->
  Binary64.solvePart2 fuel rest = Some (Return b) ->
  a + b < 2 ^ 53 ->
  Binary64.solvePart2 fuel (machines ++ rest) = Some (Return (a + b)).
Proof.
  intros Hsafe Ha Hb Hsum. apply Forall_app in Hsafe as [Hm Hr].
  unfold Binary64.solvePart2 in *.
  rewrite solvePart2From_binary64_app, Ha.
  destruct (solvePart2From_costs_of fuel machines 0 a Hm Ha)
    as (ca & Hca & Hma).
  destruct (solvePart2From_costs_of fuel rest 0 b Hr Hb)
    as (cb & Hcb & Hmb).
  assert (Ha0 : 0 <= a).
  { rewrite Hma in Ha. injection Ha as <-.
    apply foldl_add_nonneg; [exact Hca|lia]. }
  assert (Hb0 : b = 0 + sumPresses cb).
  { rewrite Hmb in Hb. injection Hb as Hb.
    apply foldl_add_below; [exact Hcb|lia|exact Hb|lia]. }
  rewrite Hmb. do 2 f_equal.
  rewrite sumPresses_binary64 by (assumption || lia). lia.
Qed.

(** X17: batches compose.  For [solvePart1] the total of two batches run
    one after the other is the sum of their totals.  For [solvePart2] the
    whole batch gives what the second batch gives when it starts from the
    total of the first, which is the sum of the two totals when the
    joltages are at most 2^46 and that sum is below 2^53.  An error of
    the first batch, or else of the second, is the error of the whole: no
    partial sum is ever returned. *)
Theorem batches_compose fuel (machines rest : list Machine) :
  solvePart1 (machines ++ rest)
  = match solvePart1 machines, solvePart1 rest with
    | Throw msg, _ => Throw msg
    | Return _, Throw msg => Throw msg
    | Return a, Return b => Return (JS.add a b)
    end /\
  Binary64.solvePart2 fuel (machines ++ rest)
  = match Binary64.solvePart2 fuel machines with
    | Some (Return a) => Binary64.solvePart2From fuel rest a
    | other => other
    end /\
  (Forall (fun m => safeJoltage (joltage m)) (machines ++ rest) ->
   forall a b,
     Binary64.solvePart2 fuel machines = Some (Return a) ->
     Binary64.solvePart2 fuel rest = Some (Return b) ->
     a + b < 2 ^ 53 ->
     Binary64.solvePart2 fuel (machines ++ rest) = Some (Return (a + b))).
Proof.
  split; [|split].
  - unfold solvePart1. rewrite solvePart1From_app.
    destruct (solvePart1From machines (JS.Int 0)) as [a|msg]; [|reflexivity].
    rewrite solvePart1From_total.
    destruct (solvePart1From rest (JS.Int 0)); reflexivity.
  - apply solvePart2From_binary64_app.
  - intros Hsafe a b. apply solvePart2_totals, Hsafe.
Qed.

Lemma batches_compose_witness :
  Binary64.solvePart2 5 ([fixture1] ++ [fixture2; fixture3])
  = Some (Return (10 + 23)).
Proof.
  destruct (batches_compose 5 [fixture1] [fixture2; fixture3])
    as (_ & _ & H).
  apply H; [repeat constructor; vm_compute; discriminate
           |vm_compute; reflexivity|vm_compute; reflexivity|reflexivity].
Defined.

(** ** The two arithmetics *)

Lemma binary64_safe machine fuel :
  safeJoltage (joltage machine) ->
  Binary64.solveMachineJoltage machine fuel = solveMachineJoltage machine fuel /\
  ((length (buttons machine) <= 32)%nat ->
   forall s, Binary64.solveMachineJoltage machine fuel = Some (Some s) ->
             Binary64.sumPresses s = sumPresses s).
Proof.
  intros Hsafe. split; [apply solveMachineJoltage_binary64, Hsafe|].
  intros HB s Hs. rewrite solveMachineJoltage_binary64 in Hs by exact Hsafe.
  apply (solution_sum_exact machine fuel s HB Hsafe Hs).
Qed.

(** X23: within the safe range the reduction solver never rounds.  For a
    machine whose joltages are at most 2^46, [solveMachineJoltage]
    computed in binary64 returns, whatever the fuel, what it returns when
    computed over the integers; and with at most 32 buttons the sum of the
    returned presses is added up by [reduce] without rounding. *)
Theorem binary64_agrees machine fuel :
  safeJoltage (joltage machine) ->
  Binary64.solveMachineJoltage machine fuel = solveMachineJoltage machine fuel /\
  ((length (buttons machine) <= 32)%nat ->
   forall s, Binary64.solveMachineJoltage machine fuel = Some (Some s) ->
             Binary64.sumPresses s = sumPresses s).
Proof. apply binary64_safe. Qed.

Lemma binary64_agrees_witness :
  Binary64.solveMachineJoltage fixture2 5 = solveMachineJoltage fixture2 5 /\
  Binary64.sumPresses [2; 5; 0; 5; 0] = sumPresses [2; 5; 0; 5; 0].
Proof.
  destruct (binary64_agrees fixture2 5) as [H1 H2];
    [vm_compute; discriminate|].
  split; [exact H1|]. apply H2; [vm_compute; lia|]. vm_compute. reflexivity.
Defined.

(** ** Beyond the limits *)

Lemma bigMachine_reached p :
  reaches bigMachine p (joltage bigMachine) <-> p = [1; 2 ^ 53 + 1].
Proof.
  split.
  - intros (Hlen & _ & Hsum).
    destruct p as [|a [|b [|c p]]]; try discriminate.
    pose proof (Hsum 0%nat (2 ^ 53 + 2) eq_refl) as H0.
    pose proof (Hsum 1%nat 1 eq_refl) as H1.
    cbn in H0, H1. change (Z.of_nat 0) with 0 in H0.
    change (Z.of_nat 1) with 1 in H1.
    change (0 =? 0) with true in H0. change (0 =? 1) with false in H0.
    change (1 =? 0) with false in H1. change (1 =? 1) with true in H1.
    cbn [orb] in H0, H1. f_equal; [lia|]. f_equal. lia.
  - intros ->. split; [reflexivity|]. split.
    + repeat constructor; lia.
    + intros [|[|j]] t Ht; try discriminate; injection Ht as <-;
        vm_compute; reflexivity.
Qed.

(** C2 as stated fails in two ways.  On a machine with 31 buttons
    [1 << 31] is negative, the table of patterns stays empty and the
    solver answers null, although pressing the first button once reaches
    the joltage.  And beyond 2^53 the presses are rounded: on
    [bigMachine] the one vector that reaches the joltage presses 1 and
    2^53 + 1, in all 2^53 + 2; the solver returns 1 and 2^53, which
    [reduce] adds up to 2^53. *)
Lemma solveMachineJoltage_beyond_limits :
  (joltage machine31 <> [] /\
   (depthBound (joltage machine31) <= 2)%nat /\
   Binary64.solveMachineJoltage machine31 2 = Some None /\
   reaches machine31 (1 :: replicate 30 0) (joltage machine31)) /\
  (joltage bigMachine <> [] /\
   (length (buttons bigMachine) <= 30)%nat /\
   (depthBound (joltage bigMachine) <= 55)%nat /\
   Binary64.solveMachineJoltage bigMachine 55 = Some (Some [1; 2 ^ 53]) /\
   Binary64.sumPresses [1; 2 ^ 53] = 2 ^ 53 /\
   (forall p, reaches bigMachine p (joltage bigMachine) ->
              sumPresses p = 2 ^ 53 + 2)).
Proof.
  split.
  - split; [discriminate|]. split; [vm_compute; lia|].
    split; [vm_compute; reflexivity|].
    split; [reflexivity|]. split.
    + repeat constructor; lia.
    + intros [|j] t Ht; simpl in Ht; [|discriminate].
      injection Ht as <-. vm_compute. reflexivity.
  - split; [discriminate|]. split; [vm_compute; lia|].
    split; [vm_compute; lia|]. split; [vm_compute; reflexivity|].
    split; [vm_compute; reflexivity|].
    intros p Hp. apply bigMachine_reached in Hp as ->.
    vm_compute. reflexivity.
Qed.

(** C7 as stated fails in three ways.  The failure does not tell which
    machine failed: the batch whose first machine is unsolvable and the
    batch whose second machine is unsolvable end in the same error.  For
    a machine beyond the limits of the solver the sum is not the sum of
    the minimal costs: [machine32] is solved by one press, and
    [solvePart1] returns [Infinity].  And beyond 2^53 the sum is rounded:
    the minimal cost of [bigMachine] is 2^53 + 2, and [solvePart2]
    returns 2^53. *)
Lemma failed_machine_not_surfaced :
  (solveMachineLights stuckMachine = JS.Int (-1) /\
   solveMachineLights idleMachine = JS.Int 0 /\
   solvePart1 [stuckMachine; idleMachine]
   = solvePart1 [idleMachine; stuckMachine]) /\
  (Binary64.solveMachineJoltage stuckMachine 2 = Some None /\
   Binary64.solveMachineJoltage idleMachine 2 = Some (Some []) /\
   Binary64.solvePart2 2 [stuckMachine; idleMachine]
   = Binary64.solvePart2 2 [idleMachine; stuckMachine]) /\
  (lightsMatch machine32 (true :: replicate 31 false) /\
   solvePart1 [machine32] = Return JS.Infinity) /\
  (minimalJoltage bigMachine (2 ^ 53 + 2) /\
   Binary64.solvePart2 55 [bigMachine] = Some (Return (2 ^ 53))).
Proof.
  split; [repeat split; vm_compute; reflexivity|].
  split; [repeat split; vm_compute; reflexivity|].
  split.
  - split; [|vm_compute; reflexivity].
    split; [reflexivity|].
    intros [|i] t Ht; simpl in Ht; [|discriminate].
    injection Ht as <-. vm_compute. reflexivity.
  - split; [|vm_compute; reflexivity].
    exists [1; 2 ^ 53 + 1]. split; [apply bigMachine_reached; reflexivity|].
    split; [vm_compute; reflexivity|].
    intros q Hq. apply bigMachine_reached in Hq as ->.
    vm_compute. discriminate.
Qed.

(** C10 as stated fails in two ways.  On a machine with 33 buttons the
    pattern 1 selects button 0 and, the shift count being taken modulo
    32, button 32 as well, but [countBits] counts one bit; the result has
    cost 1 for a solution that presses two buttons.  And beyond 2^53 the
    presses are rounded: on [bigMachine] the result has cost 2^53 + 2 for
    the solution of 1 and 2^53 presses. *)
Lemma result_invariant_beyond_limits :
  (exists memo',
     Binary64.solveRecursive machine33 (precomputeParityPatterns machine33)
       3 ∅ (joltage machine33)
     = Some (mkResult (Some 1) (Some (1 :: replicate 31 0 ++ [1])), memo') /\
     ~ resultInvariant
         (mkResult (Some 1) (Some (1 :: replicate 31 0 ++ [1])))) /\
  (exists memo',
     Binary64.solveRecursive bigMachine (precomputeParityPatterns bigMachine)
       55 ∅ (joltage bigMachine)
     = Some (mkResult (Some (2 ^ 53 + 2)) (Some [1; 2 ^ 53]), memo') /\
     sumPresses [1; 2 ^ 53] = 2 ^ 53 + 1 /\
     ~ resultInvariant (mkResult (Some (2 ^ 53 + 2)) (Some [1; 2 ^ 53]))).
Proof.
  split.
  - assert (Hfst : fst <$> Binary64.solveRecursive machine33
                     (precomputeParityPatterns machine33) 3 ∅
                     (joltage machine33)
                   = Some (mkResult (Some 1)
                             (Some (1 :: replicate 31 0 ++ [1]))))
      by (vm_compute; reflexivity).
    destruct (Binary64.solveRecursive machine33
                (precomputeParityPatterns machine33) 3 ∅
                (joltage machine33)) as [[r memo']|]; [|discriminate].
    injection Hfst as ->. exists memo'. split; [reflexivity|].
    intros [Hc _]. vm_compute in Hc. discriminate.
  - assert (Hfst : fst <$> Binary64.solveRecursive bigMachine
                     (precomputeParityPatterns bigMachine) 55 ∅
                     (joltage bigMachine)
                   = Some (mkResult (Some (2 ^ 53 + 2)) (Some [1; 2 ^ 53])))
      by (vm_compute; reflexivity).
    destruct (Binary64.solveRecursive bigMachine
                (precomputeParityPatterns bigMachine) 55 ∅
                (joltage bigMachine)) as [[r memo']|]; [|discriminate].
    injection Hfst as ->. exists memo'. split; [reflexivity|].
    split; [vm_compute; reflexivity|].
    intros [Hc _]. vm_compute in Hc. discriminate.
Qed.
